(** * chat-widget-ai-sdk: the DOM tools and the streaming turn, embedded

    Shallow embedding of
      - [src/tools/index.ts]   (searchElements, modifyElement, createElement,
        highlightElements)
      - the [ChatWidget] component's [handleSubmit] (the streaming turn and
        its request) and [getDOMContext] (the page summary)
      - [ChatWidgetSDK]        (init, destroy)
    and the properties of the specification that concern them, followed by
    further properties read off the code.

    Modelling conventions
      - JavaScript strings are [string] (the ASCII part of the behaviour of
        [toLowerCase] and [trim] is modelled);
      - a DOM object has an identity, the field [nid]; the document is a
        forest of nodes and an operation on an element object addresses it
        by that identity;
      - the browser's selector engine is not part of the repository: it is a
        section variable [selectorMatches], from which [querySelectorAll] is
        built as a filter over the elements in document order;
      - a thrown DOM exception is a value of the error monad [thrown]; the
        members of [element.style] whose assignment throws are a section
        variable [readOnlyStyle];
      - [element.style] is a finite map from property name to value, an
        unset property reading as the empty string; the [style] attribute
        and the expansion of shorthand properties are not modelled;
      - React is not part of the repository either: what a root draws in
        its container is a section variable. *)

From Stdlib Require Import ZArith Ascii String List Lia Bool.
From stdpp Require Import base option list strings gmap pretty sorting.

Set Warnings "-register-all".

(** ** JavaScript string primitives used by the sources *)

Module JS.

Definition lowerChar (c : ascii) : ascii :=
  let n := nat_of_ascii c in
  if (65 <=? n) && (n <=? 90) then ascii_of_nat (n + 32) else c.

Fixpoint toLowerCase (s : string) : string :=
  match s with
  | EmptyString => EmptyString
  | String c r => String (lowerChar c) (toLowerCase r)
  end.

(** [s.includes(sub)] *)
Fixpoint includes (s sub : string) : bool :=
  String.prefix sub s
  || match s with
     | EmptyString => false
     | String _ r => includes r sub
     end.

(** [s.startsWith(p)] *)
Definition startsWith (s p : string) : bool := String.prefix p s.

Fixpoint trimStart (s : string) : string :=
  match s with
  | EmptyString => EmptyString
  | String c r => if Ascii.is_space c then trimStart r else s
  end.

Definition trim (s : string) : string :=
  String.rev (trimStart (String.rev (trimStart s))).

Fixpoint split_go (sep : ascii) (cur : string) (s : string) : list string :=
  match s with
  | EmptyString => [String.rev cur]
  | String c r =>
      if Ascii.eqb c sep then String.rev cur :: split_go sep EmptyString r
      else split_go sep (String c cur) r
  end.

(** [s.split(sep)] for a one-character separator *)
Definition split (sep : ascii) (s : string) : list string :=
  split_go sep EmptyString s.

(** [l.join(sep)] *)
Definition join (sep : string) (l : list string) : string :=
  String.concat sep l.

(** truthiness of a string: non-empty *)
Definition truthy (s : string) : bool := negb (String.eqb s "").

(** [s.substring(0, n)] *)
Definition substring0 (n : nat) (s : string) : string := String.substring 0 n s.

(** [l.slice(0, limit)]: a negative end counts from the end of the array.
    The limit is an integer here; [slice] truncates a fractional one. *)
Definition slice0 {A} (limit : Z) (l : list A) : list A :=
  let len := Z.of_nat (length l) in
  let stop := if (limit <? 0)%Z then Z.max (len + limit) 0 else Z.min limit len in
  take (Z.to_nat stop) l.

End JS.

(** ** Thrown exceptions *)

Inductive exn := SyntaxError | InvalidCharacterError | TypeError.

Inductive thrown (A : Type) :=
| Ok (a : A)
| Throw (e : exn).
Arguments Ok {A} a.
Arguments Throw {A} e.

Definition bindT {A B} (m : thrown A) (k : A → thrown B) : thrown B :=
  match m with
  | Ok a => k a
  | Throw e => Throw e
  end.

Notation "'try!' x ← m ; k" := (bindT m (λ x, k))
  (at level 20, x name, m at level 100, k at level 200, only parsing).

(** A call that throws before it has had any effect. *)
Definition caught {S} (s : S) (m : thrown S) : S * option exn :=
  match m with
  | Ok s' => (s', None)
  | Throw e => (s, Some e)
  end.

(** JavaScript's [forEach] with a body that may throw: the first exception
    aborts the loop and keeps the effects had so far, those of the
    iteration that throws included. *)
Fixpoint forEachT {A S} (body : A → S → S * option exn) (l : list A) (s : S)
    : S * option exn :=
  match l with
  | [] => (s, None)
  | a :: r =>
      match body a s with
      | (s', None) => forEachT body r s'
      | (s', Some e) => (s', Some e)
      end
  end.

(** ** The document tree *)

Module Dom.

Inductive elemKind := HTMLElem | SVGElem | OtherElem.

(** The state of one element object. [tagName] is what the DOM property
    returns (upper case for an HTML element). *)
Record elem := mkElem {
  nid : nat;
  kind : elemKind;
  tagName : string;
  attrs : gmap string string;
  style : gmap string string;
}.

Inductive node :=
| TextNode (data : string)
| ElemNode (e : elem) (childNodes : list node).

(** The children of the Document node. *)
Definition document := list node.

(** An element as a query hands it out: its own state, its child nodes and
    the chain of its ancestors, nearest first, each with its child nodes. *)
Record Element := mkElement {
  self : elem;
  kids : list node;
  ancestors : list (elem * list node);
}.

Fixpoint elementsOf (anc : list (elem * list node)) (n : node) : list Element :=
  match n with
  | TextNode _ => []
  | ElemNode e cs =>
      mkElement e cs anc :: flat_map (elementsOf ((e, cs) :: anc)) cs
  end.

(** Every element of the document, in document order:
    [document.querySelectorAll('*')]. *)
Definition allElements (doc : document) : list Element :=
  flat_map (elementsOf []) doc.

Definition isHTMLElement (e : elem) : bool :=
  match kind e with HTMLElem => true | _ => false end.

Definition getAttribute (e : elem) (a : string) : option string := attrs e !! a.
Definition hasAttribute (e : elem) (a : string) : bool := bool_decide (is_Some (attrs e !! a)).

(** [el.id] *)
Definition id (e : elem) : string := default "" (attrs e !! "id").

(** HTML's ASCII whitespace, the separator of class tokens *)
Definition isAsciiWhitespace (c : ascii) : bool :=
  match c with
  | "009" | "010" | "012" | "013" | " " => true
  | _ => false
  end%char.

Fixpoint tokens_go (cur : option string) (s : string) : list string :=
  match s with
  | EmptyString => option_list (String.rev <$> cur)
  | String c r =>
      if isAsciiWhitespace c
      then option_list (String.rev <$> cur) ++ tokens_go None r
      else tokens_go (Some (String c (default EmptyString cur))) r
  end.

Fixpoint orderedSet (seen l : list string) : list string :=
  match l with
  | [] => []
  | x :: r =>
      if bool_decide (x ∈ seen) then orderedSet seen r
      else x :: orderedSet (x :: seen) r
  end.

(** [el.classList]: the ordered set of the tokens of the class attribute *)
Definition classList (e : elem) : list string :=
  orderedSet [] (tokens_go None (default "" (attrs e !! "class"))).

(** truthiness of [el.className]: a string for an HTML element, an
    [SVGAnimatedString] object (always truthy) for an SVG element *)
Definition classNameTruthy (e : elem) : bool :=
  match kind e with
  | SVGElem => true
  | _ => JS.truthy (default "" (attrs e !! "class"))
  end.

Fixpoint textContent (n : node) : string :=
  match n with
  | TextNode s => s
  | ElemNode _ cs => String.concat "" (map textContent cs)
  end.

(** [el.textContent] *)
Definition elTextContent (el : Element) : string :=
  String.concat "" (map textContent (kids el)).

(** [el.parentElement] *)
Definition parentElement (el : Element) : option (elem * list node) :=
  head (ancestors el).

(** [parent.children]: the element children *)
Definition children (cs : list node) : list elem :=
  omap (λ n, match n with ElemNode e _ => Some e | TextNode _ => None end) cs.

(** [Array.from(parent.children).indexOf(el)], by object identity;
    the result is a JavaScript number, -1 when absent. *)
Fixpoint indexOf (es : list elem) (i : nat) : Z :=
  match es with
  | [] => (-1)%Z
  | e :: r => if decide (nid e = i) then 0%Z else
                let k := indexOf r i in if (k <? 0)%Z then (-1)%Z else (k + 1)%Z
  end.

(** [el.closest('.chat-widget-container')] is not null *)
Definition isWidgetContainer (e : elem) : bool :=
  bool_decide ("chat-widget-container" ∈ classList e).

Definition closestWidget (el : Element) : bool :=
  existsb isWidgetContainer (self el :: map fst (ancestors el)).

(** [document.getElementById(i)] *)
Definition getElementById (i : string) (doc : document) : option Element :=
  if JS.truthy i
  then head (List.filter (λ el, String.eqb (id (self el)) i) (allElements doc))
  else None.

(** The elements of the subtrees rooted at a widget container: what the
    specification calls the widget's own rendered subtree. *)
Fixpoint widgetElementsOf (anc : list (elem * list node)) (n : node) : list Element :=
  match n with
  | TextNode _ => []
  | ElemNode e cs =>
      if isWidgetContainer e then elementsOf anc n
      else flat_map (widgetElementsOf ((e, cs) :: anc)) cs
  end.

Definition widgetElements (doc : document) : list Element :=
  flat_map (widgetElementsOf []) doc.

(** *** Mutation of element objects

    An operation on the element object [i] rewrites the node of that
    identity where it stands in the document; on an object that is no
    longer in the document it changes nothing there. *)

Fixpoint updateNode (i : nat) (f : elem → list node → list node) (n : node) : list node :=
  match n with
  | TextNode _ => [n]
  | ElemNode e cs =>
      if decide (nid e = i) then f e cs
      else [ElemNode e (flat_map (updateNode i f) cs)]
  end.

Definition updateElement (i : nat) (f : elem → list node → list node)
    (doc : document) : document :=
  flat_map (updateNode i f) doc.

Definition withAttrs (e : elem) (a : gmap string string) : elem :=
  mkElem (nid e) (kind e) (tagName e) a (style e).

Definition withStyle (e : elem) (s : gmap string string) : elem :=
  mkElem (nid e) (kind e) (tagName e) (attrs e) s.

(** [element.style[prop]] read and written *)
Definition getProperty (prop : string) (s : gmap string string) : string :=
  default "" (s !! prop).

Definition setProperty (prop val : string) (s : gmap string string) : gmap string string :=
  if JS.truthy val then <[prop := val]> s else delete prop s.

(** [element.textContent = v] *)
Definition setTextContent (v : string) (e : elem) (cs : list node) : list node :=
  [ElemNode e (if JS.truthy v then [TextNode v] else [])].

(** [element.style[prop] = val] *)
Definition setStyle (prop val : string) (e : elem) (cs : list node) : list node :=
  [ElemNode (withStyle e (setProperty prop val (style e))) cs].

(** The name under which [setAttribute] stores an attribute: an HTML
    element lower-cases it. *)
Definition storedName (a : string) (e : elem) : string :=
  if isHTMLElement e then JS.toLowerCase a else a.

(** [element.setAttribute(a, v)] with a valid name *)
Definition setAttribute (a v : string) (e : elem) (cs : list node) : list node :=
  [ElemNode (withAttrs e (<[storedName a e := v]> (attrs e))) cs].

(** The tokens [classList.add] and [classList.remove] accept. *)
Fixpoint validateTokens (ts : list string) : thrown unit :=
  match ts with
  | [] => Ok ()
  | t :: r =>
      if negb (JS.truthy t) then Throw SyntaxError
      else if existsb isAsciiWhitespace (list_ascii_of_string t)
      then Throw InvalidCharacterError
      else validateTokens r
  end.

(** The update steps of a token list: the class attribute becomes the
    serialised set, unless it is absent and the set is empty. *)
Definition writeClassList (e : elem) (set : list string) : elem :=
  match attrs e !! "class", set with
  | None, [] => e
  | _, _ => withAttrs e (<["class" := JS.join " " set]> (attrs e))
  end.

Definition classListAdd (ts : list string) (e : elem) (cs : list node) : list node :=
  [ElemNode (writeClassList e (orderedSet [] (classList e ++ ts))) cs].

Definition classListRemove (ts : list string) (e : elem) (cs : list node) : list node :=
  [ElemNode (writeClassList e
               (List.filter (λ c, negb (bool_decide (c ∈ ts))) (classList e))) cs].

(** [element.remove()] *)
Definition removeNode (e : elem) (cs : list node) : list node := [].

(** [parent.appendChild(n)] *)
Definition appendChild (n : node) (e : elem) (cs : list node) : list node :=
  [ElemNode e (cs ++ [n])].

(** [document.head]: the first [head] child of the [html] document element *)
Definition documentElement (doc : document) : option Element :=
  head (omap (λ n, match n with
                   | ElemNode e cs => Some (mkElement e cs [])
                   | TextNode _ => None
                   end) doc).

Definition documentHead (doc : document) : option elem :=
  match documentElement doc with
  | Some root =>
      if String.eqb (JS.toLowerCase (tagName (self root))) "html"
      then head (List.filter (λ e, String.eqb (JS.toLowerCase (tagName e)) "head")
                             (children (kids root)))
      else None
  | None => None
  end.

(** Some element of the document with identity [i] satisfies [P]. *)
Definition elementHas (doc : document) (i : nat) (P : elem → Prop) : Prop :=
  ∃ el, In el (allElements doc) ∧ nid (self el) = i ∧ P (self el).

(** The element object of identity [i], where it stands in the document. *)
Definition objectAt (doc : document) (i : nat) : option Element :=
  List.find (λ el, Nat.eqb (nid (self el)) i) (allElements doc).

(** An identity no object of the document has: that of a new object. *)
Definition freshId (doc : document) : nat :=
  S (foldr Nat.max 0 (map (λ el, nid (self el)) (allElements doc))).

End Dom.

(** ** The tools of [createTools] *)

Module Tools.
Import JS Dom.

Inductive searchType := ST_text | ST_tag | ST_attribute | ST_class | ST_id | ST_all.

(** One entry of [results] in [searchElements]; a field the code does not
    assign is [None]. *)
Record searchResult := mkResult {
  r_tagName : string;
  r_text : string;
  r_id : option string;
  r_classes : option (list string);
  r_selector : option string;
  r_attributes : option (gmap string string);
}.

Record searchOutput := mkSearchOutput {
  s_success : bool;
  s_message : string;
  s_results : list searchResult;
  s_totalFound : option nat;
}.

Definition textNodesOf (cs : list node) : list string :=
  omap (λ n, match n with TextNode s => Some s | ElemNode _ _ => None end) cs.

(** The direct text of a list item: its text-node children, trimmed, the
    empty ones dropped, joined by one space. *)
Definition directText (el : Element) : string :=
  join " " (List.filter truthy (map trim (textNodesOf (kids el)))).

Definition lowerTag (e : elem) : string := toLowerCase (tagName e).

Definition resultText (el : Element) : string :=
  if String.eqb (lowerTag (self el)) "li" then
    let d := directText el in
    if truthy d then d else trim (elTextContent el)
  else trim (elTextContent el).

(** The nth-child selector of lines 131-135; [None] when the element has
    no parent element. *)
Definition positionalSelector (el : Element) : option string :=
  match parentElement el with
  | Some (p, pcs) =>
      let index := (indexOf (children pcs) (nid (self el)) + 1)%Z in
      Some (lowerTag p +:+ " > " +:+ lowerTag (self el)
            +:+ ":nth-child(" +:+ pretty index +:+ ")")
  | None => None
  end.

Definition keyAttributes : list string :=
  ["href"; "src"; "type"; "name"; "value"; "placeholder"].

Definition collectAttributes (e : elem) : gmap string string :=
  foldl (λ m a, if hasAttribute e a
                then <[a := default "" (getAttribute e a)]> m else m)
        ∅ keyAttributes.

Definition nonWidgetClasses (e : elem) : list string :=
  List.filter (λ c, negb (startsWith c "chat-widget")) (classList e).

(** The body of [elements.forEach] of lines 96-151. The reads of
    lines 108-109 ([markerEl], [marker]) are not used and have no effect. *)
Definition buildResult (el : Element) : searchResult :=
  let e := self el in
  let attrs := collectAttributes e in
  let attributes := if decide (attrs = ∅) then None else Some attrs in
  let text := substring0 100 (resultText el) in
  if truthy (id e) then
    mkResult (lowerTag e) text (Some (id e)) None (Some ("#" +:+ id e)) attributes
  else if classNameTruthy e then
    let classes := nonWidgetClasses e in
    match classes with
    | c :: _ => mkResult (lowerTag e) text None (Some classes) (Some ("." +:+ c)) attributes
    | [] => mkResult (lowerTag e) text None (Some classes) (positionalSelector el) attributes
    end
  else
    mkResult (lowerTag e) text None None None attributes.

Inductive action := A_text | A_style | A_attribute | A_addClass | A_removeClass | A_remove.

Record modifyOutput := mkModifyOutput {
  m_success : bool;
  m_message : string;
  m_elementsModified : nat;
  m_action : option action;
}.

(** The double-quote character of the success message. *)
Definition dquote : string := String (ascii_of_nat 34) EmptyString.

(** Lines 210-216: the declarations of a style text that have both a
    property and a value. *)
Definition parseStyles (value : string) : list (string * string) :=
  omap (λ style,
          match map trim (split ":" style) with
          | prop :: val :: _ =>
              if truthy prop && truthy val then Some (prop, val) else None
          | _ => None
          end)
       (List.filter truthy (map trim (split ";" value))).

Inductive effect := E_border | E_background | E_pulse | E_shake | E_glow.

Definition effectName (eff : effect) : string :=
  match eff with
  | E_border => "border"
  | E_background => "background"
  | E_pulse => "pulse"
  | E_shake => "shake"
  | E_glow => "glow"
  end.

Record highlightOutput := mkHighlightOutput {
  h_success : bool;
  h_message : string;
  h_elementsHighlighted : nat;
  h_effect : option effect;
  h_duration : option Z;
}.

(** The object [originalStyles] of lines 397-403. *)
Record originalStyles := mkOriginal {
  o_border : string;
  o_backgroundColor : string;
  o_animation : string;
  o_boxShadow : string;
  o_transition : string;
}.

(** A callback registered with [setTimeout]: it closes over the element
    object and its [originalStyles]. *)
Record timer := mkTimer {
  t_delay : Z;
  t_target : nat;
  t_original : originalStyles;
}.

Definition capture (s : gmap string string) : originalStyles :=
  mkOriginal (getProperty "border" s) (getProperty "backgroundColor" s)
             (getProperty "animation" s) (getProperty "boxShadow" s)
             (getProperty "transition" s).

(** The properties [originalStyles] holds. *)
Definition capturedProperty (k : string) : bool :=
  bool_decide (k ∈ ["border"; "backgroundColor"; "animation"; "boxShadow"; "transition"]).

(** Lines 406-425. *)
Definition applyEffect (eff : effect) (color : string) (duration : Z)
    (s : gmap string string) : gmap string string :=
  let s := setProperty "transition" "all 0.3s ease" s in
  match eff with
  | E_border => setProperty "border" ("3px solid " +:+ color) s
  | E_background => setProperty "backgroundColor" (color +:+ "30") s
  | E_pulse =>
      setProperty "animation"
        ("pulse-effect " +:+ pretty duration +:+ "ms ease-in-out infinite") s
  | E_shake =>
      setProperty "animation" ("shake-effect " +:+ pretty duration +:+ "ms ease-in-out") s
  | E_glow =>
      setProperty "color" color
        (setProperty "animation"
           ("glow-effect " +:+ pretty duration +:+ "ms ease-in-out infinite") s)
  end.

(** The callback of lines 428-432: the five entries of [originalStyles]
    are written back in the order of the object's keys. *)
Definition restore (o : originalStyles) (s : gmap string string) : gmap string string :=
  setProperty "transition" (o_transition o)
    (setProperty "boxShadow" (o_boxShadow o)
       (setProperty "animation" (o_animation o)
          (setProperty "backgroundColor" (o_backgroundColor o)
             (setProperty "border" (o_border o) s)))).

Definition fireTimer (t : timer) (doc : document) : document :=
  updateElement (t_target t)
    (λ e cs, [ElemNode (withStyle e (restore (t_original t) (style e))) cs]) doc.

(** The state of the page once the callbacks of [timers] have run. *)
Definition elapse (timers : list timer) (doc : document) : document :=
  foldl (λ d t, fireTimer t d) doc timers.

Definition animationsCss : string :=
  "@keyframes pulse-effect { 0% { transform: scale(1); opacity: 1; } 50% { transform: scale(1.05); opacity: 0.8; } 100% { transform: scale(1); opacity: 1; } } @keyframes shake-effect { 0%, 100% { transform: translateX(0); } 25% { transform: translateX(-10px); } 75% { transform: translateX(10px); } } @keyframes glow-effect { 0%, 100% { box-shadow: 0 0 5px currentColor; } 50% { box-shadow: 0 0 20px currentColor, 0 0 30px currentColor; } }".

(** Lines 371-391: the style element is created once. *)
Definition installAnimations (doc : document) : thrown document :=
  match getElementById "chat-widget-animations" doc with
  | Some _ => Ok doc
  | None =>
      match documentHead doc with
      | Some h =>
          let styleEl :=
            ElemNode (mkElem (freshId doc) HTMLElem "STYLE"
                        {[ "id" := "chat-widget-animations" ]} ∅)
                     [TextNode animationsCss] in
          Ok (updateElement (nid h) (appendChild styleEl) doc)
      | None => Throw TypeError
      end
  end.

(** The body of [elements.forEach] of lines 393-433, on the page and the
    list of registered callbacks. *)
Definition highlightOne (eff : effect) (color : string) (duration : Z)
    (el : Element) (st : document * list timer) : document * list timer :=
  if isHTMLElement (self el) then
    let original := capture (style (self el)) in
    (updateElement (nid (self el))
       (λ e cs, [ElemNode (withStyle e (applyEffect eff color duration (style e))) cs])
       st.1,
     st.2 ++ [mkTimer duration (nid (self el)) original])
  else st.

(** [tag || '*'] *)
Definition tagSelector (tag : option string) : string :=
  match tag with
  | Some t => if truthy t then t else "*"
  | None => "*"
  end.

Section WithBrowser.

(** The browser's selector engine: a selector text is a syntax error or
    denotes a predicate on elements in their context. *)
Variable selectorMatches : string → thrown (Element → bool).
(** The text of the [message] property of a thrown exception. *)
Variable exnMessage : exn → string.

Definition querySelectorAll (sel : string) (doc : document) : thrown (list Element) :=
  try! p ← selectorMatches sel; Ok (List.filter p (allElements doc)).

(** The filter of the ['text'] search, lines 48-68. *)
Definition textFilter (searchValue : string) (el : Element) : bool :=
  if closestWidget el then false
  else if String.eqb (lowerTag (self el)) "li" then
    String.eqb (toLowerCase searchValue) "li"
    || includes (toLowerCase (directText el)) (toLowerCase searchValue)
    || includes (toLowerCase (elTextContent el)) (toLowerCase searchValue)
  else includes (toLowerCase (elTextContent el)) (toLowerCase searchValue).

(** The filter of the ['all'] search, lines 37-41. *)
Definition allFilter (searchValue : string) (el : Element) : bool :=
  if closestWidget el then false
  else includes (toLowerCase (elTextContent el)) (toLowerCase searchValue).

(** The [switch (searchType)] of lines 31-88. *)
Definition candidates (st : searchType) (searchValue : string) (tag : option string)
    (doc : document) : thrown (list Element) :=
  match st with
  | ST_all =>
      if String.eqb (toLowerCase searchValue) "list"
         || includes (toLowerCase searchValue) "list items"
      then querySelectorAll "li" doc
      else try! all ← querySelectorAll "*" doc;
           Ok (List.filter (allFilter searchValue) all)
  | ST_text =>
      try! all ← querySelectorAll (tagSelector tag) doc;
      Ok (List.filter (textFilter searchValue) all)
  | ST_tag =>
      try! all ← querySelectorAll searchValue doc;
      Ok (List.filter (λ el, negb (closestWidget el)) all)
  | ST_attribute => querySelectorAll ("[" +:+ searchValue +:+ "]") doc
  | ST_class => querySelectorAll ("." +:+ searchValue) doc
  | ST_id =>
      Ok (match getElementById searchValue doc with
          | Some el => [el]
          | None => []
          end)
  end.

(** The array [elements] after lines 91-93. *)
Definition searchNodes (st : searchType) (searchValue : string) (tag : option string)
    (limit : Z) (doc : document) : thrown (list Element) :=
  try! elements ← candidates st searchValue tag doc;
  Ok (slice0 limit (List.filter (λ el, negb (closestWidget el)) elements)).

Definition searchElements (st : searchType) (searchValue : string) (tag : option string)
    (limit : Z) (doc : document) : searchOutput :=
  match searchNodes st searchValue tag limit doc with
  | Ok elements =>
      let results := map buildResult elements in
      mkSearchOutput true
        ("Found " +:+ pretty (length results) +:+ " element(s) matching your search")
        results (Some (length results))
  | Throw e => mkSearchOutput false ("Error: " +:+ exnMessage e) [] None
  end.

(** The tool as the model calls it: the schema gives [limit] its default. *)
Definition searchElementsTool (st : searchType) (searchValue : string)
    (tag : option string) (limit : option Z) (doc : document) : searchOutput :=
  searchElements st searchValue tag (default 10%Z limit) doc.

(** The DOM's check of an attribute name in [setAttribute]. *)
Variable validAttributeName : string → bool.

(** The members of [element.style] that cannot be assigned: a member with
    a getter only ([parentRule], [length]), an array index. The tools are
    the strict code of a module, where such an assignment throws a
    [TypeError]. *)
Variable readOnlyStyle : string → bool.

(** [(element.style as any)[prop] = val], lines 214 and 301 *)
Definition assignStyle (i : nat) (pv : string * string) (doc : document)
    : document * option exn :=
  if readOnlyStyle pv.1 then (doc, Some TypeError)
  else (updateElement i (setStyle pv.1 pv.2) doc, None).

(** The body of [elements.forEach] of lines 200-238: the page it leaves and
    the exception it throws, if any. *)
Definition applyAction (act : action) (value attribute : option string)
    (el : Element) (doc : document) : document * option exn :=
  let i := nid (self el) in
  match act with
  | A_text =>
      if isHTMLElement (self el)
      then (updateElement i (setTextContent (default "" value)) doc, None)
      else (doc, None)
  | A_style =>
      match value with
      | Some v =>
          if isHTMLElement (self el) && truthy v
          then forEachT (assignStyle i) (parseStyles v) doc
          else (doc, None)
      | None => (doc, None)
      end
  | A_attribute =>
      match attribute, value with
      | Some a, Some v =>
          if truthy a then
            if validAttributeName a then (updateElement i (setAttribute a v) doc, None)
            else (doc, Some InvalidCharacterError)
          else (doc, None)
      | _, _ => (doc, None)
      end
  | A_addClass =>
      match value with
      | Some v =>
          if truthy v then
            caught doc (try! _ ← validateTokens (split " " v);
                        Ok (updateElement i (classListAdd (split " " v)) doc))
          else (doc, None)
      | None => (doc, None)
      end
  | A_removeClass =>
      match value with
      | Some v =>
          if truthy v then
            caught doc (try! _ ← validateTokens (split " " v);
                        Ok (updateElement i (classListRemove (split " " v)) doc))
          else (doc, None)
      | None => (doc, None)
      end
  | A_remove => (updateElement i removeNode doc, None)
  end.

(** The exception the DOM call of an action throws at an element. For the
    attribute and the class actions it depends on the arguments of the tool
    call only; the style action assigns at an HTML element only. *)
Definition actionFault (act : action) (value attribute : option string) (el : Element)
    : option exn :=
  match act with
  | A_style =>
      match value with
      | Some v =>
          if isHTMLElement (self el) && truthy v
             && existsb (λ pv, readOnlyStyle pv.1) (parseStyles v)
          then Some TypeError else None
      | None => None
      end
  | A_attribute =>
      match attribute, value with
      | Some a, Some _ =>
          if truthy a && negb (validAttributeName a) then Some InvalidCharacterError else None
      | _, _ => None
      end
  | A_addClass | A_removeClass =>
      match value with
      | Some v =>
          if truthy v then
            match validateTokens (split " " v) with
            | Throw e => Some e
            | Ok _ => None
            end
          else None
      | None => None
      end
  | _ => None
  end.

Definition modifyError (e : exn) : modifyOutput :=
  mkModifyOutput false ("Error: " +:+ exnMessage e) 0 None.

(** [modifyElement]'s [execute]: the result and the page it leaves. *)
Definition modifyElement (selector : string) (act : action)
    (value attribute : option string) (doc : document) : modifyOutput * document :=
  match querySelectorAll selector doc with
  | Throw e => (modifyError e, doc)
  | Ok elements =>
      if length elements =? 0 then
        (mkModifyOutput false ("No elements found with selector: " +:+ selector) 0 None,
         doc)
      else
        match forEachT (applyAction act value attribute) elements doc with
        | (doc', None) =>
            (mkModifyOutput true
               ("Successfully modified " +:+ pretty (length elements)
                +:+ " element(s) with selector " +:+ dquote +:+ selector +:+ dquote)
               (length elements) (Some act),
             doc')
        | (doc', Some e) => (modifyError e, doc')
        end
  end.

Definition highlightError (e : exn) : highlightOutput :=
  mkHighlightOutput false ("Error: " +:+ exnMessage e) 0 None None.

(** [highlightElements]'s [execute]: the result, the page it leaves and
    the callbacks it registers. *)
Definition highlightElements (selector : string) (eff : effect) (color : string)
    (duration : Z) (doc : document) : highlightOutput * document * list timer :=
  match querySelectorAll selector doc with
  | Throw e => (highlightError e, doc, [])
  | Ok elements =>
      if length elements =? 0 then
        (mkHighlightOutput false ("No elements found with selector: " +:+ selector)
           0 None None, doc, [])
      else
        match installAnimations doc with
        | Throw e => (highlightError e, doc, [])
        | Ok doc1 =>
            let st := foldl (λ st el, highlightOne eff color duration el st)
                            (doc1, []) elements in
            (mkHighlightOutput true
               ("Highlighted " +:+ pretty (length elements) +:+ " element(s) with "
                +:+ effectName eff +:+ " effect")
               (length elements) (Some eff) (Some duration),
             st.1, st.2)
        end
  end.

(** The tool as the model calls it: the schema's defaults filled in. *)
Definition highlightElementsTool (selector : string) (eff : effect)
    (color : option string) (duration : option Z) (doc : document) :=
  highlightElements selector eff (default "#ff0000" color) (default 2000%Z duration) doc.

End WithBrowser.

End Tools.

(** ** The streaming turn of the chat component *)

Module Chat.
Import JS.

Inductive Role := User | Assistant | System | ToolRole.

(** A JSON payload, kept as its text. *)
Definition json := string.

Record ToolInvocation := mkInvocation {
  toolCallId : string;
  toolName : string;
  args : json;
  result : option json;
}.

(** [toolInvocations] holds references to [ToolInvocation] objects: the
    array the component stores is a copy of the turn's array and shares
    its objects. *)
Record Message := mkMessage {
  id : string;
  role : Role;
  content : string;
  toolInvocations : option (list nat);
  timestamp : Z;
}.

(** The local variables of one activation of [handleSubmit]. *)
Record turn := mkTurn {
  assistantId : string;
  fullContent : string;
  invocations : list nat;
  currentToolCall : option nat;
}.

(** The component's state, the [ToolInvocation] objects allocated so far
    and the activations of [handleSubmit] that have not returned. *)
Record config := mkConfig {
  messages : list Message;
  input : string;
  isLoading : bool;
  heap : list ToolInvocation;
  active : list turn;
}.

Inductive part :=
| TextDelta (text : string)
| ToolCallPart (callId name : string) (input : json)
| ToolResultPart (callId : string) (output : json)
| ErrorPart (error : json)
| OtherPart.

Inductive event :=
| Submit (tUser tAssistant : Z)
| SetInput (text : string)
| Stream (k : nat) (p : part)
| StreamEnd (k : nat)
| StreamFault (k : nat) (tError : Z).

Definition welcome (welcomeMessage : string) (t : Z) : Message :=
  mkMessage "1" Assistant welcomeMessage None t.

Definition initial (welcomeMessage : string) (t : Z) : config :=
  mkConfig [welcome welcomeMessage t] "" false [] [].

Definition userMessage (text : string) (t : Z) : Message :=
  mkMessage (pretty t) User (trim text) None t.

Definition assistantMessage (t : Z) : Message :=
  mkMessage (pretty (t + 1)%Z) Assistant "" None t.

Definition errorMessage (t : Z) : Message :=
  mkMessage (pretty t) System "Sorry, something went wrong. Please try again." None t.

(** [prev.map(m => m.id === assistantMessage.id ? {...m, content} : m)] *)
Definition setContent (aid text : string) (ms : list Message) : list Message :=
  map (λ m, if String.eqb (id m) aid
            then mkMessage (id m) (role m) text (toolInvocations m) (timestamp m)
            else m) ms.

(** [prev.map(m => m.id === assistantMessage.id ? {...m, toolInvocations} : m)] *)
Definition setInvocations (aid : string) (refs : list nat) (ms : list Message) : list Message :=
  map (λ m, if String.eqb (id m) aid
            then mkMessage (id m) (role m) (content m) (Some refs) (timestamp m)
            else m) ms.

Definition withResult (inv : ToolInvocation) (output : json) : ToolInvocation :=
  mkInvocation (toolCallId inv) (toolName inv) (args inv) (Some output).

(** Lines 99-122: the guard and the start of a turn. [tUser] and
    [tAssistant] are the clock readings at which the two messages are
    built. *)
Definition handleSubmit (tUser tAssistant : Z) (c : config) : config :=
  if negb (truthy (trim (input c))) || isLoading c then c
  else
    mkConfig (messages c ++ [userMessage (input c) tUser; assistantMessage tAssistant])
             "" true (heap c)
             (active c ++ [mkTurn (pretty (tAssistant + 1)%Z) "" [] None]).

(** Lines 177-226: one iteration of the loop over [result.fullStream],
    on the component state, the heap and the activation's variables. *)
Definition onPart (p : part) (ms : list Message) (h : list ToolInvocation) (t : turn)
    : list Message * list ToolInvocation * turn :=
  match p with
  | TextDelta text =>
      if truthy text then
        let full := fullContent t +:+ text in
        (setContent (assistantId t) full ms, h,
         mkTurn (assistantId t) full (invocations t) (currentToolCall t))
      else (ms, h, t)
  | ToolCallPart callId name input =>
      let r := length h in
      (ms, h ++ [mkInvocation callId name input None],
       mkTurn (assistantId t) (fullContent t) (invocations t ++ [r]) (Some r))
  | ToolResultPart callId output =>
      match currentToolCall t with
      | Some r =>
          match h !! r with
          | Some inv =>
              if String.eqb (toolCallId inv) callId then
                (setInvocations (assistantId t) (invocations t) ms,
                 <[r := withResult inv output]> h, t)
              else (ms, h, t)
          | None => (ms, h, t)
          end
      | None => (ms, h, t)
      end
  | ErrorPart _ => (ms, h, t)
  | OtherPart => (ms, h, t)
  end.

Definition step (c : config) (ev : event) : config :=
  match ev with
  | Submit tu ta => handleSubmit tu ta c
  | SetInput text => mkConfig (messages c) text (isLoading c) (heap c) (active c)
  | Stream k p =>
      match active c !! k with
      | Some t =>
          let '(ms, h, t') := onPart p (messages c) (heap c) t in
          mkConfig ms (input c) (isLoading c) h (<[k := t']> (active c))
      | None => c
      end
  | StreamEnd k =>
      match active c !! k with
      | Some _ => mkConfig (messages c) (input c) false (heap c) (delete k (active c))
      | None => c
      end
  | StreamFault k te =>
      match active c !! k with
      | Some _ =>
          mkConfig (messages c ++ [errorMessage te]) (input c) false (heap c)
                   (delete k (active c))
      | None => c
      end
  end.

Definition run (c : config) (evs : list event) : config := foldl step c evs.

(** The text a part adds to the assistant message. *)
Definition textOf (p : part) : string :=
  match p with
  | TextDelta text => text
  | _ => ""
  end.

Definition streamedText (parts : list part) : string :=
  foldl (λ acc p, acc +:+ textOf p) "" parts.

(** An invocation of the turn that has no result yet. *)
Definition openInvocation (h : list ToolInvocation) (t : turn) (r : nat) : Prop :=
  r ∈ invocations t ∧ ∃ inv, h !! r = Some inv ∧ result inv = None.

(** The configurations between two turns. *)
Definition settled (c : config) : Prop := isLoading c = false ∧ active c = [].

(** Either one activation is in flight and the component is loading, or
    none is and it is not. *)
Definition oneTurn (c : config) : Prop :=
  (isLoading c = true ∧ length (active c) = 1) ∨ settled c.

(** The invocations a message shows, read through the heap. *)
Definition shownInvocations (c : config) (m : Message) : list (option ToolInvocation) :=
  map (λ r, heap c !! r) (default [] (toolInvocations m)).

End Chat.

(** ** A small selector engine and example documents

    The engine below understands the universal selector, a type selector,
    [.class], [#id] and [[attr]]; it is used to evaluate the tools on
    concrete documents. *)

Module Browser.
Import JS Dom.

Definition isNameChar (c : ascii) : bool :=
  let n := nat_of_ascii c in
  ((48 <=? n) && (n <=? 57)) || ((65 <=? n) && (n <=? 90))
  || ((97 <=? n) && (n <=? 122)) || (n =? 45) || (n =? 95).

Fixpoint isName (s : string) : bool :=
  match s with
  | EmptyString => true
  | String c r => isNameChar c && isName r
  end.

Definition isIdent (s : string) : bool := truthy s && isName s.

Definition simpleSelector (sel : string) : thrown (Element → bool) :=
  match sel with
  | String "*" EmptyString => Ok (λ _, true)
  | String "#" i =>
      if isIdent i then Ok (λ el, String.eqb (id (self el)) i) else Throw SyntaxError
  | String "." c =>
      if isIdent c then Ok (λ el, bool_decide (c ∈ classList (self el)))
      else Throw SyntaxError
  | String "[" r =>
      match String.rev r with
      | String "]" a' =>
          let a := String.rev a' in
          if isIdent a then Ok (λ el, hasAttribute (self el) a) else Throw SyntaxError
      | _ => Throw SyntaxError
      end
  | _ =>
      if isIdent sel
      then Ok (λ el, String.eqb (toLowerCase (tagName (self el))) (toLowerCase sel))
      else Throw SyntaxError
  end.

Definition exnName (e : exn) : string :=
  match e with
  | SyntaxError => "SyntaxError"
  | InvalidCharacterError => "InvalidCharacterError"
  | TypeError => "TypeError"
  end.

Definition html (i : nat) (tag : string) (a : list (string * string)) (cs : list node) : node :=
  ElemNode (mkElem i HTMLElem tag (list_to_map a) ∅) cs.

(** [<ul><li>Apples</li><li>Bread</li></ul>] in a page *)
Definition groceries : document :=
  [html 0 "HTML" []
     [html 1 "HEAD" [] [];
      html 2 "BODY" []
        [html 3 "UL" []
           [html 4 "LI" [] [TextNode "Apples"];
            html 5 "LI" [] [TextNode "Bread"]]]]].

(** A page with three list items and the mounted widget, whose panel shows
    one button and (in a message) one list item. *)
Definition pageWithWidget : document :=
  [html 0 "HTML" []
     [html 1 "HEAD" [] [];
      html 2 "BODY" []
        [html 3 "UL" []
           [html 4 "LI" [] [TextNode "Apples"];
            html 5 "LI" [] [TextNode "Bread"];
            html 6 "LI" [] [TextNode "Cheese"]];
         html 7 "DIV" [("id", "chat-widget-root")]
           [html 8 "DIV" [("class", "chat-widget-container bottom-right light")]
              [html 9 "BUTTON" [("class", "chat-toggle")] [TextNode "Chat"];
               html 10 "LI" [] [TextNode "note"]]]]]].

(** The example engine's check of an attribute name: not empty, and free
    of white space and of the characters [/], [>], [=]. *)
Definition validName (a : string) : bool :=
  truthy a
  && negb (existsb (λ c, isAsciiWhitespace c
                         || Ascii.eqb c "/" || Ascii.eqb c ">" || Ascii.eqb c "=")
                   (list_ascii_of_string a)).

Definition isDigit (c : ascii) : bool :=
  let n := nat_of_ascii c in (48 <=? n) && (n <=? 57).

Fixpoint digitsValue (acc : N) (s : string) : N :=
  match s with
  | EmptyString => acc
  | String c r => digitsValue (10 * acc + N.of_nat (nat_of_ascii c - 48)) r
  end.

(** An array index: the decimal numeral, without a leading zero, of an
    integer below 2^32 - 1. *)
Definition isArrayIndex (s : string) : bool :=
  match s with
  | EmptyString => false
  | String c r =>
      forallb isDigit (list_ascii_of_string s)
      && (negb (Ascii.eqb c "0") || String.eqb r "")
      && (digitsValue 0 s <? 4294967295)%N
  end.

(** The members of a [CSSStyleDeclaration] that cannot be assigned. *)
Definition readOnlyMember (prop : string) : bool :=
  String.eqb prop "parentRule" || String.eqb prop "length" || isArrayIndex prop.

Definition styled (i : nat) (tag : string) (a : list (string * string))
    (st : list (string * string)) (cs : list node) : node :=
  ElemNode (mkElem i HTMLElem tag (list_to_map a) (list_to_map st)) cs.

(** A page whose title has an inline text colour. *)
Definition titlePage : document :=
  [html 0 "HTML" []
     [html 1 "HEAD" [] [];
      html 2 "BODY" []
        [styled 3 "H1" [("id", "title")] [("color", "blue")] [TextNode "Old"]]]].

(** The [k]-th element of a document, in document order. *)
Definition elementAt (doc : document) (k : nat) : Element :=
  nth k (allElements doc) (mkElement (mkElem 0 OtherElem "" ∅ ∅) [] []).

End Browser.

(** ** createElement (lines 261-342 of the tools) *)

Module Factory.
Import JS Dom Tools.

Inductive position := P_append | P_prepend | P_before | P_after.

Definition positionName (p : position) : string :=
  match p with
  | P_append => "append"
  | P_prepend => "prepend"
  | P_before => "before"
  | P_after => "after"
  end.

(** The [element] field of a successful result: the arguments as given. *)
Record createdElement := mkCreated {
  c_tagName : string;
  c_content : option string;
  c_attributes : option (list (string * string));
  c_styles : option (list (string * string));
}.

Record createOutput := mkCreateOutput {
  c_success : bool;
  c_message : string;
  c_element : option createdElement;
}.

Definition upperChar (c : ascii) : ascii :=
  let n := nat_of_ascii c in
  if (97 <=? n) && (n <=? 122) then ascii_of_nat (n - 32) else c.

Fixpoint toUpperCase (s : string) : string :=
  match s with
  | EmptyString => EmptyString
  | String c r => String (upperChar c) (toUpperCase r)
  end.

(** [parent.prepend(n)] *)
Definition prependChild (n : node) (e : elem) (cs : list node) : list node :=
  [ElemNode e (n :: cs)].

(** [grand.insertBefore(new, parent)] and
    [grand.insertBefore(new, parent.nextSibling)], where [grand] is the
    parent element of the element object [i]: the new node is put next to
    that object among the child nodes of an element. *)
Fixpoint insertBeside (i : nat) (after : bool) (new : node) (n : node) : node :=
  match n with
  | TextNode _ => n
  | ElemNode e cs =>
      ElemNode e
        (flat_map (λ c, match c with
                        | ElemNode e' _ =>
                            if decide (nid e' = i)
                            then (if after then [c; new] else [new; c])
                            else [insertBeside i after new c]
                        | TextNode _ => [c]
                        end) cs)
  end.

(** The element [document.createElement(tagName)] gives in an HTML
    document after lines 289-303: content, then attributes, then styles. *)
Definition newElement (i : nat) (tagName : string) (content : option string)
    (attributes styles : option (list (string * string))) : node :=
  let e0 := mkElem i HTMLElem (toUpperCase tagName) ∅ ∅ in
  let e1 := foldl (λ e kv, withAttrs e (<[storedName kv.1 e := kv.2]> (attrs e)))
                  e0 (default [] attributes) in
  let e2 := foldl (λ e pv, withStyle e (setProperty pv.1 pv.2 (style e)))
                  e1 (default [] styles) in
  ElemNode e2 (match content with
               | Some c => if truthy c then [TextNode c] else []
               | None => []
               end).

Section WithBrowser.
Variable selectorMatches : string → thrown (Element → bool).
Variable exnMessage : exn → string.
Variable validAttributeName : string → bool.
(** The DOM's check of an element name in [createElement]. *)
Variable validTagName : string → bool.
(** The members of [element.style] that cannot be assigned. *)
Variable readOnlyStyle : string → bool.

(** [document.querySelector(sel)]: the first match in document order *)
Definition querySelector (sel : string) (doc : document) : thrown (option Element) :=
  try! l ← querySelectorAll selectorMatches sel doc; Ok (head l).

(** The exception of lines 287-303: an invalid element name, or the first
    attribute name that [setAttribute] rejects, or the first style that
    cannot be assigned. The element is not in the page yet: what was done
    to it before the exception is lost with it. *)
Definition buildFault (tagName : string) (attributes styles : option (list (string * string)))
    : option exn :=
  if negb (validTagName tagName) then Some InvalidCharacterError
  else if forallb (λ kv, validAttributeName kv.1) (default [] attributes) then
    if existsb (λ pv, readOnlyStyle pv.1) (default [] styles) then Some TypeError
    else None
  else Some InvalidCharacterError.

(** Lines 305-318. *)
Definition insertAt (pos : position) (parent : Element) (new : node) (doc : document)
    : document :=
  match pos with
  | P_append => updateElement (nid (self parent)) (appendChild new) doc
  | P_prepend => updateElement (nid (self parent)) (prependChild new) doc
  | P_before =>
      match parentElement parent with
      | Some _ => map (insertBeside (nid (self parent)) false new) doc
      | None => doc
      end
  | P_after =>
      match parentElement parent with
      | Some _ => map (insertBeside (nid (self parent)) true new) doc
      | None => doc
      end
  end.

Definition createError (e : exn) : createOutput :=
  mkCreateOutput false ("Error: " +:+ exnMessage e) None.

(** [createElement]'s [execute]: the result and the page it leaves. *)
Definition createElement (tagName : string) (content : option string)
    (attributes styles : option (list (string * string)))
    (parentSelector : string) (pos : position) (doc : document) : createOutput * document :=
  match querySelector parentSelector doc with
  | Throw e => (createError e, doc)
  | Ok None =>
      (mkCreateOutput false ("Parent element not found: " +:+ parentSelector) None, doc)
  | Ok (Some parent) =>
      match buildFault tagName attributes styles with
      | Some e => (createError e, doc)
      | None =>
          let new := newElement (freshId doc) tagName content attributes styles in
          (mkCreateOutput true
             ("Created " +:+ tagName +:+ " element and inserted it "
              +:+ positionName pos +:+ " " +:+ parentSelector)
             (Some (mkCreated tagName content attributes styles)),
           insertAt pos parent new doc)
      end
  end.

(** The tool as the model calls it: [position] defaults to [append]. *)
Definition createElementTool (tagName : string) (content : option string)
    (attributes styles : option (list (string * string)))
    (parentSelector : string) (pos : option position) (doc : document) :=
  createElement tagName content attributes styles parentSelector (default P_append pos) doc.

End WithBrowser.

End Factory.

(** ** Further example pages *)

Module Pages.
Import JS Dom Browser.

(** A page with a link, a form and a long paragraph. *)
Definition formPage : document :=
  [html 0 "HTML" []
     [html 1 "HEAD" [] [];
      html 2 "BODY" []
        [html 3 "A" [("href", "/docs"); ("title", "Documentation"); ("class", "nav link")]
           [TextNode "Docs"];
         html 4 "FORM" [("id", "signup")]
           [html 5 "INPUT" [("type", "email"); ("name", "email");
                            ("placeholder", "you@example.org"); ("class", "field")] [];
            html 6 "BUTTON" [("type", "submit"); ("class", "field primary")]
              [TextNode "Join"]];
         html 7 "P" [("class", "nav")]
           [TextNode "Lorem ipsum dolor sit amet, consectetur adipiscing elit, sed do eiusmod tempor incididunt ut labore et dolore magna aliqua."]]]].

(** [<div id="root"></div>] in a page *)
Definition rootPage : document :=
  [html 0 "HTML" []
     [html 1 "HEAD" [] [];
      html 2 "BODY" [] [html 3 "DIV" [("id", "root")] []]]].

End Pages.

(** ** The request of a turn *)

Module ChatRequest.
Import JS Chat.

(** A string of ASCII characters. On such a string the model of [trim],
    which strips the six ASCII white space characters, is
    [String.prototype.trim]. *)
Definition isAscii (s : string) : bool :=
  forallb (λ c, nat_of_ascii c <? 128) (list_ascii_of_string s).

(** A string of ASCII white space only (the empty one included). *)
Fixpoint allSpace (s : string) : bool :=
  match s with
  | EmptyString => true
  | String c r => Ascii.is_space c && allSpace r
  end.

(** Lines 163-166: the messages sent to the model,
    [messages.concat(userMessage).map(m => ({role: m.role === 'tool' ?
    'assistant' : m.role, content: m.content}))]. *)
Definition wireRole (r : Role) : Role :=
  match r with
  | ToolRole => Assistant
  | _ => r
  end.

Definition requestMessages (c : config) (tUser : Z) : list (Role * string) :=
  map (λ m, (wireRole (role m), content m)) (messages c ++ [userMessage (input c) tUser]).

End ChatRequest.

(** ** The page summary given to the model *)

Module Context.
Import JS Dom Tools.

Definition newline : string := String (ascii_of_nat 10) EmptyString.

(** [document.querySelectorAll('[id]')] and [document.querySelectorAll('[class]')]:
    the elements that have the attribute, in document order. *)
Definition withAttribute (a : string) (doc : document) : list Element :=
  List.filter (λ el, hasAttribute (self el) a) (allElements doc).

(** Line 17: the elements the summary passes over. *)
Definition skipped (el : Element) : bool :=
  includes (id (self el)) "chat-widget" || closestWidget el.

(** The class map of lines 42-50, a [Map] in insertion order:
    [classMap.get(k) || 0] and [classMap.set(k, v)], which leaves a key
    already present in its place. *)
Definition getCount (k : string) (m : list (string * nat)) : nat :=
  match List.find (λ p, String.eqb p.1 k) m with
  | Some p => p.2
  | None => 0
  end.

Fixpoint mapSet (k : string) (v : nat) (m : list (string * nat)) : list (string * nat) :=
  match m with
  | [] => [(k, v)]
  | p :: r => if String.eqb p.1 k then (p.1, v) :: r else p :: mapSet k v r
  end.

(** Line 46: the names the class map counts. *)
Definition counted (className : string) : bool :=
  truthy className && negb (startsWith className "chat-widget").

Definition countClass (m : list (string * nat)) (className : string) : list (string * nat) :=
  if counted className then mapSet className (getCount className m + 1) m else m.

(** A class map in good order: no key twice, every count positive. *)
Definition wellFormed (m : list (string * nat)) : Prop :=
  NoDup (map fst m) ∧ ∀ p, In p m → 1 ≤ p.2.

Definition countClasses (doc : document) : list (string * nat) :=
  foldl (λ m el, foldl countClass m (classList (self el))) [] (withAttribute "class" doc).

(** [entries.sort((a, b) => b[1] - a[1])]: the stable sort by falling
    count, an entry going before the entries seen later with the same
    count. *)
Fixpoint insertByCount (x : string * nat) (l : list (string * nat)) : list (string * nat) :=
  match l with
  | [] => [x]
  | y :: r => if x.2 <? y.2 then y :: insertByCount x r else x :: l
  end.

Definition sortByCount (l : list (string * nat)) : list (string * nat) :=
  foldr insertByCount [] l.

Definition topEntries (doc : document) : list (string * nat) :=
  slice0 10 (sortByCount (countClasses doc)).

Definition classLine (p : string * nat) : string :=
  "- ." +:+ p.1 +:+ " (" +:+ pretty p.2 +:+ " elements)".

Definition topClasses (doc : document) : list string := map classLine (topEntries doc).

(** [document.querySelectorAll('li:not(.chat-widget-container li)')]: the
    [li] elements with no widget container above them. *)
Definition listItems (doc : document) : list Element :=
  List.filter (λ el, String.eqb (lowerTag (self el)) "li"
                     && negb (existsb isWidgetContainer (map fst (ancestors el))))
              (allElements doc).

Section WithControls.

(** [el.value] of an [input] or a [button]: state of the control the
    document tree does not hold. *)
Variable controlValue : elem → string.

(** Lines 19-35 *)
Definition contentOf (el : Element) : string :=
  if isHTMLElement (self el) then
    let d := directText el in
    if truthy d then substring0 60 d
    else if String.eqb (tagName (self el)) "INPUT" || String.eqb (tagName (self el)) "BUTTON"
    then
      if truthy (controlValue (self el)) then controlValue (self el)
      else if truthy (trim (elTextContent el)) then trim (elTextContent el) else ""
    else
      if truthy (substring0 60 (trim (elTextContent el)))
      then substring0 60 (trim (elTextContent el)) else ""
  else "".

Definition idLine (el : Element) : string :=
  "- <" +:+ lowerTag (self el) +:+ " id=" +:+ dquote +:+ id (self el) +:+ dquote
  +:+ ">: " +:+ dquote +:+ contentOf el +:+ dquote.

Definition listed (doc : document) : list Element :=
  List.filter (λ el, negb (skipped el)) (withAttribute "id" doc).

Definition contextLines (doc : document) : list string :=
  map idLine (listed doc)
  ++ (if 0 <? length (topClasses doc)
      then (newline +:+ "Common classes:") :: topClasses doc else [])
  ++ (if 0 <? length (listItems doc)
      then [newline +:+ "List items found: " +:+ pretty (length (listItems doc)) +:+ " items"]
      else []).

Definition getDOMContext (doc : document) : string := join newline (contextLines doc).

End WithControls.

End Context.

(** ** The initialisation API, [ChatWidgetSDK] *)

Module Sdk.
Import JS Dom.

(** The fields [root] and [container] of the singleton; both refer to the
    container element, by identity. *)
Record sdk := mkSdk {
  root : option nat;
  container : option nat;
}.

(** [const { containerId = 'chat-widget-root', ...props } = options] *)
Definition containerIdOf (containerId : option string) : string :=
  default "chat-widget-root" containerId.

(** [document.body]: the first [body] or [frameset] child of the [html]
    document element *)
Definition documentBody (doc : document) : option elem :=
  match documentElement doc with
  | Some r =>
      if String.eqb (toLowerCase (tagName (self r))) "html"
      then head (List.filter (λ e, String.eqb (toLowerCase (tagName e)) "body"
                                   || String.eqb (toLowerCase (tagName e)) "frameset")
                             (children (kids r)))
      else None
  | None => None
  end.

(** [document.createElement('div')] with [container.id = containerId] *)
Definition newContainer (i : nat) (containerId : string) : node :=
  ElemNode (mkElem i HTMLElem "DIV" {[ "id" := containerId ]} ∅) [].

(** [this.container && this.container.parentNode] for a container of the
    document: its parent is an element or the document itself. *)
Definition inDocument (i : nat) (doc : document) : bool :=
  existsb (λ el, Nat.eqb (nid (self el)) i) (allElements doc).

Section WithReact.

(** React is not part of the repository. A root changes the child nodes of
    its container and nothing else: [drawn] gives them after
    [root.render], [cleared] after [root.unmount], from those before. *)
Variables drawn cleared : list node → list node.

Definition render (e : elem) (cs : list node) : list node := [ElemNode e (drawn cs)].
Definition unmount (e : elem) (cs : list node) : list node := [ElemNode e (cleared cs)].

(** [init(options)]: the page, the fields and the exception raised, if
    any. Without a body, [appendChild] is called on [null] after the new
    element has been assigned to [this.container]. *)
Definition init (containerId : option string) (doc : document) (s : sdk)
    : document * sdk * option exn :=
  match getElementById (containerIdOf containerId) doc with
  | Some el =>
      (updateElement (nid (self el)) render doc,
       mkSdk (Some (nid (self el))) (Some (nid (self el))), None)
  | None =>
      let i := freshId doc in
      match documentBody doc with
      | Some b =>
          (updateElement i render
             (updateElement (nid b) (appendChild (newContainer i (containerIdOf containerId)))
                doc),
           mkSdk (Some i) (Some i), None)
      | None => (doc, mkSdk (root s) (Some i), Some TypeError)
      end
  end.

(** [destroy()]. A container that is no longer in the document has a
    parent node or not, [detachedParent]; the page is not concerned. *)
Definition destroy (detachedParent : bool) (doc : document) (s : sdk) : document * sdk :=
  let doc1 := match root s with
              | Some r => updateElement r unmount doc
              | None => doc
              end in
  match container s with
  | Some i =>
      if inDocument i doc1 then (updateElement i removeNode doc1, mkSdk None None)
      else if detachedParent then (doc1, mkSdk None None)
      else (doc1, mkSdk None (Some i))
  | None => (doc1, mkSdk None None)
  end.

End WithReact.

End Sdk.

(** ** Predicates used to state the properties *)

Module Predicates.
Import JS Dom Tools.

(** The elements whose identity is in [ids] hold the text [v] and nothing
    else. *)
Definition textSet (v : string) (ids : list nat) (doc : document) : Prop :=
  ∀ el', In el' (allElements doc) → In (nid (self el')) ids →
         kids el' = (if truthy v then [TextNode v] else []).

(** A class token: not empty and free of white space. *)
Fixpoint noWhitespace (s : string) : bool :=
  match s with
  | EmptyString => true
  | String c r => negb (isAsciiWhitespace c) && noWhitespace r
  end.

Definition validToken (t : string) : Prop := t ≠ "" ∧ noWhitespace t = true.

Section Beside.
Variable i : nat.
Variable after : bool.
Variable new : node.

(** The new node stands next to a node of identity [i]. *)
Definition adjacent (cs : list node) : Prop :=
  ∃ l1 l2 e' k, nid e' = i
    ∧ cs = l1 ++ (if after then [ElemNode e' k; new] else [new; ElemNode e' k]) ++ l2.

End Beside.

(** A tool invocation as a later state of the same invocation. *)
Definition extends (inv inv' : Chat.ToolInvocation) : Prop :=
  Chat.toolCallId inv' = Chat.toolCallId inv ∧ Chat.toolName inv' = Chat.toolName inv
  ∧ Chat.args inv' = Chat.args inv
  ∧ (is_Some (Chat.result inv) → is_Some (Chat.result inv')).

End Predicates.

(** * Properties *)

(** ** The document tree *)

Module DomFacts.
Import JS Dom.

Section NodeInduction.
Variable P : node → Prop.
Hypothesis Htext : ∀ s, P (TextNode s).
Hypothesis Helem : ∀ e cs, Forall P cs → P (ElemNode e cs).

Fixpoint node_ind' (n : node) : P n :=
  match n with
  | TextNode s => Htext s
  | ElemNode e cs =>
      Helem e cs
        ((fix go (l : list node) : Forall P l :=
            match l with
            | [] => @List.Forall_nil node P
            | c :: r => @List.Forall_cons node P c r (node_ind' c) (go r)
            end) cs)
  end.
End NodeInduction.

(** The elements below a node carry that node in their ancestor chain. *)
Lemma elementsOf_chain n :
  ∀ anc el, In el (elementsOf anc n) →
    ∃ pre, ancestors el = pre ++ anc ∧
           ∀ e cs, n = ElemNode e cs → In e (self el :: map fst pre).
Proof.
  induction n as [s | e cs IH] using node_ind'; intros anc el Hin; simpl in Hin.
  - destruct Hin.
  - destruct Hin as [<- | Hin].
    + exists []. split; [reflexivity |].
      intros e' cs' Heq. inversion Heq; subst. now left.
    + apply in_flat_map in Hin as (c & Hc & Hel).
      rewrite Forall_forall in IH.
      destruct (IH c (proj2 (list_elem_of_In _ _) Hc) _ _ Hel) as (pre & Hanc & _).
      exists (pre ++ [(e, cs)]). split.
      * rewrite Hanc, <- app_assoc. reflexivity.
      * intros e' cs' Heq. inversion Heq; subst. right.
        rewrite map_app. apply in_or_app. right. now left.
Qed.

Lemma closestWidget_unfold el :
  closestWidget el
  = isWidgetContainer (self el) || existsb isWidgetContainer (map fst (ancestors el)).
Proof. reflexivity. Qed.

(** An element of the widget's subtree has the widget container as itself
    or as an ancestor. *)
Lemma widgetElementsOf_closest n :
  ∀ anc el, In el (widgetElementsOf anc n) → closestWidget el = true.
Proof.
  induction n as [s | e cs IH] using node_ind'; intros anc el Hin; simpl in Hin.
  - destruct Hin.
  - destruct (isWidgetContainer e) eqn:Hw.
    + destruct (elementsOf_chain (ElemNode e cs) anc el Hin) as (pre & Hanc & Hself).
      specialize (Hself e cs eq_refl).
      unfold closestWidget. apply existsb_exists. exists e. split; [| exact Hw].
      destruct Hself as [Hs | Hs]; [now left | right].
      rewrite Hanc, map_app. apply in_or_app. now left.
    + apply in_flat_map in Hin as (c & Hc & Hel).
      rewrite Forall_forall in IH.
      exact (IH c (proj2 (list_elem_of_In _ _) Hc) _ _ Hel).
Qed.

Lemma widgetElements_closest doc el :
  In el (widgetElements doc) → closestWidget el = true.
Proof.
  unfold widgetElements. intros Hin.
  apply in_flat_map in Hin as (n & _ & Hel).
  exact (widgetElementsOf_closest n [] el Hel).
Qed.

(** Conversely, an element of the document whose chain holds a widget
    container lies in the widget's subtree. *)
Lemma closest_widgetElementsOf n :
  ∀ anc el, In el (elementsOf anc n) →
    existsb isWidgetContainer (map fst anc) = false →
    closestWidget el = true → In el (widgetElementsOf anc n).
Proof.
  induction n as [s | e cs IH] using node_ind'; intros anc el Hin Hanc Hcl.
  - destruct Hin.
  - simpl. destruct (isWidgetContainer e) eqn:Hw; [exact Hin |].
    simpl in Hin. destruct Hin as [<- | Hin].
    + rewrite closestWidget_unfold in Hcl. simpl in Hcl.
      rewrite Hw, Hanc in Hcl. discriminate.
    + apply in_flat_map in Hin as (c & Hc & Hel).
      apply in_flat_map. exists c. split; [exact Hc |].
      rewrite Forall_forall in IH.
      apply (IH c (proj2 (list_elem_of_In _ _) Hc)); [exact Hel | | exact Hcl].
      simpl. rewrite Hw, Hanc. reflexivity.
Qed.

Lemma closest_widgetElements doc el :
  In el (allElements doc) → closestWidget el = true → In el (widgetElements doc).
Proof.
  unfold allElements, widgetElements. intros Hin Hcl.
  apply in_flat_map in Hin as (n & Hn & Hel).
  apply in_flat_map. exists n. split; [exact Hn |].
  now apply closest_widgetElementsOf.
Qed.

Lemma truthy_false s : truthy s = false → s = "".
Proof.
  unfold truthy. intros H. apply negb_false_iff in H. now apply String.eqb_eq in H.
Qed.

Lemma slice0_length {A} (limit : Z) (l : list A) :
  (0 ≤ limit)%Z → (Z.of_nat (length (slice0 limit l)) ≤ limit)%Z.
Proof.
  intros Hl. unfold slice0.
  destruct (limit <? 0)%Z eqn:Hneg; [apply Z.ltb_lt in Hneg; lia |].
  rewrite length_take. lia.
Qed.

Lemma slice0_In {A} (limit : Z) (l : list A) x : In x (slice0 limit l) → In x l.
Proof.
  unfold slice0. intros Hin.
  apply list_elem_of_In. apply list_elem_of_In in Hin.
  eapply subseteq_take; eauto.
Qed.

Lemma slice0_all {A} (limit : Z) (l : list A) :
  (Z.of_nat (length l) ≤ limit)%Z → slice0 limit l = l.
Proof.
  intros Hl. unfold slice0.
  destruct (limit <? 0)%Z eqn:Hneg; [apply Z.ltb_lt in Hneg; lia |].
  apply take_ge. lia.
Qed.

End DomFacts.

(** ** searchElements *)

Module SearchSpec.
Import JS Dom Tools Browser DomFacts.

(** *** The selector of a result (lines 121-137) *)

Lemma buildResult_id el :
  truthy (id (self el)) = true →
  r_selector (buildResult el) = Some ("#" +:+ id (self el)).
Proof. intros H. unfold buildResult. rewrite H. reflexivity. Qed.

Lemma buildResult_class el c rest :
  truthy (id (self el)) = false → classNameTruthy (self el) = true →
  nonWidgetClasses (self el) = c :: rest →
  r_selector (buildResult el) = Some ("." +:+ c).
Proof. intros H1 H2 H3. unfold buildResult. rewrite H1, H2, H3. reflexivity. Qed.

Lemma buildResult_positional el :
  truthy (id (self el)) = false → classNameTruthy (self el) = true →
  nonWidgetClasses (self el) = [] →
  r_selector (buildResult el) = positionalSelector el.
Proof. intros H1 H2 H3. unfold buildResult. rewrite H1, H2, H3. reflexivity. Qed.

(** The positional branch sits inside the branch of a non-empty class
    name: without an id and without a class name no selector is assigned. *)
Lemma buildResult_bare el :
  truthy (id (self el)) = false → classNameTruthy (self el) = false →
  r_selector (buildResult el) = None.
Proof. intros H1 H2. unfold buildResult. rewrite H1, H2. reflexivity. Qed.

(** C1. The claim gives a list item without id and class the positional
    selector [ul > li:nth-child(k)]. On the page
    [<ul><li>Apples</li><li>Bread</li></ul>] the search by tag [li]
    returns the two items with their texts and with no selector at all. *)
Theorem search_bare_li_has_no_selector :
  map (λ r, (r_tagName r, r_selector r, r_text r))
      (s_results (searchElementsTool simpleSelector exnName ST_tag "li" None None groceries))
  = [("li", None, "Apples"); ("li", None, "Bread")].
Proof. vm_compute. reflexivity. Qed.

(** The positional selector is produced for an element whose class
    attribute holds only widget classes. *)
Example positional_selector_reached :
  map r_selector
      (s_results (searchElementsTool simpleSelector exnName ST_attribute "data-x" None None
         [html 0 "HTML" []
            [html 1 "BODY" []
               [html 2 "P" [] [];
                html 3 "SPAN" [("class", "chat-widget-x"); ("data-x", "1")] []]]]))
  = [Some "body > span:nth-child(2)"].
Proof. vm_compute. reflexivity. Qed.

(** *** Bound and widget exclusion (lines 91-93) *)

Section Search.
Variable selectorMatches : string → thrown (Element → bool).
Variable exnMessage : exn → string.

Lemma querySelectorAll_In sel doc els el :
  querySelectorAll selectorMatches sel doc = Ok els → In el els → In el (allElements doc).
Proof.
  unfold querySelectorAll. destruct (selectorMatches sel) as [p | e]; simpl; [| discriminate].
  intros [= <-] Hin. apply filter_In in Hin. tauto.
Qed.

Lemma getElementById_In i doc el :
  getElementById i doc = Some el → In el (allElements doc).
Proof.
  unfold getElementById. destruct (truthy i); [| discriminate].
  destruct (List.filter _ (allElements doc)) as [| x l] eqn:Hf; simpl; [discriminate |].
  intros [= <-].
  assert (Hin : In x (List.filter (λ el, String.eqb (id (self el)) i) (allElements doc)))
    by (rewrite Hf; now left).
  apply filter_In in Hin. tauto.
Qed.

Lemma candidates_In st v tag doc els el :
  candidates selectorMatches st v tag doc = Ok els → In el els → In el (allElements doc).
Proof.
  unfold candidates. destruct st.
  - destruct (querySelectorAll _ _ doc) as [all | e] eqn:Hq; simpl; [| discriminate].
    intros [= <-] Hin. apply filter_In in Hin as [Hin _].
    eapply querySelectorAll_In; eauto.
  - destruct (querySelectorAll _ _ doc) as [all | e] eqn:Hq; simpl; [| discriminate].
    intros [= <-] Hin. apply filter_In in Hin as [Hin _].
    eapply querySelectorAll_In; eauto.
  - apply querySelectorAll_In.
  - apply querySelectorAll_In.
  - intros [= <-] Hin. destruct (getElementById v doc) as [x |] eqn:Hg; [| destruct Hin].
    destruct Hin as [<- | []]. eapply getElementById_In; eauto.
  - destruct (_ || _).
    + apply querySelectorAll_In.
    + destruct (querySelectorAll _ _ doc) as [all | e] eqn:Hq; simpl; [| discriminate].
      intros [= <-] Hin. apply filter_In in Hin as [Hin _].
      eapply querySelectorAll_In; eauto.
Qed.

Lemma searchNodes_sound st v tag limit doc els el :
  searchNodes selectorMatches st v tag limit doc = Ok els → In el els →
  In el (allElements doc) ∧ ¬ In el (widgetElements doc).
Proof.
  unfold searchNodes.
  destruct (candidates selectorMatches st v tag doc) as [cands | e] eqn:Hc; simpl;
    [| discriminate].
  intros [= <-] Hin. apply slice0_In in Hin. apply filter_In in Hin as [Hin Hcl].
  split.
  - eapply candidates_In; eauto.
  - intros Hw. apply widgetElements_closest in Hw. rewrite Hw in Hcl. discriminate.
Qed.

Lemma searchElements_length st v tag limit doc :
  (0 ≤ limit)%Z →
  (Z.of_nat (length (s_results (searchElements selectorMatches exnMessage st v tag limit doc)))
   ≤ limit)%Z.
Proof.
  intros Hl. unfold searchElements.
  destruct (searchNodes selectorMatches st v tag limit doc) as [els | e] eqn:Hs; simpl;
    [| lia].
  rewrite length_map. unfold searchNodes in Hs.
  destruct (candidates selectorMatches st v tag doc) as [cands | e]; simpl in Hs;
    [| discriminate].
  injection Hs as <-. now apply slice0_length.
Qed.

(** C7, amended. For a limit that is not negative the result list is no
    longer than the limit; for every limit, the results describe elements
    of the document none of which lies in the widget's subtree, and a
    search that throws returns no result. *)
Theorem search_bounded_outside_widget st v tag limit doc :
  ((0 ≤ limit)%Z →
   (Z.of_nat (length (s_results (searchElements selectorMatches exnMessage st v tag limit doc)))
    ≤ limit)%Z)
  ∧ match searchNodes selectorMatches st v tag limit doc with
    | Ok els =>
        s_results (searchElements selectorMatches exnMessage st v tag limit doc)
        = map buildResult els
        ∧ ∀ el, In el els → In el (allElements doc) ∧ ¬ In el (widgetElements doc)
    | Throw _ =>
        s_results (searchElements selectorMatches exnMessage st v tag limit doc) = []
    end.
Proof.
  split; [apply searchElements_length |].
  unfold searchElements.
  destruct (searchNodes selectorMatches st v tag limit doc) as [els | e] eqn:Hs; simpl.
  - split; [reflexivity |]. intros el Hin. eapply searchNodes_sound; eauto.
  - reflexivity.
Qed.

(** With the schema's default the bound is 10. *)
Lemma search_default_limit st v tag doc :
  length (s_results (searchElementsTool selectorMatches exnMessage st v tag None doc)) ≤ 10.
Proof.
  unfold searchElementsTool. simpl.
  pose proof (searchElements_length st v tag 10%Z doc) as H. lia.
Qed.

(** *** The text search and list items (lines 45-68) *)

Lemma textFilter_li v el :
  toLowerCase v = "li" → lowerTag (self el) = "li" → closestWidget el = false →
  textFilter v el = true.
Proof.
  intros Hv Hli Hcl. unfold textFilter. rewrite Hcl, Hli, Hv. reflexivity.
Qed.

(** C8. In a text search whose query is [li] (in any case), every list
    item the locator considers, one that its tag filter selects and that
    lies outside the widget's subtree, passes the filter, whatever its
    text; it is among the results when the limit does not cut the list. *)
Theorem text_li_matches_item_outside_widget v tag limit doc p el :
  toLowerCase v = "li" →
  selectorMatches (tagSelector tag) = Ok p →
  In el (allElements doc) → p el = true →
  lowerTag (self el) = "li" →
  ¬ In el (widgetElements doc) →
  ∃ matched,
    candidates selectorMatches ST_text v tag doc = Ok matched
    ∧ In el matched
    ∧ ((Z.of_nat (length matched) ≤ limit)%Z →
       ∃ els, searchNodes selectorMatches ST_text v tag limit doc = Ok els ∧ In el els).
Proof.
  intros Hv Hp Hin Hpel Hli Hw.
  assert (Hcl : closestWidget el = false).
  { destruct (closestWidget el) eqn:Hcl; [| reflexivity].
    exfalso. apply Hw. now apply closest_widgetElements. }
  assert (Hc : candidates selectorMatches ST_text v tag doc
               = Ok (List.filter (textFilter v) (List.filter p (allElements doc)))).
  { unfold candidates, querySelectorAll. rewrite Hp. reflexivity. }
  assert (Hm : In el (List.filter (textFilter v) (List.filter p (allElements doc)))).
  { apply filter_In. split; [apply filter_In; tauto | now apply textFilter_li]. }
  eexists. split; [exact Hc |]. split; [exact Hm |].
  intros Hlen. unfold searchNodes. rewrite Hc. simpl. eexists. split; [reflexivity |].
  rewrite slice0_all.
  - apply filter_In. split; [exact Hm | now rewrite Hcl].
  - etransitivity; [| exact Hlen]. apply inj_le. apply List.filter_length_le.
Qed.

End Search.

(** C7 as stated fails for a negative limit, which the schema
    ([z.number()]) admits: [slice(0, -1)] drops the last element only. *)
Lemma search_negative_limit_exceeds :
  ¬ (Z.of_nat (length (s_results
        (searchElements simpleSelector exnName ST_tag "li" None (-1)%Z pageWithWidget)))
     ≤ -1)%Z.
Proof. vm_compute. intros H. apply H. reflexivity. Qed.

Lemma search_bounded_outside_widget_witness :
  (0 ≤ 2)%Z
  ∧ (Z.of_nat (length (s_results
        (searchElements simpleSelector exnName ST_tag "li" None 2%Z pageWithWidget))) ≤ 2)%Z.
Proof.
  split; [lia |].
  apply (proj1 (search_bounded_outside_widget simpleSelector exnName ST_tag "li" None 2%Z
                  pageWithWidget)).
  lia.
Defined.

Lemma text_li_matches_item_outside_widget_witness :
  ∃ matched,
    candidates simpleSelector ST_text "li" None groceries = Ok matched
    ∧ In (elementAt groceries 4) matched
    ∧ ((Z.of_nat (length matched) ≤ 10)%Z →
       ∃ els, searchNodes simpleSelector ST_text "li" None 10%Z groceries = Ok els
              ∧ In (elementAt groceries 4) els).
Proof.
  apply (text_li_matches_item_outside_widget simpleSelector "li" None 10%Z groceries
           (λ _, true) (elementAt groceries 4)).
  - reflexivity.
  - reflexivity.
  - vm_compute. do 4 right. left. reflexivity.
  - reflexivity.
  - reflexivity.
  - vm_compute. intros [].
Defined.

End SearchSpec.

(** ** modifyElement *)

Module ModifySpec.
Import JS Dom Tools Browser DomFacts.

Lemma forEachT_total {A S} (body : A → S → S * option exn) l :
  (∀ a s, In a l → (body a s).2 = None) → ∀ s, (forEachT body l s).2 = None.
Proof.
  induction l as [| a r IH]; intros Hok s; simpl; [reflexivity |].
  pose proof (Hok a s ltac:(now left)) as Ha.
  destruct (body a s) as [s' [e |]]; simpl in Ha; [discriminate |].
  apply IH. intros x t Hx. apply Hok. now right.
Qed.

Lemma forEachT_skip {A S} (body : A → S → S * option exn) l :
  (∀ a s, In a l → body a s = (s, None)) → ∀ s, forEachT body l s = (s, None).
Proof.
  induction l as [| a r IH]; intros Hid s; simpl; [reflexivity |].
  rewrite Hid by now left. apply IH. intros x t Hx. apply Hid. now right.
Qed.

Lemma forEachT_fold {A S} (body : A → S → S * option exn) (f : S → A → S) l :
  (∀ a s, body a s = (f s a, None)) → ∀ s, forEachT body l s = (foldl f s l, None).
Proof.
  intros Hf. induction l as [| a r IH]; intros s; simpl; [reflexivity |].
  rewrite Hf. apply IH.
Qed.

(** The loop stops at the first iteration that throws. *)
Lemma forEachT_raise {A S} (body : A → S → S * option exn) (f : S → A → S)
    before a after s s' e :
  (∀ x t, In x before → body x t = (f t x, None)) →
  body a (foldl f s before) = (s', Some e) →
  forEachT body (before ++ a :: after) s = (s', Some e).
Proof.
  revert s. induction before as [| b r IH]; intros s Hb Ha; simpl in *.
  - now rewrite Ha.
  - rewrite Hb by now left. apply IH; [| exact Ha]. intros x t Hx. apply Hb. now right.
Qed.

Lemma first_split {A} (P : A → bool) (l : list A) :
  existsb P l = true →
  ∃ before a after, l = before ++ a :: after ∧ P a = true
                    ∧ ∀ x, In x before → P x = false.
Proof.
  induction l as [| x r IH]; [discriminate |]. simpl.
  destruct (P x) eqn:Hx.
  - intros _. exists [], x, r. split; [reflexivity |]. split; [exact Hx | intros y []].
  - simpl. intros Hr. destruct (IH Hr) as (b & a & af & -> & Ha & Hb).
    exists (x :: b), a, af. split; [reflexivity |]. split; [exact Ha |].
    intros y [<- | Hy]; auto.
Qed.

Section Modify.
Variable selectorMatches : string → thrown (Element → bool).
Variable exnMessage : exn → string.
Variable validAttributeName : string → bool.
Variable readOnlyStyle : string → bool.

Local Abbreviation assignStyle := (assignStyle readOnlyStyle).
Local Abbreviation applyAction := (applyAction validAttributeName readOnlyStyle).
Local Abbreviation actionFault := (actionFault validAttributeName readOnlyStyle).
Local Abbreviation modifyElement :=
  (modifyElement selectorMatches exnMessage validAttributeName readOnlyStyle).
Local Abbreviation querySelectorAll := (querySelectorAll selectorMatches).

(** The declarations of a style text are assigned in turn, up to the first
    that cannot be. *)
Lemma assignStyle_raise i decls doc :
  existsb (λ pv, readOnlyStyle pv.1) decls = true →
  ∃ applied pv rest,
    decls = applied ++ pv :: rest ∧ readOnlyStyle pv.1 = true
    ∧ (∀ q, In q applied → readOnlyStyle q.1 = false)
    ∧ forEachT (assignStyle i) decls doc
      = (foldl (λ d q, updateElement i (setStyle q.1 q.2) d) doc applied, Some TypeError).
Proof.
  intros Hex. destruct (first_split _ _ Hex) as (applied & pv & rest & -> & Hpv & Happ).
  exists applied, pv, rest. repeat split; auto.
  apply (forEachT_raise _ (λ d q, updateElement i (setStyle q.1 q.2) d)).
  - intros x t Hx. unfold Tools.assignStyle. now rewrite (Happ x Hx).
  - unfold Tools.assignStyle. now rewrite Hpv.
Qed.

Lemma assignStyle_total i decls doc :
  existsb (λ pv, readOnlyStyle pv.1) decls = false →
  (forEachT (assignStyle i) decls doc).2 = None.
Proof.
  intros Hex. apply forEachT_total. intros pv d Hin. unfold Tools.assignStyle.
  destruct (readOnlyStyle pv.1) eqn:Hr; [| reflexivity].
  assert (existsb (λ pv, readOnlyStyle pv.1) decls = true)
    by (apply existsb_exists; eauto).
  congruence.
Qed.

(** An action throws at an element exactly when it has a fault there. *)
Lemma applyAction_fault act value attribute e el doc :
  actionFault act value attribute el = Some e →
  (applyAction act value attribute el doc).2 = Some e
  ∧ (act ≠ A_style → (applyAction act value attribute el doc).1 = doc).
Proof.
  unfold Tools.actionFault, Tools.applyAction.
  destruct act; try discriminate.
  - destruct value as [v |]; [| discriminate].
    destruct (isHTMLElement (self el) && truthy v); simpl; [| discriminate].
    destruct (existsb _ (parseStyles v)) eqn:Hex; [| discriminate].
    intros [= <-]. split; [| congruence].
    destruct (assignStyle_raise (nid (self el)) _ doc Hex) as (ap & pv & rest & _ & _ & _ & ->).
    reflexivity.
  - destruct attribute as [a |], value as [v |]; try discriminate.
    destruct (truthy a); simpl; [| discriminate].
    destruct (validAttributeName a); simpl; [discriminate |]. intros [= <-]. auto.
  - destruct value as [v |]; [| discriminate].
    destruct (truthy v); [| discriminate].
    destruct (validateTokens (split " " v)); simpl; [discriminate |]. intros [= <-]. auto.
  - destruct value as [v |]; [| discriminate].
    destruct (truthy v); [| discriminate].
    destruct (validateTokens (split " " v)); simpl; [discriminate |]. intros [= <-]. auto.
Qed.

Lemma applyAction_no_fault act value attribute el doc :
  actionFault act value attribute el = None →
  (applyAction act value attribute el doc).2 = None.
Proof.
  unfold Tools.actionFault, Tools.applyAction.
  destruct act.
  - intros _. destruct (isHTMLElement (self el)); reflexivity.
  - destruct value as [v |]; [| reflexivity].
    destruct (isHTMLElement (self el) && truthy v); simpl; [| reflexivity].
    destruct (existsb _ (parseStyles v)) eqn:Hex; [discriminate |].
    intros _. now apply assignStyle_total.
  - destruct attribute as [a |], value as [v |]; try reflexivity.
    destruct (truthy a); simpl; [| reflexivity].
    destruct (validAttributeName a); simpl; [reflexivity | discriminate].
  - destruct value as [v |]; [| reflexivity].
    destruct (truthy v); [| reflexivity].
    destruct (validateTokens (split " " v)); simpl; [reflexivity | discriminate].
  - destruct value as [v |]; [| reflexivity].
    destruct (truthy v); [| reflexivity].
    destruct (validateTokens (split " " v)); simpl; [reflexivity | discriminate].
  - reflexivity.
Qed.

(** The fault of the attribute and class actions does not depend on the
    element. *)
Lemma actionFault_everywhere act value attribute el el' :
  act ≠ A_style →
  actionFault act value attribute el = actionFault act value attribute el'.
Proof. intros H. destruct act; try reflexivity. congruence. Qed.

(** The style action leaves the page as it is at an element that is not
    an HTML element. *)
Lemma applyAction_style_skip value attribute el doc :
  isHTMLElement (self el) = false →
  applyAction A_style value attribute el doc = (doc, None).
Proof.
  intros H. unfold Tools.applyAction. destruct value as [v |]; [| reflexivity].
  now rewrite H.
Qed.

(** The outcome of the loop over the matched elements. *)
Lemma modify_loop_ok act value attribute matched doc :
  (∀ el, In el matched → actionFault act value attribute el = None) →
  (forEachT (applyAction act value attribute) matched doc).2 = None.
Proof.
  intros H. apply forEachT_total. intros el d Hin. apply applyAction_no_fault. auto.
Qed.

Lemma modify_loop_fault act value attribute matched doc el e :
  In el matched → actionFault act value attribute el = Some e →
  (∃ e', (forEachT (applyAction act value attribute) matched doc).2 = Some e')
  ∧ (act ≠ A_style → (forEachT (applyAction act value attribute) matched doc).1 = doc)
  ∧ (act = A_style →
     ∃ before el0 after v applied pv rest,
       matched = before ++ el0 :: after
       ∧ (∀ x, In x before → isHTMLElement (self x) = false)
       ∧ isHTMLElement (self el0) = true
       ∧ value = Some v
       ∧ parseStyles v = applied ++ pv :: rest
       ∧ readOnlyStyle pv.1 = true
       ∧ (∀ q, In q applied → readOnlyStyle q.1 = false)
       ∧ (forEachT (applyAction act value attribute) matched doc).1
         = foldl (λ d q, updateElement (nid (self el0)) (setStyle q.1 q.2) d) doc applied).
Proof.
  intros Hin Hf.
  assert (Hdec : act = A_style ∨ act ≠ A_style)
    by (destruct act; (now left) || (right; discriminate)).
  destruct Hdec as [-> | Hact].
  - (* the style action throws at the first HTML element *)
    assert (Hv : ∃ v, value = Some v ∧ truthy v = true
                      ∧ existsb (λ pv, readOnlyStyle pv.1) (parseStyles v) = true
                      ∧ isHTMLElement (self el) = true).
    { unfold Tools.actionFault in Hf. destruct value as [v |]; [| discriminate].
      exists v. destruct (isHTMLElement (self el)), (truthy v),
        (existsb (λ pv, readOnlyStyle pv.1) (parseStyles v)); try discriminate. auto. }
    destruct Hv as (v & -> & Hv & Hex & Hhtml).
    assert (Hsome : existsb (λ x, isHTMLElement (self x)) matched = true)
      by (apply existsb_exists; eauto).
    destruct (first_split _ _ Hsome) as (before & el0 & after & -> & Hel0 & Hbefore).
    destruct (assignStyle_raise (nid (self el0)) _ doc Hex)
      as (applied & pv & rest & Hdecls & Hpv & Happ & Hloop).
    assert (Hrun : forEachT (applyAction A_style (Some v) attribute)
                     (before ++ el0 :: after) doc
                   = (foldl (λ d q, updateElement (nid (self el0)) (setStyle q.1 q.2) d)
                        doc applied, Some TypeError)).
    { apply (forEachT_raise _ (λ d _, d)).
      - intros x t Hx. apply applyAction_style_skip. now apply Hbefore.
      - assert (Hfold : ∀ l, foldl (λ (d : document) (_ : Element), d) doc l = doc)
          by (induction l; simpl; auto).
        rewrite Hfold. unfold Tools.applyAction. rewrite Hel0, Hv. exact Hloop. }
    rewrite Hrun. split; [eauto |]. split; [congruence |]. intros _.
    exists before, el0, after, v, applied, pv, rest. auto 10.
  - (* the other actions throw at the first element, before any effect *)
    destruct matched as [| el1 rest]; [destruct Hin |].
    rewrite (actionFault_everywhere _ _ _ el el1 Hact) in Hf.
    destruct (applyAction_fault _ _ _ _ el1 doc Hf) as [H2 H1]. specialize (H1 Hact).
    simpl. destruct (applyAction act value attribute el1 doc) as [d o]. simpl in *.
    subst. split; [eauto |]. split; [reflexivity | congruence].
Qed.


(** C10. With the action [attribute], a selector that matches at least one
    node, and the attribute name missing (or empty) or the value undefined,
    no node is changed and the result is [success: true] with the full
    number of matches as count. *)
Theorem modify_attribute_incomplete_succeeds selector value attribute doc matched :
  querySelectorAll selector doc = Ok matched →
  matched ≠ [] →
  truthy (default "" attribute) = false ∨ value = None →
  (modifyElement selector A_attribute value attribute doc).2 = doc
  ∧ m_success (modifyElement selector A_attribute value attribute doc).1 = true
  ∧ m_elementsModified (modifyElement selector A_attribute value attribute doc).1
    = length matched.
Proof.
  intros Hq Hne Hinc. unfold Tools.modifyElement. rewrite Hq.
  destruct matched as [| el rest]; [congruence |]. cbn [length Nat.eqb].
  rewrite (forEachT_skip (applyAction A_attribute value attribute)); [simpl; auto |].
  intros a s _. unfold Tools.applyAction.
  destruct attribute as [n |], value as [v |]; try reflexivity.
  destruct Hinc as [Hn | Hv]; [| discriminate].
  simpl in Hn. rewrite Hn. reflexivity.
Qed.

End Modify.


(** The style action with a declaration that cannot be assigned: the
    declaration before it has been applied to the first item when the
    assignment throws, the second item is not reached, and the result is
    [success: false] with count 0. *)
Example modify_style_read_only_fails :
  (λ r, (m_success r.1, m_elementsModified r.1, m_message r.1,
         map (λ el, getProperty "color" (style (self el))) (allElements r.2)))
    (modifyElement simpleSelector exnName validName readOnlyMember
       "li" A_style (Some "color: red; parentRule: x") None groceries)
  = (false, 0, "Error: TypeError", [""; ""; ""; ""; "red"; ""]).
Proof. vm_compute. reflexivity. Qed.

Lemma modify_attribute_incomplete_succeeds_witness :
  (modifyElement simpleSelector exnName validName readOnlyMember "li" A_attribute (Some "x") None
     groceries).2 = groceries
  ∧ m_success (modifyElement simpleSelector exnName validName readOnlyMember "li" A_attribute (Some "x") None
       groceries).1 = true
  ∧ m_elementsModified (modifyElement simpleSelector exnName validName readOnlyMember "li" A_attribute
       (Some "x") None groceries).1
    = length [elementAt groceries 4; elementAt groceries 5].
Proof.
  apply (modify_attribute_incomplete_succeeds simpleSelector exnName validName readOnlyMember
           "li" (Some "x") None groceries [elementAt groceries 4; elementAt groceries 5]).
  - vm_compute. reflexivity.
  - discriminate.
  - left. reflexivity.
Defined.

End ModifySpec.

(** ** Mutations and the widget's subtree *)

Module MutationSpec.
Import JS Dom Tools Browser DomFacts ModifySpec.

(** The elements of a subtree do not depend on the ancestor chain they are
    listed under, up to that chain. *)
Lemma elementsOf_reanchor n :
  ∀ anc anc' el, In el (elementsOf anc n) →
    ∃ el', In el' (elementsOf anc' n) ∧ self el' = self el ∧ kids el' = kids el.
Proof.
  induction n as [s | e cs IH] using node_ind'; intros anc anc' el Hin; simpl in Hin.
  - destruct Hin.
  - destruct Hin as [<- | Hin].
    + exists (mkElement e cs anc'). simpl. auto.
    + apply in_flat_map in Hin as (c & Hc & Hel).
      rewrite Forall_forall in IH.
      destruct (IH c (proj2 (list_elem_of_In _ _) Hc) _ ((e, cs) :: anc') _ Hel)
        as (el' & Hin' & Hs & Hk).
      exists el'. split; [| auto]. simpl. right.
      apply in_flat_map. eauto.
Qed.

Section ElementUpdate.
(** An update that rewrites the state of the element and keeps its child
    nodes, possibly with new ones after them. *)
Variable i : nat.
Variable g : elem → elem.
Variable f : elem → list node → list node.
Hypothesis g_nid : ∀ e, nid (g e) = nid e.
Hypothesis f_shape : ∀ e cs, ∃ extra, f e cs = [ElemNode (g e) (cs ++ extra)].

Lemma updateNode_keeps n :
  ∀ anc anc' el, In el (elementsOf anc n) →
    ∃ el', In el' (flat_map (elementsOf anc') (updateNode i f n))
           ∧ (self el' = self el ∨ self el' = g (self el)).
Proof.
  induction n as [s | e cs IH] using node_ind'; intros anc anc' el Hin; simpl in Hin.
  - destruct Hin.
  - simpl. destruct (decide (nid e = i)) as [Hi | Hi].
    + destruct (f_shape e cs) as [extra ->]. simpl. rewrite app_nil_r.
      destruct Hin as [<- | Hin].
      * eexists. split; [left; reflexivity |]. simpl. auto.
      * apply in_flat_map in Hin as (c & Hc & Hel).
        destruct (elementsOf_reanchor c _ ((g e, cs ++ extra) :: anc') _ Hel)
          as (el' & Hin' & Hs & _).
        exists el'. split; [| auto]. right.
        apply in_flat_map. exists c. split; [apply in_or_app; auto | exact Hin'].
    + simpl. rewrite app_nil_r.
      destruct Hin as [<- | Hin].
      * eexists. split; [left; reflexivity |]. simpl. auto.
      * apply in_flat_map in Hin as (c & Hc & Hel).
        rewrite Forall_forall in IH.
        destruct (IH c (proj2 (list_elem_of_In _ _) Hc) _
                    ((e, flat_map (updateNode i f) cs) :: anc') _ Hel)
          as (el' & Hin' & Hs).
        exists el'. split; [| exact Hs]. right.
        apply in_flat_map in Hin' as (c' & Hc' & Hel').
        apply in_flat_map. exists c'. split; [| exact Hel'].
        apply in_flat_map. eauto.
Qed.

Lemma updateNode_hits n :
  ∀ anc anc' el, In el (elementsOf anc n) → nid (self el) = i →
    ∃ el', In el' (flat_map (elementsOf anc') (updateNode i f n))
           ∧ nid (self el') = i ∧ ∃ e0, self el' = g e0.
Proof.
  induction n as [s | e cs IH] using node_ind'; intros anc anc' el Hin Hid; simpl in Hin.
  - destruct Hin.
  - simpl. destruct (decide (nid e = i)) as [Hi | Hi].
    + destruct (f_shape e cs) as [extra ->]. simpl.
      eexists. split; [left; reflexivity |]. simpl. rewrite g_nid. eauto.
    + simpl. rewrite app_nil_r.
      destruct Hin as [<- | Hin]; [simpl in Hid; contradiction |].
      apply in_flat_map in Hin as (c & Hc & Hel).
      rewrite Forall_forall in IH.
      destruct (IH c (proj2 (list_elem_of_In _ _) Hc) _
                  ((e, flat_map (updateNode i f) cs) :: anc') _ Hel Hid)
        as (el' & Hin' & Hs).
      exists el'. split; [| exact Hs]. right.
      apply in_flat_map in Hin' as (c' & Hc' & Hel').
      apply in_flat_map. exists c'. split; [| exact Hel'].
      apply in_flat_map. eauto.
Qed.

(** What holds of an element and is kept by [g] still holds after the
    update. *)
Lemma updateElement_keeps (P : elem → Prop) doc j :
  (∀ e, P e → P (g e)) →
  elementHas doc j P → elementHas (updateElement i f doc) j P.
Proof.
  intros HP (el & Hin & Hid & Hp).
  unfold allElements in Hin. apply in_flat_map in Hin as (n & Hn & Hel).
  destruct (updateNode_keeps n [] [] el Hel) as (el' & Hin' & Hs).
  exists el'. split; [| split].
  - unfold allElements, updateElement.
    apply in_flat_map in Hin' as (c' & Hc' & Hel').
    apply in_flat_map. exists c'. split; [| exact Hel'].
    apply in_flat_map. eauto.
  - destruct Hs as [-> | ->]; [exact Hid | now rewrite g_nid].
  - destruct Hs as [-> | ->]; auto.
Qed.

(** What [g] establishes holds of the updated element. *)
Lemma updateElement_hits (P : elem → Prop) doc :
  (∀ e, P (g e)) →
  elementHas doc i (λ _, True) → elementHas (updateElement i f doc) i P.
Proof.
  intros HP (el & Hin & Hid & _).
  unfold allElements in Hin. apply in_flat_map in Hin as (n & Hn & Hel).
  destruct (updateNode_hits n [] [] el Hel Hid) as (el' & Hin' & Hid' & e0 & He0).
  exists el'. split; [| split].
  - unfold allElements, updateElement.
    apply in_flat_map in Hin' as (c' & Hc' & Hel').
    apply in_flat_map. exists c'. split; [| exact Hel'].
    apply in_flat_map. eauto.
  - exact Hid'.
  - rewrite He0. apply HP.
Qed.

End ElementUpdate.

Section Loop.
(** A loop over elements whose body updates the element it visits. *)
Variable P : elem → Prop.
Variable body : document → Element → document.
Variable visits : Element → bool.
Hypothesis body_present :
  ∀ doc el j, elementHas doc j (λ _, True) → elementHas (body doc el) j (λ _, True).
Hypothesis body_keeps :
  ∀ doc el j, elementHas doc j P → elementHas (body doc el) j P.
Hypothesis body_hits :
  ∀ doc el, visits el = true → elementHas doc (nid (self el)) (λ _, True) →
            elementHas (body doc el) (nid (self el)) P.

Lemma loop_keeps els : ∀ doc j, elementHas doc j P → elementHas (foldl body doc els) j P.
Proof. induction els as [| a r IH]; intros doc j H; simpl; auto. Qed.

Lemma loop_hits els :
  ∀ doc, (∀ el, In el els → elementHas doc (nid (self el)) (λ _, True)) →
         ∀ el, In el els → visits el = true →
               elementHas (foldl body doc els) (nid (self el)) P.
Proof.
  induction els as [| a r IH]; intros doc Hpres el Hin Hv; [destruct Hin |].
  simpl. destruct Hin as [<- | Hin].
  - apply loop_keeps. apply body_hits; [exact Hv |]. apply Hpres. now left.
  - apply IH; [| exact Hin | exact Hv].
    intros el' Hin'. apply body_present. apply Hpres. now right.
Qed.

End Loop.

(** *** The style object *)

Lemma getProperty_setProperty_eq k v (s : gmap string string) :
  getProperty k (setProperty k v s) = v.
Proof.
  unfold getProperty, setProperty. destruct (truthy v) eqn:Hv.
  - now rewrite lookup_insert_eq.
  - rewrite lookup_delete_eq. simpl. symmetry. now apply truthy_false.
Qed.

Lemma getProperty_setProperty_ne k k' v (s : gmap string string) :
  k ≠ k' → getProperty k (setProperty k' v s) = getProperty k s.
Proof.
  intros Hne. unfold getProperty, setProperty. destruct (truthy v).
  - now rewrite lookup_insert_ne.
  - now rewrite lookup_delete_ne.
Qed.

Lemma applyEffect_transition eff color duration s :
  getProperty "transition" (applyEffect eff color duration s) = "all 0.3s ease".
Proof.
  unfold applyEffect.
  destruct eff; repeat (rewrite getProperty_setProperty_ne by discriminate);
    apply getProperty_setProperty_eq.
Qed.

Section Mutation.
Variable selectorMatches : string → thrown (Element → bool).
Variable exnMessage : exn → string.
Variable validAttributeName : string → bool.
Variable readOnlyStyle : string → bool.

Local Abbreviation modifyElement :=
  (modifyElement selectorMatches exnMessage validAttributeName readOnlyStyle).
Local Abbreviation highlightElements := (highlightElements selectorMatches exnMessage).
Local Abbreviation querySelectorAll := (querySelectorAll selectorMatches).

Lemma matched_present selector doc matched el :
  querySelectorAll selector doc = Ok matched → In el matched →
  elementHas doc (nid (self el)) (λ _, True).
Proof.
  intros Hq Hin. exists el. split; [| auto].
  eapply SearchSpec.querySelectorAll_In; eauto.
Qed.

Lemma modify_attribute_reaches selector a v doc matched el :
  querySelectorAll selector doc = Ok matched → In el matched →
  truthy a = true → validAttributeName a = true →
  m_success (modifyElement selector A_attribute (Some v) (Some a) doc).1 = true
  ∧ elementHas (modifyElement selector A_attribute (Some v) (Some a) doc).2
      (nid (self el)) (λ e, getAttribute e (storedName a e) = Some v).
Proof.
  intros Hq Hin Ha Hvalid. unfold Tools.modifyElement. rewrite Hq.
  destruct matched as [| m0 rest]; [destruct Hin |]. cbn [length Nat.eqb].
  rewrite (forEachT_fold (applyAction validAttributeName readOnlyStyle A_attribute (Some v) (Some a))
             (λ d x, updateElement (nid (self x)) (setAttribute a v) d)).
  2:{ intros x d. unfold applyAction. now rewrite Ha, Hvalid. }
  split; [reflexivity |]. cbn [snd].
  set (g := λ e : elem, withAttrs e (<[storedName a e := v]> (attrs e))).
  assert (Hshape : ∀ e cs, ∃ extra, setAttribute a v e cs = [ElemNode (g e) (cs ++ extra)]).
  { intros e cs. exists []. now rewrite app_nil_r. }
  assert (Hg : ∀ e, getAttribute (g e) (storedName a (g e)) = Some v).
  { intros e. unfold g, getAttribute, storedName. simpl. apply lookup_insert_eq. }
  apply (loop_hits (λ e, getAttribute e (storedName a e) = Some v)
           (λ d x, updateElement (nid (self x)) (setAttribute a v) d) (λ _, true)).
  - intros d x j. apply (updateElement_keeps _ g); auto.
  - intros d x j. apply (updateElement_keeps _ g); auto.
  - intros d x _. apply (updateElement_hits _ g); auto.
  - intros x Hx. eapply matched_present; [exact Hq | exact Hx].
  - exact Hin.
  - reflexivity.
Qed.

Lemma highlight_loop_fst eff color duration els :
  ∀ d ts,
    (foldl (λ st el, highlightOne eff color duration el st) (d, ts) els).1
    = foldl (λ d el,
               if isHTMLElement (self el)
               then updateElement (nid (self el))
                      (λ e cs, [ElemNode (withStyle e (applyEffect eff color duration (style e)))
                                         cs]) d
               else d) d els.
Proof.
  induction els as [| a r IH]; intros d ts; simpl; [reflexivity |].
  unfold highlightOne at 2. destruct (isHTMLElement (self a)); simpl; apply IH.
Qed.

Lemma installAnimations_present doc doc1 j :
  installAnimations doc = Ok doc1 →
  elementHas doc j (λ _, True) → elementHas doc1 j (λ _, True).
Proof.
  unfold installAnimations.
  destruct (getElementById _ doc); [intros [= <-]; auto |].
  destruct (documentHead doc) as [h |]; [| discriminate].
  intros [= <-]. apply (updateElement_keeps _ (λ e, e)); auto.
  intros e cs. eexists. reflexivity.
Qed.

Lemma highlight_reaches selector eff color duration doc doc1 matched el :
  querySelectorAll selector doc = Ok matched → In el matched →
  installAnimations doc = Ok doc1 →
  isHTMLElement (self el) = true →
  h_success (highlightElements selector eff color duration doc).1.1 = true
  ∧ elementHas (highlightElements selector eff color duration doc).1.2
      (nid (self el)) (λ e, getProperty "transition" (style e) = "all 0.3s ease").
Proof.
  intros Hq Hin Hinst Hhtml. unfold Tools.highlightElements. rewrite Hq.
  destruct matched as [| m0 rest]; [destruct Hin |]. cbn [length Nat.eqb].
  rewrite Hinst. split; [reflexivity |]. cbn [fst snd].
  rewrite highlight_loop_fst.
  set (g := λ e : elem, withStyle e (applyEffect eff color duration (style e))).
  assert (Hshape : ∀ e cs, ∃ extra,
             (λ e cs, [ElemNode (withStyle e (applyEffect eff color duration (style e))) cs])
               e cs = [ElemNode (g e) (cs ++ extra)]).
  { intros e cs. exists []. now rewrite app_nil_r. }
  assert (Hg : ∀ e, getProperty "transition" (style (g e)) = "all 0.3s ease").
  { intros e. unfold g. simpl. apply applyEffect_transition. }
  apply (loop_hits (λ e, getProperty "transition" (style e) = "all 0.3s ease")
           _ (λ x, isHTMLElement (self x))).
  - intros d x j H. destruct (isHTMLElement (self x)); [| exact H].
    apply (updateElement_keeps _ g); auto.
  - intros d x j H. destruct (isHTMLElement (self x)); [| exact H].
    apply (updateElement_keeps _ g); auto.
  - intros d x Hx H. rewrite Hx. apply (updateElement_hits _ g); auto.
  - intros x Hx. eapply installAnimations_present; [exact Hinst |].
    eapply matched_present; [exact Hq | exact Hx].
  - exact Hin.
  - exact Hhtml.
Qed.


End Mutation.



End MutationSpec.

(** ** highlightElements *)

Module HighlightSpec.
Import JS Dom Tools Browser DomFacts MutationSpec.

(** After the callback, each of the five captured properties reads as it
    was captured, whatever happened to the style in between. *)
Lemma restore_captured o s :
  capture (restore o s) = o.
Proof.
  destruct o as [b bg an bs tr]. unfold capture, restore. simpl. f_equal.
  all: repeat (rewrite getProperty_setProperty_ne by discriminate);
       apply getProperty_setProperty_eq.
Qed.

Lemma restore_other k o s :
  capturedProperty k = false → getProperty k (restore o s) = getProperty k s.
Proof.
  intros Hk. unfold capturedProperty in Hk. apply bool_decide_eq_false in Hk.
  unfold restore.
  repeat (rewrite getProperty_setProperty_ne; [| intros ->; apply Hk; set_solver]).
  reflexivity.
Qed.

Lemma applyEffect_other k eff color duration s :
  capturedProperty k = false → (eff = E_glow → k ≠ "color") →
  getProperty k (applyEffect eff color duration s) = getProperty k s.
Proof.
  intros Hk Hglow. unfold capturedProperty in Hk. apply bool_decide_eq_false in Hk.
  unfold applyEffect. destruct eff.
  1-4: repeat (rewrite getProperty_setProperty_ne; [| intros ->; apply Hk; set_solver]);
       reflexivity.
  rewrite getProperty_setProperty_ne by (apply Hglow; reflexivity).
  repeat (rewrite getProperty_setProperty_ne; [| intros ->; apply Hk; set_solver]).
  reflexivity.
Qed.

Lemma capture_property k s :
  capturedProperty k = true →
  ∀ s', capture s' = capture s → getProperty k s' = getProperty k s.
Proof.
  intros Hk s' Hc. unfold capturedProperty in Hk. apply bool_decide_eq_true in Hk.
  unfold capture in Hc. injection Hc as H1 H2 H3 H4 H5.
  repeat (apply elem_of_cons in Hk as [-> | Hk]; [assumption |]).
  now apply elem_of_nil in Hk.
Qed.

(** The round trip on one style object: an effect applied and then
    restored leaves every property as it was, except [color] after the
    glow effect. *)
Lemma restore_applyEffect eff color duration s k :
  (eff = E_glow → k ≠ "color") →
  getProperty k (restore (capture s) (applyEffect eff color duration s)) = getProperty k s.
Proof.
  intros Hglow. destruct (capturedProperty k) eqn:Hk.
  - apply capture_property; [exact Hk |]. apply restore_captured.
  - rewrite restore_other by exact Hk. now apply applyEffect_other.
Qed.

Lemma restore_applyEffect_glow_color color duration s :
  getProperty "color" (restore (capture s) (applyEffect E_glow color duration s)) = color.
Proof.
  rewrite restore_other by reflexivity. unfold applyEffect.
  apply getProperty_setProperty_eq.
Qed.

(** C3. The claim has the node's visual state restored exactly for every
    effect, glow included. The glow effect also writes [style.color],
    which is not among the captured properties: the title, whose inline
    colour was [blue], keeps the highlight colour after the callback has
    run. *)
Theorem highlight_glow_leaves_color :
  h_success (highlightElementsTool simpleSelector exnName
               "#title" E_glow None None titlePage).1.1 = true
  ∧ (λ el, map_to_list (style (self el))) <$> objectAt titlePage 3
    = Some [("color", "blue")]
  ∧ (λ el, map_to_list (style (self el)))
      <$> objectAt (elapse (highlightElementsTool simpleSelector exnName
                              "#title" E_glow None None titlePage).2
                           (highlightElementsTool simpleSelector exnName
                              "#title" E_glow None None titlePage).1.2) 3
    = Some [("color", "#ff0000")].
Proof. repeat split; vm_compute; reflexivity. Qed.

(** The other effects do restore the title's style. *)
Example highlight_border_restores :
  (λ el, map_to_list (style (self el)))
    <$> objectAt (elapse (highlightElementsTool simpleSelector exnName
                            "#title" E_border None None titlePage).2
                         (highlightElementsTool simpleSelector exnName
                            "#title" E_border None None titlePage).1.2) 3
  = Some [("color", "blue")].
Proof. vm_compute. reflexivity. Qed.

End HighlightSpec.

(** ** The streaming turn *)

Module ChatSpec.
Import JS Chat DomFacts.

Lemma append_empty_r s : s +:+ "" = s.
Proof.
  induction s as [| c s IH]; [reflexivity |].
  change (String c (s +:+ "") = String c s). now rewrite IH.
Qed.

Lemma append_assoc s1 s2 s3 : (s1 +:+ s2) +:+ s3 = s1 +:+ (s2 +:+ s3).
Proof.
  induction s1 as [| c s IH]; [reflexivity |].
  change (String c ((s +:+ s2) +:+ s3) = String c (s +:+ (s2 +:+ s3))). now rewrite IH.
Qed.

Lemma streamedText_from acc parts :
  foldl (λ acc p, acc +:+ textOf p) acc parts = acc +:+ streamedText parts.
Proof.
  unfold streamedText. revert acc.
  induction parts as [| p r IH]; intros acc; simpl.
  - now rewrite append_empty_r.
  - rewrite IH. change ("" +:+ textOf p) with (textOf p).
    rewrite (IH (textOf p)). now rewrite append_assoc.
Qed.

(** *** One turn at a time *)

Lemma handleSubmit_busy tu ta c : isLoading c = true → handleSubmit tu ta c = c.
Proof. intros H. unfold handleSubmit. rewrite H, orb_true_r. reflexivity. Qed.

Lemma step_oneTurn c ev : oneTurn c → oneTurn (step c ev).
Proof.
  intros Hc. destruct ev as [tu ta | text | k p | k | k te]; simpl.
  - unfold handleSubmit.
    destruct (negb (truthy (trim (input c))) || isLoading c) eqn:Hg; [exact Hc |].
    apply orb_false_iff in Hg as [_ Hl].
    destruct Hc as [[Hl' _] | [_ Ha]]; [congruence |].
    left. simpl. rewrite Ha. auto.
  - exact Hc.
  - destruct (active c !! k) as [t |] eqn:Hk; [| exact Hc].
    destruct (onPart p (messages c) (heap c) t) as [[ms h] t'].
    destruct Hc as [[Hl Hlen] | [Hl Ha]].
    + left. simpl. rewrite length_insert. auto.
    + rewrite Ha in Hk. discriminate.
  - destruct (active c !! k) as [t |] eqn:Hk; [| exact Hc].
    right. split; [reflexivity |]. simpl.
    destruct Hc as [[Hl Hlen] | [Hl Ha]]; [| rewrite Ha in Hk; discriminate].
    destruct (active c) as [| t0 [| t1 r]]; try discriminate.
    destruct k; [reflexivity | discriminate].
  - destruct (active c !! k) as [t |] eqn:Hk; [| exact Hc].
    right. split; [reflexivity |]. simpl.
    destruct Hc as [[Hl Hlen] | [Hl Ha]]; [| rewrite Ha in Hk; discriminate].
    destruct (active c) as [| t0 [| t1 r]]; try discriminate.
    destruct k; [reflexivity | discriminate].
Qed.

Lemma run_oneTurn evs : ∀ c, oneTurn c → oneTurn (run c evs).
Proof.
  induction evs as [| ev r IH]; intros c Hc; [exact Hc |].
  apply IH. now apply step_oneTurn.
Qed.

Lemma initial_oneTurn w t0 : oneTurn (initial w t0).
Proof. right. split; reflexivity. Qed.

(** C9. In every configuration the component reaches, at most one
    activation of [handleSubmit] is in flight, and while one is, a
    submission leaves the configuration as it is. *)
Theorem no_concurrent_turns w t0 evs :
  length (active (run (initial w t0) evs)) ≤ 1
  ∧ (active (run (initial w t0) evs) ≠ [] →
     ∀ tu ta, step (run (initial w t0) evs) (Submit tu ta) = run (initial w t0) evs).
Proof.
  pose proof (run_oneTurn evs _ (initial_oneTurn w t0)) as [[Hl Hlen] | [Hl Ha]].
  - split; [lia |]. intros _ tu ta. simpl. now apply handleSubmit_busy.
  - rewrite Ha. split; [simpl; lia | congruence].
Qed.

Lemma no_concurrent_turns_witness :
  active (run (initial "Hello" 0)
            [SetInput "hi"; Submit 100 101; Stream 0 (TextDelta "Hi")]) ≠ []
  ∧ step (run (initial "Hello" 0)
            [SetInput "hi"; Submit 100 101; Stream 0 (TextDelta "Hi")])
         (Submit 200 201)
    = run (initial "Hello" 0) [SetInput "hi"; Submit 100 101; Stream 0 (TextDelta "Hi")].
Proof.
  assert (H : active (run (initial "Hello" 0)
                        [SetInput "hi"; Submit 100 101; Stream 0 (TextDelta "Hi")]) ≠ [])
    by (vm_compute; discriminate).
  split; [exact H |].
  exact (proj2 (no_concurrent_turns "Hello" 0
                  [SetInput "hi"; Submit 100 101; Stream 0 (TextDelta "Hi")]) H 200%Z 201%Z).
Defined.

(** *** A fault during the turn *)

(** The placeholder keeps pace with [fullContent]: a part leaves the
    message of the turn at its position, with its identity, and its
    content is the text streamed so far. *)
Lemma onPart_placeholder p ms h t ms' h' t' pos m :
  onPart p ms h t = (ms', h', t') →
  ms !! pos = Some m → id m = assistantId t → content m = fullContent t →
  assistantId t' = assistantId t
  ∧ fullContent t' = fullContent t +:+ textOf p
  ∧ ∃ m', ms' !! pos = Some m' ∧ id m' = id m ∧ role m' = role m
          ∧ content m' = fullContent t'.
Proof.
  intros Hp Hm Hid Hc. destruct p as [text | cid name inp | cid out | err |]; simpl in Hp.
  - destruct (truthy text) eqn:Ht.
    + injection Hp as <- <- <-. simpl. repeat split; try reflexivity.
      unfold setContent. rewrite list_lookup_fmap, Hm. simpl.
      rewrite Hid, String.eqb_refl. eexists. split; [reflexivity |]. simpl. auto.
    + injection Hp as <- <- <-. apply truthy_false in Ht as ->. simpl.
      rewrite append_empty_r. repeat split; try reflexivity. eauto.
  - injection Hp as <- <- <-. simpl. rewrite append_empty_r.
    repeat split; try reflexivity. eauto.
  - assert (Hsame : ∀ ms0, ms0 = ms ∨ ms0 = setInvocations (assistantId t) (invocations t) ms →
              ∃ m', ms0 !! pos = Some m' ∧ id m' = id m ∧ role m' = role m
                    ∧ content m' = fullContent t).
    { intros ms0 [-> | ->]; [eauto |].
      unfold setInvocations. rewrite list_lookup_fmap, Hm. simpl.
      rewrite Hid, String.eqb_refl. eexists. split; [reflexivity |]. simpl. auto. }
    destruct (currentToolCall t) as [r |];
      [| injection Hp as <- <- <-; simpl; rewrite append_empty_r; auto 10].
    destruct (h !! r) as [inv |];
      [| injection Hp as <- <- <-; simpl; rewrite append_empty_r; auto 10].
    destruct (String.eqb (toolCallId inv) cid);
      injection Hp as <- <- <-; simpl; rewrite append_empty_r; auto 10.
  - injection Hp as <- <- <-. simpl. rewrite append_empty_r.
    repeat split; try reflexivity. eauto.
  - injection Hp as <- <- <-. simpl. rewrite append_empty_r.
    repeat split; try reflexivity. eauto.
Qed.

Lemma run_parts parts :
  ∀ c t pos m,
    active c = [t] → messages c !! pos = Some m →
    id m = assistantId t → content m = fullContent t →
    ∃ t' m',
      active (run c (map (Stream 0) parts)) = [t']
      ∧ isLoading (run c (map (Stream 0) parts)) = isLoading c
      ∧ messages (run c (map (Stream 0) parts)) !! pos = Some m'
      ∧ id m' = id m ∧ role m' = role m
      ∧ content m' = fullContent t +:+ streamedText parts.
Proof.
  induction parts as [| p r IH]; intros c t pos m Ha Hm Hid Hc.
  - exists t, m. simpl. unfold streamedText. simpl. rewrite append_empty_r. auto 10.
  - cbn [map run foldl]. fold (run (step c (Stream 0 p)) (map (Stream 0) r)).
    assert (Hstep : ∃ ms h t', onPart p (messages c) (heap c) t = (ms, h, t')
                     ∧ step c (Stream 0 p) = mkConfig ms (input c) (isLoading c) h [t']).
    { simpl. rewrite Ha. simpl.
      destruct (onPart p (messages c) (heap c) t) as [[ms h] t']. eauto. }
    destruct Hstep as (ms & h & t' & Hp & Hs).
    destruct (onPart_placeholder _ _ _ _ _ _ _ _ _ Hp Hm Hid Hc)
      as (Haid & Hfull & m' & Hm' & Hid' & Hrole & Hc').
    destruct (IH (step c (Stream 0 p)) t' pos m') as (t2 & m2 & H1 & H2 & H3 & H4 & H5 & H6).
    + rewrite Hs. reflexivity.
    + rewrite Hs. exact Hm'.
    + congruence.
    + exact Hc'.
    + exists t2, m2. rewrite H1, H2, H3, H4, H5, H6, Hs. simpl.
      repeat split; try congruence.
      rewrite Hfull, append_assoc. f_equal.
      unfold streamedText at 2. simpl.
      change ("" +:+ textOf p) with (textOf p). now rewrite streamedText_from.
Qed.

Lemma step_fault c t te :
  active c = [t] →
  step c (StreamFault 0 te)
  = mkConfig (messages c ++ [errorMessage te]) (input c) false (heap c) [].
Proof. intros Ha. simpl. rewrite Ha. reflexivity. Qed.

(** C5. A turn that starts from a settled component and faults after any
    number of stream parts (none, when the fault occurs while the stream is
    being established) ends settled, not loading. The fault adds one
    message after those on display: a system message with the generic
    notice. The placeholder of the turn is still in its place, an
    assistant message whose content is the text streamed before the fault. *)
Theorem fault_settles_with_system_message c tu ta parts te :
  settled c → truthy (trim (input c)) = true →
  messages (run (step c (Submit tu ta)) (map (Stream 0) parts ++ [StreamFault 0 te]))
  = messages (run (step c (Submit tu ta)) (map (Stream 0) parts))
    ++ [mkMessage (pretty te) System "Sorry, something went wrong. Please try again."
                  None te]
  ∧ settled (run (step c (Submit tu ta)) (map (Stream 0) parts ++ [StreamFault 0 te]))
  ∧ ∃ m, messages (run (step c (Submit tu ta)) (map (Stream 0) parts ++ [StreamFault 0 te]))
           !! S (length (messages c)) = Some m
         ∧ id m = pretty (ta + 1)%Z ∧ role m = Assistant
         ∧ content m = streamedText parts.
Proof.
  intros [Hl Ha] Hin.
  assert (Hsub : step c (Submit tu ta)
                 = mkConfig (messages c ++ [userMessage (input c) tu; assistantMessage ta])
                            "" true (heap c) [mkTurn (pretty (ta + 1)%Z) "" [] None]).
  { simpl. unfold handleSubmit. rewrite Hin, Hl, Ha. reflexivity. }
  destruct (run_parts parts (step c (Submit tu ta)) (mkTurn (pretty (ta + 1)%Z) "" [] None)
              (S (length (messages c))) (assistantMessage ta))
    as (t' & m' & H1 & H2 & H3 & H4 & H5 & H6).
  { rewrite Hsub. reflexivity. }
  { rewrite Hsub. simpl. rewrite lookup_app_r by lia.
    replace (S (length (messages c)) - length (messages c)) with 1 by lia. reflexivity. }
  { reflexivity. }
  { reflexivity. }
  unfold run in *. rewrite foldl_app. cbn [foldl].
  rewrite (step_fault _ t' te H1). cbn [messages]. repeat split.
  exists m'. split; [| auto].
  rewrite lookup_app_l; [exact H3 |].
  apply lookup_lt_is_Some. rewrite H3. eauto.
Qed.

Lemma fault_settles_with_system_message_witness :
  settled (step (initial "Hello" 0) (SetInput "list the items"))
  ∧ ∃ m, messages (run (step (step (initial "Hello" 0) (SetInput "list the items"))
                             (Submit 100 101))
                       (map (Stream 0) [TextDelta "Here "; TextDelta "are"]
                        ++ [StreamFault 0 250]))
           !! S (length (messages (step (initial "Hello" 0) (SetInput "list the items"))))
         = Some m
         ∧ id m = pretty (101 + 1)%Z ∧ role m = Assistant
         ∧ content m = streamedText [TextDelta "Here "; TextDelta "are"].
Proof.
  assert (H : settled (step (initial "Hello" 0) (SetInput "list the items")))
    by (split; reflexivity).
  split; [exact H |].
  exact (proj2 (proj2 (fault_settles_with_system_message
                         (step (initial "Hello" 0) (SetInput "list the items"))
                         100%Z 101%Z [TextDelta "Here "; TextDelta "are"] 250%Z
                         H eq_refl))).
Defined.

(** Scenario 5 of the specification, with a fault in place of the end. *)
Example fault_after_two_deltas :
  map (λ m, (role m, content m))
      (messages (run (initial "Hello" 0)
                   [SetInput "hello"; Submit 100 101; Stream 0 (TextDelta "Hi");
                    Stream 0 (TextDelta " there"); StreamFault 0 250]))
  = [(Assistant, "Hello"); (User, "hello"); (Assistant, "Hi there");
     (System, "Sorry, something went wrong. Please try again.")].
Proof. vm_compute. reflexivity. Qed.

(** *** Tool results *)

(** The current tool call is one of the turn's invocations. *)
Lemma onPart_current p ms h t ms' h' t' :
  onPart p ms h t = (ms', h', t') →
  (∀ r, currentToolCall t = Some r → r ∈ invocations t) →
  ∀ r, currentToolCall t' = Some r → r ∈ invocations t'.
Proof.
  intros Hp Hwf r. destruct p as [text | cid name inp | cid out | err |]; simpl in Hp.
  - destruct (truthy text); injection Hp as <- <- <-; simpl; auto.
  - injection Hp as <- <- <-. simpl. intros [= <-]. set_solver.
  - destruct (currentToolCall t) as [r0 |] eqn:Hc; [| injection Hp as <- <- <-; rewrite Hc; auto].
    destruct (h !! r0) as [inv |]; [| injection Hp as <- <- <-; rewrite Hc; auto].
    destruct (String.eqb (toolCallId inv) cid); injection Hp as <- <- <-; rewrite Hc; auto.
  - injection Hp as <- <- <-. auto.
  - injection Hp as <- <- <-. auto.
Qed.

(** C4, amended. A tool-result part is compared with the current tool
    call only, the invocation opened last. If that invocation carries the
    part's identifier, the result is stored on it and the turn's
    invocations are put on the assistant message. In every other case
    nothing changes, in particular when no invocation of the turn carries
    the identifier. An invocation whose result changes always carries the
    part's identifier. *)
Theorem tool_result_goes_to_current_call callId output ms h t :
  (onPart (ToolResultPart callId output) ms h t).2 = t
  ∧ (∀ r inv, currentToolCall t = Some r → h !! r = Some inv → toolCallId inv = callId →
       (onPart (ToolResultPart callId output) ms h t).1.2
       = <[r := mkInvocation callId (toolName inv) (args inv) (Some output)]> h
       ∧ (onPart (ToolResultPart callId output) ms h t).1.1
         = setInvocations (assistantId t) (invocations t) ms)
  ∧ ((∀ r inv, currentToolCall t = Some r → h !! r = Some inv → toolCallId inv ≠ callId) →
       (onPart (ToolResultPart callId output) ms h t).1 = (ms, h))
  ∧ ((∀ r, currentToolCall t = Some r → r ∈ invocations t) →
     (∀ r inv, r ∈ invocations t → h !! r = Some inv → toolCallId inv ≠ callId) →
       (onPart (ToolResultPart callId output) ms h t).1 = (ms, h))
  ∧ (∀ r inv', (onPart (ToolResultPart callId output) ms h t).1.2 !! r = Some inv' →
       h !! r = Some inv'
       ∨ (toolCallId inv' = callId ∧ result inv' = Some output
          ∧ ∃ inv, h !! r = Some inv ∧ toolCallId inv = callId)).
Proof.
  assert (Hmiss : (∀ r inv, currentToolCall t = Some r → h !! r = Some inv →
                            toolCallId inv ≠ callId) →
                  (onPart (ToolResultPart callId output) ms h t).1 = (ms, h)).
  { intros Hne. simpl.
    destruct (currentToolCall t) as [r |] eqn:Hc; [| reflexivity].
    destruct (h !! r) as [inv |] eqn:Hr; [| reflexivity].
    destruct (String.eqb (toolCallId inv) callId) eqn:He; [| reflexivity].
    apply String.eqb_eq in He. destruct (Hne r inv eq_refl Hr He). }
  split; [| split; [| split; [| split]]].
  - simpl. destruct (currentToolCall t) as [r |]; [| reflexivity].
    destruct (h !! r) as [inv |]; [| reflexivity].
    destruct (String.eqb (toolCallId inv) callId); reflexivity.
  - intros r inv Hc Hr Hid. simpl. rewrite Hc, Hr.
    apply String.eqb_eq in Hid as He. rewrite He. simpl.
    unfold withResult. rewrite Hid. auto.
  - exact Hmiss.
  - intros Hwf Hnone. apply Hmiss. intros r inv Hc Hr. apply (Hnone r inv); auto.
  - intros r inv'. simpl.
    destruct (currentToolCall t) as [r0 |] eqn:Hc; [| auto].
    destruct (h !! r0) as [inv |] eqn:Hr; [| auto].
    destruct (String.eqb (toolCallId inv) callId) eqn:He; [| auto].
    apply String.eqb_eq in He. simpl.
    destruct (decide (r = r0)) as [-> | Hne].
    + rewrite list_lookup_insert_eq by (apply lookup_lt_is_Some; eauto).
      intros [= <-]. right. simpl. eauto.
    + rewrite list_lookup_insert_ne by congruence. auto.
Qed.

(** C4 as stated fails when two calls are open: after the calls [t1] and
    [t2], the result of [t1] finds [t2] as the current tool call and is
    dropped, although the invocation [t1] of the turn is open. *)
Lemma result_of_earlier_call_dropped :
  ∃ t, active (run (initial "Hello" 0)
                 [SetInput "find the items"; Submit 100 101;
                  Stream 0 (ToolCallPart "t1" "searchElements" "{}");
                  Stream 0 (ToolCallPart "t2" "searchElements" "{}")]) = [t]
       ∧ (∃ r inv, openInvocation
                     (heap (run (initial "Hello" 0)
                              [SetInput "find the items"; Submit 100 101;
                               Stream 0 (ToolCallPart "t1" "searchElements" "{}");
                               Stream 0 (ToolCallPart "t2" "searchElements" "{}")])) t r
                   ∧ heap (run (initial "Hello" 0)
                             [SetInput "find the items"; Submit 100 101;
                              Stream 0 (ToolCallPart "t1" "searchElements" "{}");
                              Stream 0 (ToolCallPart "t2" "searchElements" "{}")]) !! r
                     = Some inv
                   ∧ toolCallId inv = "t1")
       ∧ step (run (initial "Hello" 0)
                 [SetInput "find the items"; Submit 100 101;
                  Stream 0 (ToolCallPart "t1" "searchElements" "{}");
                  Stream 0 (ToolCallPart "t2" "searchElements" "{}")])
              (Stream 0 (ToolResultPart "t1" "{success:true}"))
         = run (initial "Hello" 0)
             [SetInput "find the items"; Submit 100 101;
              Stream 0 (ToolCallPart "t1" "searchElements" "{}");
              Stream 0 (ToolCallPart "t2" "searchElements" "{}")].
Proof.
  eexists. split; [vm_compute; reflexivity |]. split.
  - exists 0. eexists. split; [| split].
    + split; [vm_compute; set_solver |]. eexists. split; vm_compute; reflexivity.
    + vm_compute. reflexivity.
    + reflexivity.
  - vm_compute. reflexivity.
Qed.

Lemma tool_result_goes_to_current_call_witness :
  (onPart (ToolResultPart "t1" "{success:true}") [assistantMessage 101]
          [mkInvocation "t1" "searchElements" "{}" None]
          (mkTurn (pretty 102%Z) "" [0] (Some 0))).1.2
  = [mkInvocation "t1" "searchElements" "{}" (Some "{success:true}")]
  ∧ (onPart (ToolResultPart "t2" "{success:true}") [assistantMessage 101]
            [mkInvocation "t1" "searchElements" "{}" None]
            (mkTurn (pretty 102%Z) "" [0] (Some 0))).1
    = ([assistantMessage 101], [mkInvocation "t1" "searchElements" "{}" None]).
Proof.
  split.
  - apply (proj1 (proj1 (proj2 (tool_result_goes_to_current_call
             "t1" "{success:true}" [assistantMessage 101]
             [mkInvocation "t1" "searchElements" "{}" None]
             (mkTurn (pretty 102%Z) "" [0] (Some 0))))
           0 (mkInvocation "t1" "searchElements" "{}" None) eq_refl eq_refl eq_refl)).
  - apply (proj1 (proj2 (proj2 (proj2 (tool_result_goes_to_current_call
             "t2" "{success:true}" [assistantMessage 101]
             [mkInvocation "t1" "searchElements" "{}" None]
             (mkTurn (pretty 102%Z) "" [0] (Some 0))))))).
    + intros r [= <-]. set_solver.
    + intros r inv Hr Hl. apply list_elem_of_singleton in Hr as ->.
      injection Hl as <-. discriminate.
Defined.

(** Scenario 6 of the specification: the result of [t1] is stored on the
    invocation [t1], which the message then shows; the result of [t2],
    never called, changes nothing. *)
Example scenario_tool_result :
  (λ c, map (shownInvocations c) (messages c))
    (run (initial "Hello" 0)
       [SetInput "find the items"; Submit 100 101;
        Stream 0 (ToolCallPart "t1" "searchElements" "{}");
        Stream 0 (ToolResultPart "t1" "{success:true}");
        Stream 0 (ToolResultPart "t2" "{success:true}"); StreamEnd 0])
  = [[]; []; [Some (mkInvocation "t1" "searchElements" "{}" (Some "{success:true}"))]].
Proof. vm_compute. reflexivity. Qed.

End ChatSpec.

(** * Further properties of the tools *)

(** ** searchElements: the entries of [results] *)

Module SearchFacts.
Import JS Dom Tools DomFacts.

Lemma substring0_length n : ∀ s, String.length (substring0 n s) ≤ n.
Proof.
  unfold substring0. induction n as [| n IH]; intros [| c s]; simpl; try lia.
  specialize (IH s). lia.
Qed.

Lemma buildResult_text el : r_text (buildResult el) = substring0 100 (resultText el).
Proof.
  unfold buildResult. destruct (truthy (id (self el))); [reflexivity |].
  destruct (classNameTruthy (self el)); [| reflexivity].
  destruct (nonWidgetClasses (self el)); reflexivity.
Qed.

Lemma buildResult_attributes el :
  r_attributes (buildResult el)
  = if decide (collectAttributes (self el) = ∅) then None
    else Some (collectAttributes (self el)).
Proof.
  unfold buildResult. destruct (truthy (id (self el))); [reflexivity |].
  destruct (classNameTruthy (self el)); [| reflexivity].
  destruct (nonWidgetClasses (self el)); reflexivity.
Qed.

Lemma collect_lookup (e : elem) keys : ∀ (m0 : gmap string string) a,
  foldl (λ m a, if hasAttribute e a then <[a := default "" (getAttribute e a)]> m else m)
        m0 keys !! a
  = if bool_decide (a ∈ keys)
    then match attrs e !! a with Some v => Some v | None => m0 !! a end
    else m0 !! a.
Proof.
  induction keys as [| k r IH]; intros m0 a; [reflexivity |].
  cbn [foldl]. rewrite IH. unfold hasAttribute, getAttribute.
  destruct (decide (a ∈ r)) as [Har | Har].
  - rewrite (bool_decide_eq_true_2 (a ∈ r)) by exact Har.
    rewrite (bool_decide_eq_true_2 (a ∈ k :: r)) by (apply elem_of_cons; auto).
    destruct (attrs e !! a) as [v |] eqn:Ha; [reflexivity |].
    destruct (attrs e !! k) as [w |] eqn:Hk.
    + rewrite bool_decide_eq_true_2 by eauto.
      rewrite lookup_insert_ne; [reflexivity | congruence].
    + rewrite bool_decide_eq_false_2; [reflexivity |]. intros [? ?]; discriminate.
  - rewrite (bool_decide_eq_false_2 (a ∈ r)) by exact Har.
    destruct (decide (k = a)) as [-> | Hne].
    + rewrite (bool_decide_eq_true_2 (a ∈ a :: r)) by (apply elem_of_cons; auto).
      destruct (attrs e !! a) as [v |] eqn:Ha.
      * rewrite bool_decide_eq_true_2 by eauto. simpl. now rewrite lookup_insert_eq.
      * rewrite bool_decide_eq_false_2; [reflexivity |]. intros [? ?]; discriminate.
    + rewrite (bool_decide_eq_false_2 (a ∈ k :: r)).
      2:{ intros H. apply elem_of_cons in H as [-> | H]; [congruence | auto]. }
      destruct (bool_decide (is_Some (attrs e !! k))); [| reflexivity].
      now rewrite lookup_insert_ne.
Qed.

Lemma collectAttributes_lookup e a :
  collectAttributes e !! a
  = if bool_decide (a ∈ keyAttributes) then attrs e !! a else None.
Proof.
  unfold collectAttributes. rewrite collect_lookup, lookup_empty.
  destruct (bool_decide (a ∈ keyAttributes)); [| reflexivity].
  destruct (attrs e !! a); reflexivity.
Qed.

Section Results.
Variable selectorMatches : string → thrown (Element → bool).
Variable exnMessage : exn → string.

Lemma results_built st v tag limit doc r :
  In r (s_results (searchElements selectorMatches exnMessage st v tag limit doc)) →
  ∃ el, r = buildResult el ∧ In el (allElements doc).
Proof.
  unfold searchElements.
  destruct (searchNodes selectorMatches st v tag limit doc) as [els | e] eqn:Hs; simpl;
    [| intros []].
  intros Hin. apply in_map_iff in Hin as (el & <- & Hel).
  exists el. split; [reflexivity |].
  eapply SearchSpec.searchNodes_sound; eauto.
Qed.

(** X1. The text of every result of a search is at most 100 characters
    long. *)
Theorem result_text_at_most_100 st v tag limit doc r :
  In r (s_results (searchElements selectorMatches exnMessage st v tag limit doc)) →
  String.length (r_text r) ≤ 100.
Proof.
  intros Hin. destruct (results_built _ _ _ _ _ _ Hin) as (el & -> & _).
  rewrite buildResult_text. apply substring0_length.
Qed.

(** X2. The attributes of a result are exactly those of the element among
    [href], [src], [type], [name], [value] and [placeholder], with the
    element's values; when the element has none of them the result has no
    [attributes] field. *)
Theorem result_attributes_whitelist st v tag limit doc r :
  In r (s_results (searchElements selectorMatches exnMessage st v tag limit doc)) →
  ∃ el, In el (allElements doc) ∧ r = buildResult el
        ∧ match r_attributes r with
          | Some m =>
              m ≠ ∅
              ∧ ∀ a, m !! a = if bool_decide (a ∈ keyAttributes)
                              then attrs (self el) !! a else None
          | None => ∀ a, a ∈ keyAttributes → attrs (self el) !! a = None
          end.
Proof.
  intros Hin. destruct (results_built _ _ _ _ _ _ Hin) as (el & -> & Hel).
  exists el. split; [exact Hel |]. split; [reflexivity |].
  rewrite buildResult_attributes.
  destruct (decide (collectAttributes (self el) = ∅)) as [He | Hne].
  - intros a Ha. pose proof (collectAttributes_lookup (self el) a) as Hl.
    rewrite He, lookup_empty, bool_decide_eq_true_2 in Hl by exact Ha. now symmetry.
  - split; [exact Hne |]. intros a. apply collectAttributes_lookup.
Qed.

End Results.

Section Kinds.
Variable selectorMatches : string → thrown (Element → bool).
Variable exnMessage : exn → string.

Lemma getElementById_id i doc el : getElementById i doc = Some el → id (self el) = i ∧ truthy i = true.
Proof.
  unfold getElementById. destruct (truthy i) eqn:Hi; [| discriminate].
  destruct (List.filter _ (allElements doc)) as [| x l] eqn:Hf; simpl; [discriminate |].
  intros [= <-].
  assert (Hin : In x (List.filter (λ el, String.eqb (id (self el)) i) (allElements doc)))
    by (rewrite Hf; now left).
  apply filter_In in Hin as [_ Heq]. apply String.eqb_eq in Heq. auto.
Qed.

Lemma slice0_sublist {A} (limit : Z) (l : list A) : slice0 limit l `sublist_of` l.
Proof. unfold slice0. apply sublist_take. Qed.

Lemma filter_sublist {A} (f : A → bool) (l : list A) : List.filter f l `sublist_of` l.
Proof.
  induction l as [| x l IH]; simpl; [constructor |].
  destruct (f x); [now constructor | now apply sublist_cons].
Qed.

Lemma filter_filter {A} (f : A → bool) (l : list A) :
  List.filter f (List.filter f l) = List.filter f l.
Proof.
  induction l as [| x l IH]; simpl; [reflexivity |].
  destruct (f x) eqn:Hx; simpl; [rewrite Hx; now f_equal | exact IH].
Qed.


(** X4. A search of kind [all] whose query is [list], or contains
    [list items], in any case, gives the result of the search by tag
    for [li]. *)
Theorem search_all_list_is_tag_li v tag tag' limit doc :
  toLowerCase v = "list" ∨ includes (toLowerCase v) "list items" = true →
  searchElements selectorMatches exnMessage ST_all v tag limit doc
  = searchElements selectorMatches exnMessage ST_tag "li" tag' limit doc.
Proof.
  intros Hv. unfold searchElements, searchNodes, candidates.
  assert (Hc : String.eqb (toLowerCase v) "list" || includes (toLowerCase v) "list items"
               = true).
  { destruct Hv as [-> | ->]; [reflexivity | apply orb_true_r]. }
  rewrite Hc. destruct (querySelectorAll selectorMatches "li" doc) as [els | e]; simpl;
    [| reflexivity].
  now rewrite filter_filter.
Qed.

(** X5. The elements a search returns are elements of the document, in
    document order and without repetition of a position: the list is a
    sublist of the list of all elements. *)
Theorem search_in_document_order st v tag limit doc els :
  searchNodes selectorMatches st v tag limit doc = Ok els →
  els `sublist_of` allElements doc.
Proof.
  unfold searchNodes.
  destruct (candidates selectorMatches st v tag doc) as [cands | e] eqn:Hc; simpl;
    [| discriminate].
  intros [= <-].
  etransitivity; [apply slice0_sublist |].
  etransitivity; [apply filter_sublist |].
  assert (Hq : ∀ sel l, querySelectorAll selectorMatches sel doc = Ok l →
                        l `sublist_of` allElements doc).
  { intros sel l. unfold querySelectorAll.
    destruct (selectorMatches sel); simpl; [| discriminate].
    intros [= <-]. apply filter_sublist. }
  unfold candidates in Hc. destruct st.
  - destruct (querySelectorAll _ _ doc) as [all | e] eqn:Hqa; simpl in Hc; [| discriminate].
    injection Hc as <-. etransitivity; [apply filter_sublist | eauto].
  - destruct (querySelectorAll _ _ doc) as [all | e] eqn:Hqa; simpl in Hc; [| discriminate].
    injection Hc as <-. etransitivity; [apply filter_sublist | eauto].
  - eauto.
  - eauto.
  - injection Hc as <-. unfold getElementById.
    destruct (truthy v); [| apply sublist_nil_l].
    destruct (List.filter _ (allElements doc)) as [| x l] eqn:Hf; simpl;
      [apply sublist_nil_l |].
    etransitivity; [| apply (filter_sublist (λ el, String.eqb (id (self el)) v))].
    rewrite Hf. apply sublist_skip, sublist_nil_l.
  - destruct (_ || _).
    + eauto.
    + destruct (querySelectorAll _ _ doc) as [all | e] eqn:Hqa; simpl in Hc; [| discriminate].
      injection Hc as <-. etransitivity; [apply filter_sublist | eauto].
Qed.

End Kinds.

(** *** The positional selector *)

Lemma elementsOf_parent n :
  ∀ anc el, In el (elementsOf anc n) →
    (ancestors el = anc ∧ n = ElemNode (self el) (kids el))
    ∨ ∃ p pcs rest, ancestors el = (p, pcs) :: rest
                    ∧ In (ElemNode (self el) (kids el)) pcs.
Proof.
  induction n as [s | e cs IH] using node_ind'; intros anc el Hin; simpl in Hin.
  - destruct Hin.
  - destruct Hin as [<- | Hin]; [left; auto |].
    apply in_flat_map in Hin as (c & Hc & Hel). right.
    rewrite Forall_forall in IH.
    destruct (IH c (proj2 (list_elem_of_In _ _) Hc) _ _ Hel)
      as [[Ha ->] | (p & pcs & rest & Ha & Hp)]; eauto.
Qed.

Lemma indexOf_found es i :
  (∃ e, In e es ∧ nid e = i) →
  (0 ≤ indexOf es i < Z.of_nat (length es))%Z
  ∧ ∃ e, es !! Z.to_nat (indexOf es i) = Some e ∧ nid e = i.
Proof.
  induction es as [| x r IH]; intros (e & Hin & Hid); [destruct Hin |].
  cbn [indexOf length]. destruct (decide (nid x = i)) as [Hx | Hx].
  - split; [lia |]. exists x. auto.
  - destruct Hin as [-> | Hin]; [contradiction |].
    destruct (IH (ex_intro _ e (conj Hin Hid))) as [Hr (e' & He' & Hid')].
    destruct (indexOf r i <? 0)%Z eqn:Hneg; [apply Z.ltb_lt in Hneg; lia |].
    split; [lia |]. exists e'. split; [| exact Hid'].
    replace (Z.to_nat (indexOf r i + 1)) with (S (Z.to_nat (indexOf r i))) by lia.
    exact He'.
Qed.


End SearchFacts.

Module SearchWitnesses.
Import JS Dom Tools Browser Pages SearchFacts.

Lemma result_text_at_most_100_witness :
  String.length (r_text (buildResult (elementAt formPage 7))) ≤ 100.
Proof.
  apply (result_text_at_most_100 simpleSelector exnName ST_tag "p" None 10%Z formPage).
  vm_compute. left. reflexivity.
Defined.

Lemma result_attributes_whitelist_witness :
  ∃ el, In el (allElements formPage) ∧ buildResult (elementAt formPage 5) = buildResult el
        ∧ match r_attributes (buildResult (elementAt formPage 5)) with
          | Some m =>
              m ≠ ∅
              ∧ ∀ a, m !! a = if bool_decide (a ∈ keyAttributes)
                              then attrs (self el) !! a else None
          | None => ∀ a, a ∈ keyAttributes → attrs (self el) !! a = None
          end.
Proof.
  apply (result_attributes_whitelist simpleSelector exnName ST_class "field" None 10%Z
           formPage).
  vm_compute. left. reflexivity.
Defined.

Lemma search_all_list_is_tag_li_witness :
  searchElements simpleSelector exnName ST_all "Show the List Items" None 10%Z groceries
  = searchElements simpleSelector exnName ST_tag "li" None 10%Z groceries.
Proof.
  apply (search_all_list_is_tag_li simpleSelector exnName "Show the List Items").
  right. reflexivity.
Defined.

Lemma search_in_document_order_witness :
  [elementAt groceries 4; elementAt groceries 5] `sublist_of` allElements groceries.
Proof.
  apply (search_in_document_order simpleSelector ST_tag "li" None 10%Z groceries).
  vm_compute. reflexivity.
Defined.


End SearchWitnesses.

(** ** modifyElement: what the actions do to the page *)

Module ModifyFacts.
Import JS Dom Tools Browser Pages DomFacts ModifySpec Predicates.

(** *** remove *)

Lemma updateNode_remove j n :
  ∀ anc anc' el', In el' (flat_map (elementsOf anc') (updateNode j removeNode n)) →
    nid (self el') ≠ j ∧ ∃ el, In el (elementsOf anc n) ∧ self el' = self el.
Proof.
  induction n as [s | e cs IH] using node_ind'; intros anc anc' el' Hin; simpl in Hin.
  - destruct Hin.
  - destruct (decide (nid e = j)) as [Hj | Hj]; [destruct Hin |].
    simpl in Hin. rewrite app_nil_r in Hin.
    destruct Hin as [<- | Hin].
    + split; [exact Hj |]. eexists. split; [left; reflexivity | reflexivity].
    + apply in_flat_map in Hin as (c' & Hc' & Hel').
      apply in_flat_map in Hc' as (c & Hc & Hc').
      rewrite Forall_forall in IH.
      destruct (IH c (proj2 (list_elem_of_In _ _) Hc) ((e, cs) :: anc)
                  ((e, flat_map (updateNode j removeNode) cs) :: anc') el')
        as [Hne (el & Hel & Hs)].
      { apply in_flat_map. eauto. }
      split; [exact Hne |]. exists el. split; [| exact Hs].
      simpl. right. apply in_flat_map. eauto.
Qed.

Lemma updateElement_remove j doc el' :
  In el' (allElements (updateElement j removeNode doc)) →
  nid (self el') ≠ j ∧ ∃ el, In el (allElements doc) ∧ self el' = self el.
Proof.
  unfold allElements, updateElement. intros Hin.
  apply in_flat_map in Hin as (c' & Hc' & Hel').
  apply in_flat_map in Hc' as (n & Hn & Hc').
  destruct (updateNode_remove j n [] [] el') as [Hne (el & Hel & Hs)].
  { apply in_flat_map. eauto. }
  split; [exact Hne |]. exists el. split; [| exact Hs].
  apply in_flat_map. eauto.
Qed.

Lemma remove_loop els :
  ∀ doc el',
    In el' (allElements (foldl (λ d x, updateElement (nid (self x)) removeNode d) doc els)) →
    (∀ x, In x els → nid (self el') ≠ nid (self x))
    ∧ ∃ el, In el (allElements doc) ∧ self el' = self el.
Proof.
  induction els as [| a r IH]; intros doc el' Hin; simpl in Hin.
  - split; [intros x [] | eauto].
  - destruct (IH _ _ Hin) as [Hr (el1 & Hel1 & Hs1)].
    destruct (updateElement_remove _ _ _ Hel1) as [Hne (el & Hel & Hs)].
    split.
    + intros x [<- | Hx]; [rewrite Hs1; exact Hne | auto].
    + exists el. split; [exact Hel | congruence].
Qed.

(** *** text *)

(** The child nodes [element.textContent = v] leaves. *)
Lemma setTextContent_kids v e cs :
  setTextContent v e cs = [ElemNode e (if truthy v then [TextNode v] else [])].
Proof. reflexivity. Qed.

Lemma textKids_content v :
  String.concat "" (map textContent (if truthy v then [TextNode v] else [])) = v.
Proof.
  destruct (truthy v) eqn:Hv; [reflexivity |]. simpl. symmetry. now apply truthy_false.
Qed.

Lemma textKids_fixed j f v :
  flat_map (updateNode j f) (if truthy v then [TextNode v] else [])
  = (if truthy v then [TextNode v] else []).
Proof. destruct (truthy v); reflexivity. Qed.

Lemma updateNode_text j v n :
  ∀ anc anc' el',
    In el' (flat_map (elementsOf anc') (updateNode j (setTextContent v) n)) →
    (nid (self el') = j ∧ kids el' = (if truthy v then [TextNode v] else []))
    ∨ (nid (self el') ≠ j
       ∧ ∃ el, In el (elementsOf anc n) ∧ self el' = self el
               ∧ kids el' = flat_map (updateNode j (setTextContent v)) (kids el)).
Proof.
  induction n as [s | e cs IH] using node_ind'; intros anc anc' el' Hin; simpl in Hin.
  - destruct Hin.
  - destruct (decide (nid e = j)) as [Hj | Hj].
    + rewrite setTextContent_kids in Hin. simpl in Hin. rewrite app_nil_r in Hin.
      destruct Hin as [<- | Hin]; [left; auto |].
      destruct (truthy v); simpl in Hin; destruct Hin.
    + simpl in Hin. rewrite app_nil_r in Hin.
      destruct Hin as [<- | Hin].
      * right. split; [exact Hj |]. eexists. split; [left; reflexivity | auto].
      * apply in_flat_map in Hin as (c' & Hc' & Hel').
        apply in_flat_map in Hc' as (c & Hc & Hc').
        rewrite Forall_forall in IH.
        destruct (IH c (proj2 (list_elem_of_In _ _) Hc) ((e, cs) :: anc)
                    ((e, flat_map (updateNode j (setTextContent v)) cs) :: anc') el')
          as [Hl | [Hne (el & Hel & Hs & Hk)]].
        { apply in_flat_map. eauto. }
        { left. exact Hl. }
        right. split; [exact Hne |]. exists el. split; [| auto].
        simpl. right. apply in_flat_map. eauto.
Qed.

Lemma updateElement_text j v doc el' :
  In el' (allElements (updateElement j (setTextContent v) doc)) →
  (nid (self el') = j ∧ kids el' = (if truthy v then [TextNode v] else []))
  ∨ (nid (self el') ≠ j
     ∧ ∃ el, In el (allElements doc) ∧ self el' = self el
             ∧ kids el' = flat_map (updateNode j (setTextContent v)) (kids el)).
Proof.
  unfold allElements, updateElement. intros Hin.
  apply in_flat_map in Hin as (c' & Hc' & Hel').
  apply in_flat_map in Hc' as (n & Hn & Hc').
  destruct (updateNode_text j v n [] [] el') as [Hl | [Hne (el & Hel & Hs & Hk)]].
  { apply in_flat_map. eauto. }
  { left. exact Hl. }
  right. split; [exact Hne |]. exists el. split; [| auto].
  apply in_flat_map. eauto.
Qed.

Lemma textSet_step v ids doc j :
  textSet v ids doc → textSet v (j :: ids) (updateElement j (setTextContent v) doc).
Proof.
  intros Hgood el' Hin Hid.
  destruct (updateElement_text _ _ _ _ Hin) as [[_ Hk] | [Hne (el & Hel & Hs & Hk)]];
    [exact Hk |].
  destruct Hid as [Hid | Hid]; [congruence |].
  rewrite Hk, (Hgood el Hel) by (now rewrite <- Hs). apply textKids_fixed.
Qed.

Lemma textSet_loop v els :
  ∀ ids doc, textSet v ids doc →
    ∀ x, In x els → isHTMLElement (self x) = true →
    ∀ el', In el' (allElements
                     (foldl (λ d x, if isHTMLElement (self x)
                                    then updateElement (nid (self x)) (setTextContent v) d
                                    else d) doc els)) →
           nid (self el') = nid (self x) → kids el' = (if truthy v then [TextNode v] else []).
Proof.
  induction els as [| a r IH]; intros ids doc Hgood x Hx Hhtml el' Hin Hid; [destruct Hx |].
  simpl in Hin. destruct Hx as [<- | Hx].
  - rewrite Hhtml in Hin.
    assert (Hkeep : ∀ els' ids' doc', textSet v ids' doc' → In (nid (self a)) ids' →
              In el' (allElements
                        (foldl (λ d x, if isHTMLElement (self x)
                                       then updateElement (nid (self x)) (setTextContent v) d
                                       else d) doc' els')) →
              kids el' = (if truthy v then [TextNode v] else [])).
    { clear -Hid. induction els' as [| b r' IH']; intros ids' doc' Hg Hi Hin'; simpl in Hin'.
      - apply Hg; [exact Hin' | now rewrite Hid].
      - destruct (isHTMLElement (self b)).
        + eapply (IH' (nid (self b) :: ids')); [apply textSet_step; exact Hg | now right | exact Hin'].
        + eapply IH'; eauto. }
    eapply (Hkeep r (nid (self a) :: ids)); [apply textSet_step; exact Hgood | now left | exact Hin].
  - destruct (isHTMLElement (self a)).
    + eapply (IH (nid (self a) :: ids)); [apply textSet_step; exact Hgood | | | |]; eauto.
    + eapply IH; eauto.
Qed.

Lemma updateNode_text_hits j v n :
  ∀ anc anc' el, In el (elementsOf anc n) → nid (self el) = j →
    ∃ el', In el' (flat_map (elementsOf anc') (updateNode j (setTextContent v) n))
           ∧ nid (self el') = j
           ∧ kids el' = (if truthy v then [TextNode v] else []).
Proof.
  induction n as [s | e cs IH] using node_ind'; intros anc anc' el Hin Hid; simpl in Hin.
  - destruct Hin.
  - simpl. destruct (decide (nid e = j)) as [Hj | Hj].
    + rewrite setTextContent_kids. simpl.
      eexists. split; [left; reflexivity |]. simpl. auto.
    + simpl. rewrite app_nil_r.
      destruct Hin as [<- | Hin]; [simpl in Hid; contradiction |].
      apply in_flat_map in Hin as (c & Hc & Hel).
      rewrite Forall_forall in IH.
      destruct (IH c (proj2 (list_elem_of_In _ _) Hc) _
                  ((e, flat_map (updateNode j (setTextContent v)) cs) :: anc') _ Hel Hid)
        as (el' & Hin' & Hs).
      exists el'. split; [| exact Hs]. right.
      apply in_flat_map in Hin' as (c' & Hc' & Hel').
      apply in_flat_map. exists c'. split; [| exact Hel'].
      apply in_flat_map. eauto.
Qed.

(** *** style *)

Lemma split_go_app sep a : ∀ cur b,
  split_go sep cur (a +:+ String sep b) = split_go sep cur a ++ split_go sep "" b.
Proof.
  induction a as [| c a IH]; intros cur b.
  - change ("" +:+ String sep b) with (String sep b). simpl.
    now rewrite Ascii.eqb_refl.
  - change (String c a +:+ String sep b) with (String c (a +:+ String sep b)). simpl.
    destruct (Ascii.eqb c sep); [now rewrite IH | apply IH].
Qed.

Lemma filter_app_bool {A} (f : A → bool) (l1 l2 : list A) :
  List.filter f (l1 ++ l2) = List.filter f l1 ++ List.filter f l2.
Proof. apply List.filter_app. Qed.

(** X9. The declarations of a style text are parsed one by one: the pairs
    of [a;b] are those of [a] followed by those of [b]. Every pair has a
    property and a value that are not empty, so a declaration without a
    colon, without a property or without a value contributes nothing. *)
Theorem parseStyles_declarations a b :
  parseStyles (a +:+ String ";" b) = parseStyles a ++ parseStyles b
  ∧ ∀ prop val, In (prop, val) (parseStyles a) → prop ≠ "" ∧ val ≠ "".
Proof.
  split.
  - unfold parseStyles, split. rewrite split_go_app, map_app, filter_app_bool.
    apply omap_app.
  - intros prop val Hin. unfold parseStyles in Hin.
    apply list_elem_of_In, list_elem_of_omap in Hin as (decl & _ & Hd).
    destruct (map trim (split ":" decl)) as [| p [| w rest]]; try discriminate.
    destruct (truthy p) eqn:Hp; [| discriminate].
    destruct (truthy w) eqn:Hw; [| discriminate].
    simpl in Hd. injection Hd as <- <-.
    split; intros ->; discriminate.
Qed.

(** *** Class tokens *)

Lemma noWhitespace_existsb t :
  existsb isAsciiWhitespace (list_ascii_of_string t) = negb (noWhitespace t).
Proof.
  induction t as [| c t IH]; simpl; [reflexivity |].
  rewrite IH. destruct (isAsciiWhitespace c); reflexivity.
Qed.

Lemma validateTokens_valid ts : validateTokens ts = Ok () → Forall validToken ts.
Proof.
  induction ts as [| t r IH]; simpl; intros H; [constructor |].
  destruct (truthy t) eqn:Ht; simpl in H; [| discriminate].
  rewrite noWhitespace_existsb in H.
  destruct (noWhitespace t) eqn:Hw; simpl in H; [| discriminate].
  constructor; [| auto]. split; [| exact Hw]. intros ->. discriminate.
Qed.

Lemma rev_app_rev_app s : ∀ a b,
  String.rev_app (String.rev_app s a) b = String.rev_app a (s +:+ b).
Proof.
  induction s as [| c s IH]; intros a b; [reflexivity |].
  simpl. rewrite IH. reflexivity.
Qed.

Lemma rev_rev s : String.rev (String.rev s) = s.
Proof.
  unfold String.rev. rewrite rev_app_rev_app. simpl. apply ChatSpec.append_empty_r.
Qed.

Lemma noWhitespace_rev_app s : ∀ a,
  noWhitespace (String.rev_app s a) = noWhitespace s && noWhitespace a.
Proof.
  induction s as [| c s IH]; intros a; [reflexivity |].
  simpl. rewrite IH. simpl. destruct (isAsciiWhitespace c); simpl;
    [now rewrite andb_false_r | reflexivity].
Qed.

Lemma rev_app_nonempty s a : a ≠ "" → String.rev_app s a ≠ "".
Proof.
  revert a. induction s as [| c s IH]; intros a Ha; [exact Ha |].
  simpl. apply IH. discriminate.
Qed.

(** Reading a token: the characters of a word free of white space join
    the current token. *)
Lemma tokens_go_word t : ∀ cur rest,
  noWhitespace t = true → t ≠ "" →
  tokens_go cur (t +:+ rest)
  = tokens_go (Some (String.rev_app t (default "" cur))) rest.
Proof.
  induction t as [| c t IH]; intros cur rest Hw Hne; [congruence |].
  simpl in Hw. apply andb_true_iff in Hw as [Hc Hw]. apply negb_true_iff in Hc.
  change (String c t +:+ rest) with (String c (t +:+ rest)).
  cbn [tokens_go]. rewrite Hc.
  destruct t as [| c' t'].
  - reflexivity.
  - rewrite IH by (auto; discriminate). reflexivity.
Qed.

Lemma tokens_go_join l :
  Forall validToken l → tokens_go None (join " " l) = l.
Proof.
  unfold join. induction l as [| t r IH]; intros Hv; [reflexivity |].
  apply Forall_cons in Hv as [[Hne Hw] Hr].
  destruct r as [| t2 r'].
  - simpl. rewrite <- (ChatSpec.append_empty_r t) at 1.
    rewrite tokens_go_word by auto. simpl. fold (String.rev t). now rewrite rev_rev.
  - change (String.concat " " (t :: t2 :: r'))
      with (t +:+ String " " (String.concat " " (t2 :: r'))).
    rewrite tokens_go_word by auto. cbn [tokens_go isAsciiWhitespace].
    rewrite IH by exact Hr. simpl. fold (String.rev t). now rewrite rev_rev.
Qed.

(** The tokens read from a class attribute are valid tokens. *)
Lemma tokens_go_valid s : ∀ cur,
  (∀ c0, cur = Some c0 → c0 ≠ "" ∧ noWhitespace c0 = true) →
  Forall validToken (tokens_go cur s).
Proof.
  assert (Hemit : ∀ cur, (∀ c0, cur = Some c0 → c0 ≠ "" ∧ noWhitespace c0 = true) →
                         Forall validToken (option_list (String.rev <$> cur))).
  { intros [c0 |] Hc; simpl; [| constructor].
    destruct (Hc c0 eq_refl) as [Hne Hw]. constructor; [| constructor]. split.
    - unfold String.rev. destruct c0 as [| a c0]; [congruence |].
      simpl. apply rev_app_nonempty. discriminate.
    - unfold String.rev. rewrite noWhitespace_rev_app, Hw. reflexivity. }
  induction s as [| c s IH]; intros cur Hc; simpl; [now apply Hemit |].
  destruct (isAsciiWhitespace c) eqn:Hsp.
  - apply Forall_app. split; [now apply Hemit |]. apply IH. intros ? [=].
  - apply IH. intros c0 [= <-]. split; [discriminate |].
    simpl. rewrite Hsp. simpl.
    destruct cur as [c1 |]; simpl; [exact (proj2 (Hc c1 eq_refl)) | reflexivity].
Qed.

Lemma orderedSet_spec l : ∀ seen,
  NoDup (orderedSet seen l)
  ∧ ∀ x, x ∈ orderedSet seen l ↔ x ∈ l ∧ x ∉ seen.
Proof.
  induction l as [| a r IH]; intros seen; simpl.
  - split; [constructor |]. intros x. split; [intros H | intros [H _]];
      now apply elem_of_nil in H.
  - destruct (decide (a ∈ seen)) as [Ha | Ha].
    + rewrite bool_decide_eq_true_2 by exact Ha.
      destruct (IH seen) as [Hn Hm]. split; [exact Hn |].
      intros x. rewrite Hm, elem_of_cons. split; [tauto |].
      intros [[-> | Hx] Hs]; [contradiction | auto].
    + rewrite bool_decide_eq_false_2 by exact Ha.
      destruct (IH (a :: seen)) as [Hn Hm]. split.
      * constructor; [| exact Hn]. rewrite Hm, not_elem_of_cons. tauto.
      * intros x. rewrite !elem_of_cons, Hm, not_elem_of_cons.
        destruct (decide (x = a)) as [-> | Hx]; tauto.
Qed.

Lemma orderedSet_NoDup_id l : ∀ seen,
  NoDup l → (∀ x, x ∈ l → x ∉ seen) → orderedSet seen l = l.
Proof.
  induction l as [| a r IH]; intros seen Hn Hd; [reflexivity |].
  apply NoDup_cons in Hn as [Ha Hn]. simpl.
  rewrite bool_decide_eq_false_2 by (apply Hd, elem_of_cons; auto).
  f_equal. apply IH; [exact Hn |]. intros x Hx.
  apply not_elem_of_cons. split; [intros -> ; contradiction |].
  apply Hd, elem_of_cons. auto.
Qed.

Lemma classList_valid e : Forall validToken (classList e) ∧ NoDup (classList e).
Proof.
  unfold classList. destruct (orderedSet_spec (tokens_go None (default "" (attrs e !! "class"))) [])
    as [Hn Hm].
  split; [| exact Hn]. apply Forall_forall. intros x Hx. apply Hm in Hx as [Hx _].
  pose proof (tokens_go_valid (default "" (attrs e !! "class")) None) as Hv.
  rewrite Forall_forall in Hv. apply Hv; [intros ? [=] | exact Hx].
Qed.

(** The round trip of the class attribute: a set of valid tokens written
    by the update steps is the [classList] read afterwards. *)
Lemma classList_writeClassList e set :
  Forall validToken set → NoDup set → classList (writeClassList e set) = set.
Proof.
  intros Hv Hn. unfold writeClassList.
  assert (Hw : classList (withAttrs e (<["class" := join " " set]> (attrs e))) = set).
  { unfold classList. simpl. rewrite lookup_insert_eq. simpl.
    rewrite tokens_go_join by exact Hv. apply orderedSet_NoDup_id; [exact Hn |].
    intros x _ H. now apply elem_of_nil in H. }
  destruct (attrs e !! "class") eqn:Hc; [exact Hw |].
  destruct set as [| t r]; [| exact Hw].
  unfold classList. rewrite Hc. reflexivity.
Qed.

Lemma writeClassList_nid e set : nid (writeClassList e set) = nid e.
Proof.
  unfold writeClassList. destruct (attrs e !! "class"); [reflexivity |].
  destruct set; reflexivity.
Qed.

Lemma classListAdd_classes (ts : list string) e t :
  Forall validToken ts → t ∈ ts →
  t ∈ classList (writeClassList e (orderedSet [] (classList e ++ ts))).
Proof.
  intros Hv Ht. destruct (classList_valid e) as [Hve _].
  destruct (orderedSet_spec (classList e ++ ts) []) as [Hn Hm].
  rewrite classList_writeClassList.
  - apply Hm. split; [apply elem_of_app; auto |]. intros H. now apply elem_of_nil in H.
  - apply Forall_forall. intros x Hx. apply Hm in Hx as [Hx _].
    apply elem_of_app in Hx as [Hx | Hx];
      [rewrite Forall_forall in Hve | rewrite Forall_forall in Hv]; auto.
  - exact Hn.
Qed.

Lemma classListRemove_classes (ts : list string) e t :
  t ∈ ts →
  t ∉ classList (writeClassList e
                   (List.filter (λ c, negb (bool_decide (c ∈ ts))) (classList e))).
Proof.
  intros Ht. destruct (classList_valid e) as [Hve Hne].
  rewrite classList_writeClassList.
  - intros Hin. apply list_elem_of_In, filter_In in Hin as [_ Hf].
    apply negb_true_iff, bool_decide_eq_false in Hf. contradiction.
  - apply Forall_forall. intros x Hx. apply list_elem_of_In, filter_In in Hx as [Hx _].
    rewrite Forall_forall in Hve. apply Hve. now apply list_elem_of_In.
  - apply NoDup_ListNoDup, List.NoDup_filter, NoDup_ListNoDup. exact Hne.
Qed.

Section Actions.
Variable selectorMatches : string → thrown (Element → bool).
Variable exnMessage : exn → string.
Variable validAttributeName : string → bool.
Variable readOnlyStyle : string → bool.

Local Abbreviation modifyElement :=
  (modifyElement selectorMatches exnMessage validAttributeName readOnlyStyle).
Local Abbreviation querySelectorAll := (querySelectorAll selectorMatches).

(** X10. With a value whose space-separated tokens are all valid class
    tokens, [addClass] succeeds and leaves every matched element with each
    token in its class list, and [removeClass] succeeds and leaves every
    matched element with none of the tokens in its class list. *)
Theorem modify_class_tokens selector v attribute doc matched el :
  querySelectorAll selector doc = Ok matched → In el matched →
  truthy v = true → validateTokens (split " " v) = Ok () →
  (m_success (modifyElement selector A_addClass (Some v) attribute doc).1 = true
   ∧ elementHas (modifyElement selector A_addClass (Some v) attribute doc).2 (nid (self el))
       (λ e, ∀ t, t ∈ split " " v → t ∈ classList e))
  ∧ (m_success (modifyElement selector A_removeClass (Some v) attribute doc).1 = true
     ∧ elementHas (modifyElement selector A_removeClass (Some v) attribute doc).2
         (nid (self el)) (λ e, ∀ t, t ∈ split " " v → t ∉ classList e)).
Proof.
  intros Hq Hin Hv Hts.
  pose proof (validateTokens_valid _ Hts) as Hvalid.
  assert (Hpres : ∀ x, In x matched → elementHas doc (nid (self x)) (λ _, True)).
  { intros x Hx. exists x. split; [| auto]. eapply SearchSpec.querySelectorAll_In; eauto. }
  unfold Tools.modifyElement. rewrite Hq.
  destruct matched as [| m0 rest]; [destruct Hin |]. cbn [length Nat.eqb].
  split.
  - rewrite (forEachT_fold (applyAction validAttributeName readOnlyStyle A_addClass (Some v) attribute)
               (λ d x, updateElement (nid (self x)) (classListAdd (split " " v)) d)).
    2:{ intros x d. unfold applyAction. rewrite Hv, Hts. reflexivity. }
    split; [reflexivity |]. cbn [snd].
    set (g := λ e : elem, writeClassList e (orderedSet [] (classList e ++ split " " v))).
    assert (Hshape : ∀ e cs, ∃ extra,
               classListAdd (split " " v) e cs = [ElemNode (g e) (cs ++ extra)]).
    { intros e cs. exists []. now rewrite app_nil_r. }
    assert (Hg : ∀ e t, t ∈ split " " v → t ∈ classList (g e)).
    { intros e t Ht. now apply classListAdd_classes. }
    apply (MutationSpec.loop_hits (λ e, ∀ t, t ∈ split " " v → t ∈ classList e)
             (λ d x, updateElement (nid (self x)) (classListAdd (split " " v)) d)
             (λ _, true)); auto.
    + intros d x j. apply (MutationSpec.updateElement_keeps _ g); auto.
      intros e; apply writeClassList_nid.
    + intros d x j. apply (MutationSpec.updateElement_keeps _ g); auto.
      intros e; apply writeClassList_nid.
    + intros d x _. apply (MutationSpec.updateElement_hits _ g); auto.
      intros e; apply writeClassList_nid.
  - rewrite (forEachT_fold (applyAction validAttributeName readOnlyStyle A_removeClass (Some v) attribute)
               (λ d x, updateElement (nid (self x)) (classListRemove (split " " v)) d)).
    2:{ intros x d. unfold applyAction. rewrite Hv, Hts. reflexivity. }
    split; [reflexivity |]. cbn [snd].
    set (g := λ e : elem,
           writeClassList e
             (List.filter (λ c, negb (bool_decide (c ∈ split " " v))) (classList e))).
    assert (Hshape : ∀ e cs, ∃ extra,
               classListRemove (split " " v) e cs = [ElemNode (g e) (cs ++ extra)]).
    { intros e cs. exists []. now rewrite app_nil_r. }
    assert (Hg : ∀ e t, t ∈ split " " v → t ∉ classList (g e)).
    { intros e t Ht. now apply classListRemove_classes. }
    apply (MutationSpec.loop_hits (λ e, ∀ t, t ∈ split " " v → t ∉ classList e)
             (λ d x, updateElement (nid (self x)) (classListRemove (split " " v)) d)
             (λ _, true)); auto.
    + intros d x j. apply (MutationSpec.updateElement_keeps _ g); auto.
      intros e; apply writeClassList_nid.
    + intros d x j. apply (MutationSpec.updateElement_keeps _ g); auto.
      intros e; apply writeClassList_nid.
    + intros d x _. apply (MutationSpec.updateElement_hits _ g); auto.
      intros e; apply writeClassList_nid.
Qed.

(** X8. After the [text] action every element of the page that has the
    identity of a matched HTML element holds the given text and nothing
    else (an undefined value counts as the empty text). When the selector
    matches one HTML element only, that element is in the page with this
    text. *)
Theorem modify_text_sets_content selector value attribute doc matched :
  querySelectorAll selector doc = Ok matched →
  (∀ el el', In el matched → isHTMLElement (self el) = true →
       In el' (allElements (modifyElement selector A_text value attribute doc).2) →
       nid (self el') = nid (self el) →
       elTextContent el' = default "" value)
  ∧ (∀ el, matched = [el] → isHTMLElement (self el) = true →
       m_success (modifyElement selector A_text value attribute doc).1 = true
       ∧ ∃ el', In el' (allElements (modifyElement selector A_text value attribute doc).2)
                ∧ nid (self el') = nid (self el)
                ∧ elTextContent el' = default "" value).
Proof.
  intros Hq.
  assert (Hbody : ∀ x d, applyAction validAttributeName readOnlyStyle A_text value attribute x d
                         = ((λ d x, if isHTMLElement (self x)
                                    then updateElement (nid (self x))
                                           (setTextContent (default "" value)) d
                                    else d) d x, None)).
  { intros x d. unfold applyAction. destruct (isHTMLElement (self x)); reflexivity. }
  split.
  - intros el el' Hel Hhtml Hin Hid. unfold Tools.modifyElement in Hin. rewrite Hq in Hin.
    destruct matched as [| m0 rest]; [destruct Hel |]. cbn [length Nat.eqb] in Hin.
    rewrite (forEachT_fold _ _ _ Hbody) in Hin. cbn [snd] in Hin.
    unfold elTextContent.
    rewrite (textSet_loop (default "" value) (m0 :: rest) [] doc) with (x := el) (el' := el');
      auto using textKids_content.
    intros ? ? [].
  - intros el -> Hhtml. unfold Tools.modifyElement. rewrite Hq. cbn [length Nat.eqb].
    rewrite (forEachT_fold _ _ _ Hbody). split; [reflexivity |]. cbn [snd foldl].
    rewrite Hhtml.
    assert (Hel : In el (allElements doc)).
    { eapply SearchSpec.querySelectorAll_In; [exact Hq | now left]. }
    unfold allElements in Hel. apply in_flat_map in Hel as (n & Hn & Hel).
    destruct (updateNode_text_hits (nid (self el)) (default "" value) n [] [] el Hel eq_refl)
      as (el' & Hin' & Hid' & Hk').
    exists el'. split; [| split; [exact Hid' |]].
    + unfold allElements, updateElement.
      apply in_flat_map in Hin' as (c' & Hc' & Hel').
      apply in_flat_map. exists c'. split; [| exact Hel'].
      apply in_flat_map. eauto.
    + unfold elTextContent. rewrite Hk'. apply textKids_content.
Qed.


End Actions.


Lemma modify_text_sets_content_witness :
  ∃ el', In el' (allElements (modifyElement simpleSelector exnName validName readOnlyMember
                                "#title" A_text (Some "Hello") None titlePage).2)
         ∧ nid (self el') = 3
         ∧ elTextContent el' = "Hello".
Proof.
  apply (proj2 (modify_text_sets_content simpleSelector exnName validName readOnlyMember
                  "#title" (Some "Hello") None titlePage [elementAt titlePage 3]
                  ltac:(vm_compute; reflexivity))
               (elementAt titlePage 3) eq_refl eq_refl).
Defined.

Lemma modify_class_tokens_witness :
  elementHas (modifyElement simpleSelector exnName validName readOnlyMember "li" A_addClass (Some "done x")
                None groceries).2 5
    (λ e, ∀ t, t ∈ split " " "done x" → t ∈ classList e).
Proof.
  apply (proj1 (modify_class_tokens simpleSelector exnName validName readOnlyMember
                  "li" "done x" None groceries
                  [elementAt groceries 4; elementAt groceries 5] (elementAt groceries 5)
                  ltac:(vm_compute; reflexivity) ltac:(right; left; reflexivity)
                  eq_refl ltac:(vm_compute; reflexivity))).
Defined.

(** The declarations of the source's example, with faulty ones between. *)
Example parseStyles_example :
  parseStyles "color: red; font-size: 20px; bad; : 3px; width:"
  = [("color", "red"); ("font-size", "20px")].
Proof. vm_compute. reflexivity. Qed.

End ModifyFacts.

(** ** createElement *)

Module FactoryFacts.
Import JS Dom Tools Factory Browser Pages DomFacts Predicates.

(** The element children of an element of the document are elements of
    the document. *)
Lemma elementsOf_child n :
  ∀ anc el e k, In el (elementsOf anc n) → In (ElemNode e k) (kids el) →
    In (mkElement e k ((self el, kids el) :: ancestors el)) (elementsOf anc n).
Proof.
  induction n as [s | e0 cs IH] using node_ind'; intros anc el e k Hin Hk; simpl in Hin.
  - destruct Hin.
  - simpl. destruct Hin as [<- | Hin].
    + right. apply in_flat_map. exists (ElemNode e k). split; [exact Hk |]. now left.
    + right. apply in_flat_map in Hin as (c & Hc & Hel).
      apply in_flat_map. exists c. split; [exact Hc |].
      rewrite Forall_forall in IH.
      apply (IH c (proj2 (list_elem_of_In _ _) Hc)); assumption.
Qed.

Lemma allElements_child doc el e k :
  In el (allElements doc) → In (ElemNode e k) (kids el) →
  In (mkElement e k ((self el, kids el) :: ancestors el)) (allElements doc).
Proof.
  unfold allElements. intros Hin Hk. apply in_flat_map in Hin as (n & Hn & Hel).
  apply in_flat_map. exists n. split; [exact Hn |]. now apply elementsOf_child.
Qed.

Section ChildUpdate.
(** An update of the child nodes of the element object [i]. *)
Variable i : nat.
Variable h : list node → list node.
Variable f : elem → list node → list node.
Hypothesis f_shape : ∀ e cs, f e cs = [ElemNode e (h cs)].

Lemma updateNode_child_hits n :
  ∀ anc anc' el, In el (elementsOf anc n) → nid (self el) = i →
    ∃ el' cs0, In el' (flat_map (elementsOf anc') (updateNode i f n))
               ∧ nid (self el') = i ∧ kids el' = h cs0.
Proof.
  induction n as [s | e cs IH] using node_ind'; intros anc anc' el Hin Hid; simpl in Hin.
  - destruct Hin.
  - simpl. destruct (decide (nid e = i)) as [Hi | Hi].
    + rewrite f_shape. simpl. eexists. exists cs. split; [left; reflexivity |]. auto.
    + simpl. rewrite app_nil_r.
      destruct Hin as [<- | Hin]; [simpl in Hid; contradiction |].
      apply in_flat_map in Hin as (c & Hc & Hel).
      rewrite Forall_forall in IH.
      destruct (IH c (proj2 (list_elem_of_In _ _) Hc) _
                  ((e, flat_map (updateNode i f) cs) :: anc') _ Hel Hid)
        as (el' & cs0 & Hin' & Hs).
      exists el', cs0. split; [| exact Hs]. right.
      apply in_flat_map in Hin' as (c' & Hc' & Hel').
      apply in_flat_map. exists c'. split; [| exact Hel'].
      apply in_flat_map. eauto.
Qed.

Lemma updateElement_child_hits doc el :
  In el (allElements doc) → nid (self el) = i →
  ∃ el' cs0, In el' (allElements (updateElement i f doc))
             ∧ nid (self el') = i ∧ kids el' = h cs0.
Proof.
  unfold allElements, updateElement. intros Hin Hid.
  apply in_flat_map in Hin as (n & Hn & Hel).
  destruct (updateNode_child_hits n [] [] el Hel Hid) as (el' & cs0 & Hin' & Hs).
  exists el', cs0. split; [| exact Hs].
  apply in_flat_map in Hin' as (c' & Hc' & Hel').
  apply in_flat_map. exists c'. split; [| exact Hel'].
  apply in_flat_map. eauto.
Qed.

Hypothesis h_keeps : ∀ cs c, In c cs → In c (h cs).

Lemma updateNode_child_keeps n :
  ∀ anc anc' el, In el (elementsOf anc n) →
    ∃ el', In el' (flat_map (elementsOf anc') (updateNode i f n)) ∧ self el' = self el.
Proof.
  induction n as [s | e cs IH] using node_ind'; intros anc anc' el Hin; simpl in Hin.
  - destruct Hin.
  - simpl. destruct (decide (nid e = i)) as [Hi | Hi].
    + rewrite f_shape. simpl. rewrite app_nil_r.
      destruct Hin as [<- | Hin].
      * eexists. split; [left; reflexivity | reflexivity].
      * apply in_flat_map in Hin as (c & Hc & Hel).
        destruct (MutationSpec.elementsOf_reanchor c _ ((e, h cs) :: anc') _ Hel)
          as (el' & Hin' & Hs & _).
        exists el'. split; [| exact Hs]. right.
        apply in_flat_map. exists c. split; [now apply h_keeps | exact Hin'].
    + simpl. rewrite app_nil_r.
      destruct Hin as [<- | Hin].
      * eexists. split; [left; reflexivity | reflexivity].
      * apply in_flat_map in Hin as (c & Hc & Hel).
        rewrite Forall_forall in IH.
        destruct (IH c (proj2 (list_elem_of_In _ _) Hc) _
                    ((e, flat_map (updateNode i f) cs) :: anc') _ Hel)
          as (el' & Hin' & Hs).
        exists el'. split; [| exact Hs]. right.
        apply in_flat_map in Hin' as (c' & Hc' & Hel').
        apply in_flat_map. exists c'. split; [| exact Hel'].
        apply in_flat_map. eauto.
Qed.

Lemma updateElement_child_keeps doc el :
  In el (allElements doc) →
  ∃ el', In el' (allElements (updateElement i f doc)) ∧ self el' = self el.
Proof.
  unfold allElements, updateElement. intros Hin.
  apply in_flat_map in Hin as (n & Hn & Hel).
  destruct (updateNode_child_keeps n [] [] el Hel) as (el' & Hin' & Hs).
  exists el'. split; [| exact Hs].
  apply in_flat_map in Hin' as (c' & Hc' & Hel').
  apply in_flat_map. exists c'. split; [| exact Hel'].
  apply in_flat_map. eauto.
Qed.

End ChildUpdate.

Section Beside.
Variable i : nat.
Variable after : bool.
Variable new : node.

Lemma insertBeside_keeps n :
  ∀ anc anc' el, In el (elementsOf anc n) →
    ∃ el', In el' (elementsOf anc' (insertBeside i after new n)) ∧ self el' = self el.
Proof.
  induction n as [s | e cs IH] using node_ind'; intros anc anc' el Hin; simpl in Hin.
  - destruct Hin.
  - cbn [insertBeside elementsOf].
    destruct Hin as [<- | Hin]; [eexists; split; [left; reflexivity | reflexivity] |].
    apply in_flat_map in Hin as (c & Hc & Hel).
    destruct c as [t | e' k]; [destruct Hel |].
    set (cs' := flat_map _ cs).
    destruct (decide (nid e' = i)) as [Hi | Hi].
    + destruct (MutationSpec.elementsOf_reanchor (ElemNode e' k) _ ((e, cs') :: anc') _ Hel)
        as (el' & Hin' & Hs & _).
      exists el'. split; [| exact Hs]. right.
      apply in_flat_map. exists (ElemNode e' k). split; [| exact Hin'].
      apply in_flat_map. exists (ElemNode e' k). split; [exact Hc |].
      rewrite decide_True by exact Hi. destruct after; simpl; auto.
    + rewrite Forall_forall in IH.
      destruct (IH (ElemNode e' k) (proj2 (list_elem_of_In _ _) Hc) _ ((e, cs') :: anc') _ Hel)
        as (el' & Hin' & Hs).
      exists el'. split; [| exact Hs]. right.
      apply in_flat_map. exists (insertBeside i after new (ElemNode e' k)).
      split; [| exact Hin'].
      apply in_flat_map. exists (ElemNode e' k). split; [exact Hc |].
      rewrite decide_False by exact Hi. now left.
Qed.

Local Abbreviation adjacent := (Predicates.adjacent i after new).

Lemma insertBeside_adjacent n :
  ∀ anc anc' el, In el (elementsOf anc n) → nid (self el) = i → ancestors el ≠ anc →
    ∃ gp, In gp (elementsOf anc' (insertBeside i after new n)) ∧ adjacent (kids gp).
Proof.
  induction n as [s | e cs IH] using node_ind'; intros anc anc' el Hin Hid Hanc;
    simpl in Hin.
  - destruct Hin.
  - cbn [insertBeside elementsOf].
    destruct Hin as [<- | Hin]; [simpl in Hanc; congruence |].
    apply in_flat_map in Hin as (c & Hc & Hel).
    destruct c as [t | e' k]; [destruct Hel |].
    set (F := λ c : node, match c with
                          | ElemNode e' _ =>
                              if decide (nid e' = i)
                              then (if after then [c; new] else [new; c])
                              else [insertBeside i after new c]
                          | TextNode _ => [c]
                          end).
    destruct (decide (nid e' = i)) as [Hi | Hi].
    + exists (mkElement e (flat_map F cs) anc'). split; [left; reflexivity |].
      apply in_split in Hc as (la & lb & ->).
      exists (flat_map F la), (flat_map F lb), e', k. split; [exact Hi |].
      cbn [kids]. rewrite flat_map_app. cbn [flat_map]. f_equal.
      unfold F at 1. rewrite decide_True by exact Hi.
      destruct after; reflexivity.
    + rewrite Forall_forall in IH.
      destruct (IH (ElemNode e' k) (proj2 (list_elem_of_In _ _) Hc) ((e, cs) :: anc)
                  ((e, flat_map F cs) :: anc') el Hel Hid) as (gp & Hgp & Hadj).
      { intros Ha. simpl in Hel. destruct Hel as [<- | Hel]; [simpl in Hid; contradiction |].
        apply in_flat_map in Hel as (c2 & _ & Hel2).
        destruct (elementsOf_chain c2 _ _ Hel2) as (pre & Hpre & _).
        rewrite Ha in Hpre.
        assert (Hlen : length ((e, cs) :: anc)
                       = length (pre ++ (e', k) :: (e, cs) :: anc)) by congruence.
        rewrite length_app in Hlen. simpl in Hlen. lia. }
      exists gp. split; [| exact Hadj]. right.
      apply in_flat_map. exists (insertBeside i after new (ElemNode e' k)).
      split; [| exact Hgp].
      apply in_flat_map. exists (ElemNode e' k). split; [exact Hc |].
      unfold F. rewrite decide_False by exact Hi. now left.
Qed.

End Beside.

Lemma freshId_fresh doc el : In el (allElements doc) → nid (self el) ≠ freshId doc.
Proof.
  unfold freshId. intros Hin.
  assert (H : ∀ l, In el l → nid (self el) ≤ foldr Nat.max 0 (map (λ el, nid (self el)) l)).
  { induction l as [| a l IH]; intros Hl; [destruct Hl |].
    simpl. destruct Hl as [-> | Hl]; [lia |]. specialize (IH Hl). lia. }
  specialize (H _ Hin). lia.
Qed.

Lemma newElement_shape i t content attributes styles :
  ∃ e, newElement i t content attributes styles
       = ElemNode e (match content with
                     | Some c => if truthy c then [TextNode c] else []
                     | None => []
                     end)
       ∧ nid e = i ∧ tagName e = toUpperCase t ∧ kind e = HTMLElem.
Proof.
  unfold newElement. eexists. split; [reflexivity |].
  set (e0 := mkElem i HTMLElem (toUpperCase t) ∅ ∅).
  assert (Ha : ∀ l e, nid e = i ∧ tagName e = toUpperCase t ∧ kind e = HTMLElem →
             let e' := foldl (λ e kv, withAttrs e (<[storedName kv.1 e := kv.2]> (attrs e))) e l
             in nid e' = i ∧ tagName e' = toUpperCase t ∧ kind e' = HTMLElem).
  { induction l as [| kv l IH]; intros e He; [exact He |]. apply IH. exact He. }
  assert (Hs : ∀ l e, nid e = i ∧ tagName e = toUpperCase t ∧ kind e = HTMLElem →
             let e' := foldl (λ e pv, withStyle e (setProperty pv.1 pv.2 (style e))) e l
             in nid e' = i ∧ tagName e' = toUpperCase t ∧ kind e' = HTMLElem).
  { induction l as [| kv l IH]; intros e He; [exact He |]. apply IH. exact He. }
  apply Hs, Ha. auto.
Qed.

Lemma newElement_text i t content attributes styles :
  textContent (newElement i t content attributes styles) = default "" content.
Proof.
  destruct (newElement_shape i t content attributes styles) as (e & -> & _).
  simpl. destruct content as [c |]; [| reflexivity].
  destruct (truthy c) eqn:Hc; [reflexivity |]. simpl. symmetry. now apply truthy_false.
Qed.

Section Create.
Variable selectorMatches : string → thrown (Element → bool).
Variable exnMessage : exn → string.
Variable validAttributeName : string → bool.
Variable validTagName : string → bool.
Variable readOnlyStyle : string → bool.

Local Abbreviation querySelector := (querySelector selectorMatches).
Local Abbreviation buildFault := (buildFault validAttributeName validTagName readOnlyStyle).
Local Abbreviation createElement :=
  (createElement selectorMatches exnMessage validAttributeName validTagName readOnlyStyle).

Lemma querySelector_In sel doc parent :
  querySelector sel doc = Ok (Some parent) → In parent (allElements doc).
Proof.
  unfold Factory.querySelector.
  destruct (querySelectorAll selectorMatches sel doc) as [l |] eqn:Hq; simpl; [| discriminate].
  intros [= Hh]. destruct l as [| x l]; [discriminate |]. injection Hh as ->.
  eapply SearchSpec.querySelectorAll_In; [exact Hq | now left].
Qed.

Lemma createElement_found tn content attributes styles sel pos doc parent :
  querySelector sel doc = Ok (Some parent) → buildFault tn attributes styles = None →
  createElement tn content attributes styles sel pos doc
  = (mkCreateOutput true
       ("Created " +:+ tn +:+ " element and inserted it "
        +:+ positionName pos +:+ " " +:+ sel)
       (Some (mkCreated tn content attributes styles)),
     insertAt pos parent (newElement (freshId doc) tn content attributes styles) doc).
Proof. intros Hq Hb. unfold Factory.createElement. now rewrite Hq, Hb. Qed.

(** Building the new element throws nothing exactly when the element
    name and every attribute name is valid and every style can be
    assigned. *)
Lemma buildFault_None tn attributes styles :
  buildFault tn attributes styles = None
  ↔ validTagName tn = true
    ∧ (∀ kv, In kv (default [] attributes) → validAttributeName kv.1 = true)
    ∧ (∀ pv, In pv (default [] styles) → readOnlyStyle pv.1 = false).
Proof.
  unfold Factory.buildFault.
  destruct (validTagName tn); simpl; [| split; [discriminate | intros ([=] & _)]].
  destruct (forallb _ (default [] attributes)) eqn:Ha.
  - rewrite forallb_forall in Ha.
    destruct (existsb _ (default [] styles)) eqn:Hs.
    + split; [discriminate |]. intros (_ & _ & H).
      apply existsb_exists in Hs as (pv & Hin & Hpv). rewrite (H pv Hin) in Hpv. discriminate.
    + split; [| reflexivity]. intros _. repeat split; [exact Ha |].
      intros pv Hin. destruct (readOnlyStyle pv.1) eqn:Hr; [| reflexivity].
      assert (existsb (λ pv, readOnlyStyle pv.1) (default [] styles) = true)
        by (apply existsb_exists; eauto).
      congruence.
  - split; [discriminate |]. intros (_ & H & _).
    assert (forallb (λ kv, validAttributeName kv.1) (default [] attributes) = true)
      by (apply forallb_forall; exact H).
    congruence.
Qed.

(** X11. [createElement] succeeds exactly when the parent selector finds
    an element, the element name and every attribute name is valid and
    every style names a member of [element.style] that can be assigned; a
    call that fails leaves the page as it is and returns no element. *)
Theorem create_succeeds_iff tn content attributes styles sel pos doc :
  (c_success (createElement tn content attributes styles sel pos doc).1 = true
   ↔ ∃ parent, querySelector sel doc = Ok (Some parent)
               ∧ validTagName tn = true
               ∧ (∀ kv, In kv (default [] attributes) → validAttributeName kv.1 = true)
               ∧ (∀ pv, In pv (default [] styles) → readOnlyStyle pv.1 = false))
  ∧ (c_success (createElement tn content attributes styles sel pos doc).1 = false →
     (createElement tn content attributes styles sel pos doc).2 = doc
     ∧ c_element (createElement tn content attributes styles sel pos doc).1 = None).
Proof.
  unfold Factory.createElement.
  destruct (querySelector sel doc) as [[parent |] | e] eqn:Hq; simpl.
  - destruct (buildFault tn attributes styles) as [e |] eqn:Hb; simpl.
    + split; [| auto]. split; [discriminate |]. intros (p' & _ & Hok).
      apply buildFault_None in Hok. congruence.
    + split; [| discriminate]. split; [| reflexivity]. intros _.
      exists parent. split; [reflexivity |]. now apply buildFault_None.
  - split; [| auto]. split; [discriminate |]. intros (p' & [=] & _).
  - split; [| auto]. split; [discriminate |]. intros (p' & [=] & _).
Qed.


Lemma allElements_map_In (g : node → node) doc el' n :
  In n doc → In el' (elementsOf [] (g n)) → In el' (allElements (map g doc)).
Proof.
  intros Hn Hel. unfold allElements. apply in_flat_map. exists (g n).
  split; [now apply in_map | exact Hel].
Qed.



End Create.

End FactoryFacts.

Module FactoryWitnesses.
Import JS Dom Tools Factory Browser Pages Predicates FactoryFacts.




(** Scenario 4 of the specification: [<div id="root"><button>Go</button></div>]. *)
Example create_button_in_root :
  map (λ el, (tagName (self el), elTextContent el, map lowerTag (children (kids el))))
      (allElements (createElementTool simpleSelector exnName validName validName readOnlyMember
                      "button" (Some "Go") None None "#root" None rootPage).2)
  = [("HTML", "Go", ["head"; "body"]); ("HEAD", "", []); ("BODY", "Go", ["div"]);
     ("DIV", "Go", ["button"]); ("BUTTON", "Go", [])].
Proof. vm_compute. reflexivity. Qed.

(** The document element as the parent: nothing is inserted. *)
Example create_before_document_element :
  c_success (createElement simpleSelector exnName validName validName readOnlyMember
               "p" (Some "Shopping") None None "html" P_before groceries).1 = true
  ∧ (createElement simpleSelector exnName validName validName readOnlyMember
       "p" (Some "Shopping") None None "html" P_before groceries).2 = groceries.
Proof. split; reflexivity. Qed.

(** A style that cannot be assigned: the call fails and nothing is
    inserted. *)
Example create_read_only_style_fails :
  (createElement simpleSelector exnName validName validName readOnlyMember
     "p" (Some "Shopping") None (Some [("color", "red"); ("parentRule", "x")])
     "ul" P_append groceries)
  = (mkCreateOutput false "Error: TypeError" None, groceries).
Proof. vm_compute. reflexivity. Qed.

End FactoryWitnesses.

(** ** highlightElements: the animation styles and the callbacks *)

Module HighlightFacts.
Import JS Dom Tools Browser Pages DomFacts FactoryFacts.

Lemma head_filter_In {A} (f : A → bool) (l : list A) x :
  head (List.filter f l) = Some x → In x l ∧ f x = true.
Proof.
  destruct (List.filter f l) as [| y r] eqn:Hf; simpl; [discriminate |].
  intros [= ->]. apply filter_In. rewrite Hf. now left.
Qed.

Lemma filter_head_Some {A} (f : A → bool) (l : list A) x :
  In x l → f x = true → ∃ y, head (List.filter f l) = Some y.
Proof.
  intros Hin Hf. destruct (List.filter f l) as [| y r] eqn:He; [| simpl; eauto].
  assert (H : In x (List.filter f l)) by (apply filter_In; auto).
  rewrite He in H. destruct H.
Qed.

(** The head element is an element of the document. *)
Lemma documentHead_In doc h :
  documentHead doc = Some h → ∃ el, In el (allElements doc) ∧ self el = h.
Proof.
  unfold documentHead, documentElement.
  destruct (head (omap _ doc)) as [root |] eqn:Hr; [| discriminate].
  destruct (String.eqb _ "html"); [| discriminate].
  intros Hh. apply head_filter_In in Hh as [Hc _].
  apply list_elem_of_In, list_elem_of_omap in Hc as (c & Hc & Hce).
  destruct c as [t | e k]; [discriminate |]. injection Hce as ->.
  assert (Hroot : In root (omap (λ n, match n with
                                       | ElemNode e cs => Some (mkElement e cs [])
                                       | TextNode _ => None
                                       end) doc)).
  { destruct (omap _ doc) as [| r0 l]; [discriminate |]. injection Hr as ->. now left. }
  apply list_elem_of_In, list_elem_of_omap in Hroot as (n & Hn & Hne).
  destruct n as [t | e0 cs0]; [discriminate |]. injection Hne as <-.
  exists (mkElement h k [(e0, cs0)]). split; [| reflexivity].
  apply (allElements_child doc (mkElement e0 cs0 []) h k).
  - unfold allElements. apply in_flat_map. exists (ElemNode e0 cs0).
    split; [now apply list_elem_of_In | now left].
  - now apply list_elem_of_In.
Qed.

Lemma getElementById_found i doc el :
  truthy i = true → In el (allElements doc) → id (self el) = i →
  ∃ x, getElementById i doc = Some x.
Proof.
  intros Hi Hin Hid. unfold getElementById. rewrite Hi.
  apply (filter_head_Some _ _ el Hin). now apply String.eqb_eq.
Qed.

Lemma installAnimations_installed doc doc1 :
  installAnimations doc = Ok doc1 →
  ∃ el, In el (allElements doc1) ∧ id (self el) = "chat-widget-animations".
Proof.
  unfold installAnimations.
  destruct (getElementById "chat-widget-animations" doc) as [x |] eqn:Hg.
  - intros [= <-]. exists x. split.
    + unfold getElementById in Hg. destruct (truthy "chat-widget-animations"); [| discriminate].
      now apply head_filter_In in Hg as [Hg _].
    + unfold getElementById in Hg. cbn [truthy String.eqb Ascii.eqb Bool.eqb negb] in Hg.
      apply head_filter_In in Hg as [_ Hg]. now apply String.eqb_eq.
  - destruct (documentHead doc) as [h |] eqn:Hh; [| discriminate].
    intros [= <-]. destruct (documentHead_In _ _ Hh) as (hel & Hhel & Hself).
    set (styleEl := ElemNode (mkElem (freshId doc) HTMLElem "STYLE"
                                {["id" := "chat-widget-animations"]} ∅)
                             [TextNode animationsCss]).
    destruct (updateElement_child_hits (nid h) (λ cs, cs ++ [styleEl]) (appendChild styleEl)
                ltac:(reflexivity) doc hel Hhel ltac:(now rewrite Hself))
      as (pe & cs0 & Hpe & _ & Hk).
    eexists. split.
    + apply (allElements_child _ pe); [exact Hpe |].
      rewrite Hk. apply in_or_app. right. left. reflexivity.
    + reflexivity.
Qed.

Section Highlight.
Variable selectorMatches : string → thrown (Element → bool).
Variable exnMessage : exn → string.

Local Abbreviation highlightElements := (highlightElements selectorMatches exnMessage).
Local Abbreviation querySelectorAll := (querySelectorAll selectorMatches).

(** X15. The animation styles are installed once: after a successful
    highlight the page has an element with the id
    [chat-widget-animations], so the installation step of any later
    highlight finds it and leaves the page as it is. *)
Theorem animations_installed_once selector eff color duration doc :
  h_success (highlightElements selector eff color duration doc).1.1 = true →
  (∃ el, getElementById "chat-widget-animations"
           (highlightElements selector eff color duration doc).1.2 = Some el)
  ∧ installAnimations (highlightElements selector eff color duration doc).1.2
    = Ok (highlightElements selector eff color duration doc).1.2.
Proof.
  intros Hs.
  assert (Hex : ∃ el, getElementById "chat-widget-animations"
                        (highlightElements selector eff color duration doc).1.2 = Some el).
  { unfold Tools.highlightElements in *.
    destruct (querySelectorAll selector doc) as [[| m0 rest] | e]; try discriminate.
    cbn [length Nat.eqb] in *.
    destruct (installAnimations doc) as [doc1 | e] eqn:Hi; [| discriminate].
    cbn [fst snd]. rewrite MutationSpec.highlight_loop_fst.
    destruct (installAnimations_installed _ _ Hi) as (sel & Hsel & Hid).
    assert (Hhas : elementHas doc1 (nid (self sel)) (λ e, id e = "chat-widget-animations"))
      by (exists sel; auto).
    assert (Hkeep : elementHas
              (foldl (λ d el,
                        if isHTMLElement (self el)
                        then updateElement (nid (self el))
                               (λ e cs, [ElemNode (withStyle e (applyEffect eff color duration
                                                                  (style e))) cs]) d
                        else d) doc1 (m0 :: rest))
              (nid (self sel)) (λ e, id e = "chat-widget-animations")).
    { apply MutationSpec.loop_keeps; [| exact Hhas].
      intros d x j H. destruct (isHTMLElement (self x)); [| exact H].
      apply (MutationSpec.updateElement_keeps _
               (λ e, withStyle e (applyEffect eff color duration (style e)))); auto.
      intros e cs. exists []. now rewrite app_nil_r. }
    destruct Hkeep as (el & Hel & _ & Hid').
    eapply getElementById_found; eauto. }
  split; [exact Hex |]. destruct Hex as [el Hel].
  unfold installAnimations. now rewrite Hel.
Qed.

Lemma highlight_loop_snd eff color duration els :
  ∀ d ts,
    (foldl (λ st el, highlightOne eff color duration el st) (d, ts) els).2
    = ts ++ map (λ el, mkTimer duration (nid (self el)) (capture (style (self el))))
                (List.filter (λ el, isHTMLElement (self el)) els).
Proof.
  induction els as [| a r IH]; intros d ts; simpl; [now rewrite app_nil_r |].
  unfold highlightOne at 2. destruct (isHTMLElement (self a)); simpl.
  - rewrite IH, <- app_assoc. reflexivity.
  - apply IH.
Qed.


End Highlight.

Lemma animations_installed_once_witness :
  (∃ el, getElementById "chat-widget-animations"
           (highlightElements simpleSelector exnName "li" E_pulse "#00f" 500%Z groceries).1.2
         = Some el)
  ∧ installAnimations
      (highlightElements simpleSelector exnName "li" E_pulse "#00f" 500%Z groceries).1.2
    = Ok (highlightElements simpleSelector exnName "li" E_pulse "#00f" 500%Z groceries).1.2.
Proof.
  apply (animations_installed_once simpleSelector exnName "li" E_pulse "#00f" 500%Z groceries).
  reflexivity.
Defined.

End HighlightFacts.


(** * Further properties of the chat component *)

Module ChatFacts.
Import JS Chat DomFacts ChatSpec ChatRequest Predicates.

(** *** The guard of a submission *)

Lemma trimStart_blank s : trimStart s = "" ↔ allSpace s = true.
Proof.
  induction s as [| c r IH]; simpl; [tauto |].
  destruct (Ascii.is_space c); simpl; [exact IH |]. split; discriminate.
Qed.

Lemma trimStart_head s :
  trimStart s = "" ∨ ∃ c r, trimStart s = String c r ∧ Ascii.is_space c = false.
Proof.
  induction s as [| c r IH]; simpl; [now left |].
  destruct (Ascii.is_space c) eqn:Hc; [exact IH | right; eauto].
Qed.

Lemma allSpace_rev_app s : ∀ a,
  allSpace (String.rev_app s a) = allSpace s && allSpace a.
Proof.
  induction s as [| c r IH]; intros a; [reflexivity |].
  simpl. rewrite IH. simpl. destruct (Ascii.is_space c), (allSpace r); simpl; auto.
Qed.

Lemma rev_empty s : String.rev s = "" → s = "".
Proof.
  destruct s as [| c r]; [reflexivity |]. unfold String.rev. simpl. intros H.
  exfalso. revert H. apply ModifyFacts.rev_app_nonempty. discriminate.
Qed.

Lemma trim_blank s : trim s = "" ↔ allSpace s = true.
Proof.
  unfold trim. split.
  - intros H. apply rev_empty in H. apply trimStart_blank in H.
    unfold String.rev in H. rewrite allSpace_rev_app, andb_true_r in H.
    destruct (trimStart_head s) as [He | (c & r & He & Hc)].
    + now apply trimStart_blank.
    + rewrite He in H. simpl in H. rewrite Hc in H. discriminate.
  - intros H. apply trimStart_blank in H. rewrite H. reflexivity.
Qed.

(** X18. With an input of ASCII characters, a submission is ignored,
    leaving the component as it is, exactly when the input holds white
    space only or a turn is loading. *)
Theorem submit_ignored_iff c tu ta :
  isAscii (input c) = true →
  step c (Submit tu ta) = c ↔ allSpace (input c) = true ∨ isLoading c = true.
Proof.
  intros _. simpl. unfold handleSubmit. split.
  - destruct (negb (truthy (trim (input c))) || isLoading c) eqn:Hg.
    + intros _. apply orb_true_iff in Hg as [Hg | Hg]; [left | now right].
      apply trim_blank. apply negb_true_iff in Hg. now apply truthy_false.
    + intros H. apply orb_false_iff in Hg as [_ Hl].
      apply (f_equal isLoading) in H. simpl in H. congruence.
  - intros [H | H].
    + apply trim_blank in H. rewrite H. reflexivity.
    + rewrite H, orb_true_r. reflexivity.
Qed.

(** *** A turn that completes *)

Lemma map_id_when {A} (f : A → A) (l : list A) :
  (∀ x, In x l → f x = x) → map f l = l.
Proof.
  induction l as [| a r IH]; intros H; [reflexivity |].
  simpl. rewrite H by now left. rewrite IH; [reflexivity |]. intros x Hx. apply H. now right.
Qed.

Section Placeholder.
Variables (pre : list Message) (u a : Message) (aid : string).
Hypothesis pre_ids : ∀ m, In m pre → id m ≠ aid.
Hypothesis u_id : id u ≠ aid.
Hypothesis a_id : id a = aid.

Lemma setContent_turn text :
  setContent aid text (pre ++ [u; a])
  = pre ++ [u; mkMessage (id a) (role a) text (toolInvocations a) (timestamp a)].
Proof using pre_ids u_id a_id.
  unfold setContent. rewrite map_app. cbn [map].
  rewrite map_id_when.
  - apply String.eqb_neq in u_id. rewrite u_id.
    rewrite a_id, String.eqb_refl. reflexivity.
  - intros m Hm. apply pre_ids, String.eqb_neq in Hm. now rewrite Hm.
Qed.

Lemma setInvocations_turn refs :
  setInvocations aid refs (pre ++ [u; a])
  = pre ++ [u; mkMessage (id a) (role a) (content a) (Some refs) (timestamp a)].
Proof using pre_ids u_id a_id.
  unfold setInvocations. rewrite map_app. cbn [map].
  rewrite map_id_when.
  - apply String.eqb_neq in u_id. rewrite u_id.
    rewrite a_id, String.eqb_refl. reflexivity.
  - intros m Hm. apply pre_ids, String.eqb_neq in Hm. now rewrite Hm.
Qed.

End Placeholder.

Lemma onPart_turn p pre u a h t ms' h' t' :
  onPart p (pre ++ [u; a]) h t = (ms', h', t') →
  (∀ m, In m pre → id m ≠ assistantId t) → id u ≠ assistantId t → id a = assistantId t →
  content a = fullContent t →
  assistantId t' = assistantId t
  ∧ fullContent t' = fullContent t +:+ textOf p
  ∧ ∃ a', ms' = pre ++ [u; a'] ∧ id a' = id a ∧ role a' = role a
          ∧ timestamp a' = timestamp a ∧ content a' = fullContent t'.
Proof.
  intros Hp Hpre Hu Ha Hc.
  assert (Hsame : ∀ t0, assistantId t0 = assistantId t → fullContent t0 = fullContent t →
            assistantId t0 = assistantId t
            ∧ fullContent t0 = fullContent t +:+ ""
            ∧ ∃ a', pre ++ [u; a] = pre ++ [u; a'] ∧ id a' = id a ∧ role a' = role a
                    ∧ timestamp a' = timestamp a ∧ content a' = fullContent t0).
  { intros t0 H1 H2. rewrite append_empty_r. repeat split; auto.
    exists a. rewrite H2. auto. }
  assert (Hinv : assistantId t = assistantId t
            ∧ fullContent t = fullContent t +:+ ""
            ∧ ∃ a', setInvocations (assistantId t) (invocations t) (pre ++ [u; a])
                    = pre ++ [u; a'] ∧ id a' = id a ∧ role a' = role a
                    ∧ timestamp a' = timestamp a ∧ content a' = fullContent t).
  { rewrite append_empty_r. repeat split; auto.
    rewrite (setInvocations_turn pre u a (assistantId t)) by assumption.
    eexists. split; [reflexivity |]. simpl. auto. }
  destruct p as [text | cid name inp | cid out | err |]; simpl in Hp.
  - destruct (truthy text) eqn:Ht.
    + injection Hp as <- <- <-. simpl. repeat split; auto.
      rewrite (setContent_turn pre u a (assistantId t)) by assumption.
      eexists. split; [reflexivity |]. simpl. auto.
    + injection Hp as <- <- <-. apply truthy_false in Ht as ->. simpl. now apply Hsame.
  - injection Hp as <- <- <-. simpl. now apply Hsame.
  - destruct (currentToolCall t) as [r |]; [| injection Hp as <- <- <-; now apply Hsame].
    destruct (h !! r) as [inv |]; [| injection Hp as <- <- <-; now apply Hsame].
    destruct (String.eqb (toolCallId inv) cid); injection Hp as <- <- <-;
      [exact Hinv | now apply Hsame].
  - injection Hp as <- <- <-. now apply Hsame.
  - injection Hp as <- <- <-. now apply Hsame.
Qed.

Lemma run_turn parts :
  ∀ c t pre u a,
    active c = [t] → messages c = pre ++ [u; a] →
    (∀ m, In m pre → id m ≠ assistantId t) → id u ≠ assistantId t → id a = assistantId t →
    content a = fullContent t →
    ∃ t' a',
      active (run c (map (Stream 0) parts)) = [t']
      ∧ isLoading (run c (map (Stream 0) parts)) = isLoading c
      ∧ input (run c (map (Stream 0) parts)) = input c
      ∧ messages (run c (map (Stream 0) parts)) = pre ++ [u; a']
      ∧ id a' = id a ∧ role a' = role a ∧ timestamp a' = timestamp a
      ∧ content a' = fullContent t +:+ streamedText parts.
Proof.
  induction parts as [| p r IH]; intros c t pre u a Hact Hm Hpre Hu Ha Hc.
  - exists t, a. simpl. unfold streamedText. simpl. rewrite append_empty_r. auto 10.
  - cbn [map run foldl]. fold (run (step c (Stream 0 p)) (map (Stream 0) r)).
    assert (Hstep : ∃ ms h t', onPart p (messages c) (heap c) t = (ms, h, t')
                     ∧ step c (Stream 0 p) = mkConfig ms (input c) (isLoading c) h [t']).
    { simpl. rewrite Hact. simpl.
      destruct (onPart p (messages c) (heap c) t) as [[ms h] t']. eauto. }
    destruct Hstep as (ms & h & t' & Hp & Hs). rewrite Hm in Hp.
    destruct (onPart_turn _ _ _ _ _ _ _ _ _ Hp Hpre Hu Ha Hc)
      as (Haid & Hfull & a' & Hms & Hid' & Hrole & Hts & Hc').
    assert (Hact' : active (step c (Stream 0 p)) = [t']) by (rewrite Hs; reflexivity).
    assert (Hm' : messages (step c (Stream 0 p)) = pre ++ [u; a']) by (rewrite Hs; exact Hms).
    assert (Hpre' : ∀ m, In m pre → id m ≠ assistantId t') by (rewrite Haid; exact Hpre).
    assert (Hu' : id u ≠ assistantId t') by congruence.
    assert (Ha' : id a' = assistantId t') by congruence.
    destruct (IH (step c (Stream 0 p)) t' pre u a' Hact' Hm' Hpre' Hu' Ha' Hc')
      as (t2 & a2 & H1 & H2 & H3 & H4 & H5 & H6 & H7 & H8).
    exists t2, a2. rewrite H1, H2, H3, H4, H5, H6, H7, H8, Hs. simpl.
    repeat split; try congruence.
    rewrite Hfull, append_assoc. f_equal.
    unfold streamedText at 2. simpl.
    change ("" +:+ textOf p) with (textOf p). now rewrite streamedText_from.
Qed.

Lemma step_end c t :
  active c = [t] →
  step c (StreamEnd 0) = mkConfig (messages c) (input c) false (heap c) [].
Proof. intros Ha. simpl. rewrite Ha. reflexivity. Qed.

(** X19. A turn that completes. From a settled component with an input
    of ASCII characters that is not blank, on a clock that does not run
    backwards and with no earlier message carrying the identifier of the
    new assistant message,
    a submission followed by the stream parts and the end of the stream
    leaves the component settled with the input cleared; the messages are
    those before the turn, unchanged, then the user message with the
    trimmed input, then one assistant message whose content is the streamed
    text. *)
Theorem completed_turn c tu ta parts :
  settled c → isAscii (input c) = true → allSpace (input c) = false → (tu ≤ ta)%Z →
  (∀ m, In m (messages c) → id m ≠ pretty (ta + 1)%Z) →
  settled (run (step c (Submit tu ta)) (map (Stream 0) parts ++ [StreamEnd 0]))
  ∧ input (run (step c (Submit tu ta)) (map (Stream 0) parts ++ [StreamEnd 0])) = ""
  ∧ ∃ invs,
      messages (run (step c (Submit tu ta)) (map (Stream 0) parts ++ [StreamEnd 0]))
      = messages c
        ++ [mkMessage (pretty tu) User (trim (input c)) None tu;
            mkMessage (pretty (ta + 1)%Z) Assistant (streamedText parts) invs ta].
Proof.
  intros [Hl Ha] _ Hin Hclock Hids.
  assert (Htr : truthy (trim (input c)) = true).
  { destruct (truthy (trim (input c))) eqn:Ht; [reflexivity |].
    apply truthy_false, trim_blank in Ht. congruence. }
  assert (Hsub : step c (Submit tu ta)
                 = mkConfig (messages c ++ [userMessage (input c) tu; assistantMessage ta])
                            "" true (heap c) [mkTurn (pretty (ta + 1)%Z) "" [] None]).
  { simpl. unfold handleSubmit. rewrite Htr, Hl, Ha. reflexivity. }
  assert (Hu : id (userMessage (input c) tu) ≠ pretty (ta + 1)%Z).
  { simpl. intros H. apply (inj pretty) in H. lia. }
  destruct (run_turn parts (step c (Submit tu ta)) (mkTurn (pretty (ta + 1)%Z) "" [] None)
              (messages c) (userMessage (input c) tu) (assistantMessage ta)
              ltac:(rewrite Hsub; reflexivity) ltac:(rewrite Hsub; reflexivity)
              Hids Hu eq_refl eq_refl)
    as (t' & a' & H1 & H2 & H3 & H4 & H5 & H6 & H7 & H8).
  unfold run in *. rewrite foldl_app. cbn [foldl].
  rewrite (step_end _ t' H1). cbn [messages input isLoading active settled].
  split; [split; reflexivity |]. split; [rewrite H3, Hsub; reflexivity |].
  exists (toolInvocations a'). rewrite H4. do 2 f_equal.
  destruct a' as [i r ct inv ts]. simpl in *. subst. reflexivity.
Qed.

(** *** What a run never does *)

Lemma setContent_lookup aid text ms pos m :
  ms !! pos = Some m →
  ∃ m', setContent aid text ms !! pos = Some m' ∧ id m' = id m ∧ role m' = role m
        ∧ timestamp m' = timestamp m ∧ toolInvocations m' = toolInvocations m.
Proof.
  intros H. unfold setContent. rewrite list_lookup_fmap, H. simpl.
  eexists. split; [reflexivity |]. destruct (String.eqb (id m) aid); simpl; auto.
Qed.

Lemma setInvocations_lookup aid refs ms pos m :
  ms !! pos = Some m →
  ∃ m', setInvocations aid refs ms !! pos = Some m' ∧ id m' = id m ∧ role m' = role m
        ∧ timestamp m' = timestamp m ∧ content m' = content m.
Proof.
  intros H. unfold setInvocations. rewrite list_lookup_fmap, H. simpl.
  eexists. split; [reflexivity |]. destruct (String.eqb (id m) aid); simpl; auto.
Qed.

Lemma onPart_message p ms h t pos m :
  ms !! pos = Some m →
  ∃ m', (onPart p ms h t).1.1 !! pos = Some m' ∧ id m' = id m ∧ role m' = role m
        ∧ timestamp m' = timestamp m.
Proof.
  intros H.
  assert (Hsame : ∃ m', ms !! pos = Some m' ∧ id m' = id m ∧ role m' = role m
                        ∧ timestamp m' = timestamp m) by eauto.
  destruct p as [text | cid name inp | cid out | err |]; simpl; auto.
  - destruct (truthy text); simpl; [| exact Hsame].
    destruct (setContent_lookup (assistantId t) (fullContent t +:+ text) _ _ _ H)
      as (m' & ? & ? & ? & ? & _). eauto.
  - destruct (currentToolCall t) as [r |]; [| exact Hsame].
    destruct (h !! r) as [inv |]; [| exact Hsame].
    destruct (String.eqb (toolCallId inv) cid); simpl; [| exact Hsame].
    destruct (setInvocations_lookup (assistantId t) (invocations t) _ _ _ H)
      as (m' & ? & ? & ? & ? & _). eauto.
Qed.

Lemma step_message c ev pos m :
  messages c !! pos = Some m →
  ∃ m', messages (step c ev) !! pos = Some m' ∧ id m' = id m ∧ role m' = role m
        ∧ timestamp m' = timestamp m.
Proof.
  intros H.
  assert (Hsame : ∃ m', messages c !! pos = Some m' ∧ id m' = id m ∧ role m' = role m
                        ∧ timestamp m' = timestamp m) by eauto.
  assert (Happ : ∀ l, ∃ m', (messages c ++ l) !! pos = Some m' ∧ id m' = id m
                            ∧ role m' = role m ∧ timestamp m' = timestamp m).
  { intros l. exists m. split; [| auto]. apply lookup_app_l_Some. exact H. }
  destruct ev as [tu ta | text | k p | k | k te]; simpl.
  - unfold handleSubmit.
    destruct (negb (truthy (trim (input c))) || isLoading c); [exact Hsame | apply Happ].
  - exact Hsame.
  - destruct (active c !! k) as [t |]; [| exact Hsame].
    pose proof (onPart_message p (messages c) (heap c) t pos m H) as Hp.
    destruct (onPart p (messages c) (heap c) t) as [[ms h] t']. exact Hp.
  - destruct (active c !! k); exact Hsame.
  - destruct (active c !! k); [apply Happ | exact Hsame].
Qed.

(** X20. The message list only grows, and at the end: whatever events
    follow, a message on display stays at its position with its identifier,
    its role and its time stamp (its content and its tool invocations may
    be rewritten by a turn). *)
Theorem messages_append_only evs :
  ∀ c pos m,
    messages c !! pos = Some m →
    ∃ m', messages (run c evs) !! pos = Some m' ∧ id m' = id m ∧ role m' = role m
          ∧ timestamp m' = timestamp m.
Proof.
  induction evs as [| ev r IH]; intros c pos m H; [eauto |].
  destruct (step_message c ev pos m H) as (m1 & H1 & Hi & Hr & Ht).
  destruct (IH (step c ev) pos m1 H1) as (m2 & H2 & Hi2 & Hr2 & Ht2).
  exists m2. cbn [run foldl]. fold (run (step c ev) r). repeat split; congruence.
Qed.

Lemma onPart_invocation p ms h t r inv :
  h !! r = Some inv →
  ∃ inv', (onPart p ms h t).1.2 !! r = Some inv' ∧ extends inv inv'.
Proof.
  intros H.
  assert (Hsame : ∃ inv', h !! r = Some inv' ∧ extends inv inv')
    by (exists inv; repeat split; auto).
  destruct p as [text | cid name inp | cid out | err |]; simpl; auto.
  - destruct (truthy text); exact Hsame.
  - exists inv. split; [now apply lookup_app_l_Some | repeat split; auto].
  - destruct (currentToolCall t) as [r0 |]; [| exact Hsame].
    destruct (h !! r0) as [inv0 |] eqn:H0; [| exact Hsame].
    destruct (String.eqb (toolCallId inv0) cid); simpl; [| exact Hsame].
    destruct (decide (r = r0)) as [-> | Hne].
    + rewrite list_lookup_insert_eq by (apply lookup_lt_is_Some; eauto).
      eexists. split; [reflexivity |]. assert (inv0 = inv) as -> by congruence.
      repeat split; simpl; eauto.
    + rewrite list_lookup_insert_ne by congruence. exact Hsame.
Qed.

Lemma step_invocation c ev r inv :
  heap c !! r = Some inv →
  ∃ inv', heap (step c ev) !! r = Some inv' ∧ extends inv inv'.
Proof.
  intros H.
  assert (Hsame : ∃ inv', heap c !! r = Some inv' ∧ extends inv inv')
    by (exists inv; repeat split; auto).
  destruct ev as [tu ta | text | k p | k | k te]; simpl.
  - unfold handleSubmit.
    destruct (negb (truthy (trim (input c))) || isLoading c); exact Hsame.
  - exact Hsame.
  - destruct (active c !! k) as [t |]; [| exact Hsame].
    pose proof (onPart_invocation p (messages c) (heap c) t r inv H) as Hp.
    destruct (onPart p (messages c) (heap c) t) as [[ms h] t']. exact Hp.
  - destruct (active c !! k); exact Hsame.
  - destruct (active c !! k); exact Hsame.
Qed.

(** X21. A tool invocation, once recorded, is never dropped and never
    renamed: whatever events follow, it keeps its call identifier, its tool
    name and its arguments, and a result it has is not withdrawn. *)
Theorem invocations_append_only evs :
  ∀ c r inv,
    heap c !! r = Some inv →
    ∃ inv', heap (run c evs) !! r = Some inv'
            ∧ toolCallId inv' = toolCallId inv ∧ toolName inv' = toolName inv
            ∧ args inv' = args inv
            ∧ (is_Some (result inv) → is_Some (result inv')).
Proof.
  induction evs as [| ev l IH]; intros c r inv H; [exists inv; auto 10 |].
  destruct (step_invocation c ev r inv H) as (i1 & H1 & Ha & Hb & Hc & Hd).
  destruct (IH (step c ev) r i1 H1) as (i2 & H2 & Ha2 & Hb2 & Hc2 & Hd2).
  exists i2. cbn [run foldl]. fold (run (step c ev) l).
  repeat split; try congruence. auto.
Qed.

(** *** A tool call and its result *)

(** X22. A tool call directly followed by the result that carries its
    identifier is always recorded: the invocation is added with its
    result, and the assistant message of the turn then shows every
    invocation of the turn so far, the new one last. *)
Theorem call_then_result_shown c t pos m callId name inp output :
  active c = [t] → messages c !! pos = Some m → id m = assistantId t →
  heap (run c [Stream 0 (ToolCallPart callId name inp);
               Stream 0 (ToolResultPart callId output)])
  = heap c ++ [mkInvocation callId name inp (Some output)]
  ∧ ∃ m', messages (run c [Stream 0 (ToolCallPart callId name inp);
                           Stream 0 (ToolResultPart callId output)]) !! pos = Some m'
          ∧ toolInvocations m' = Some (invocations t ++ [length (heap c)])
          ∧ last (shownInvocations
                    (run c [Stream 0 (ToolCallPart callId name inp);
                            Stream 0 (ToolResultPart callId output)]) m')
            = Some (Some (mkInvocation callId name inp (Some output))).
Proof.
  intros Ha Hm Hid. unfold run. cbn [foldl].
  assert (H1 : step c (Stream 0 (ToolCallPart callId name inp))
               = mkConfig (messages c) (input c) (isLoading c)
                   (heap c ++ [mkInvocation callId name inp None])
                   [mkTurn (assistantId t) (fullContent t)
                      (invocations t ++ [length (heap c)]) (Some (length (heap c)))]).
  { simpl. rewrite Ha. reflexivity. }
  rewrite H1. cbn [step active lookup list_lookup onPart currentToolCall heap].
  rewrite lookup_app_r by lia. rewrite Nat.sub_diag.
  cbn [lookup list_lookup toolCallId]. rewrite String.eqb_refl.
  cbn [heap messages assistantId invocations].
  assert (Hh : <[length (heap c) := withResult (mkInvocation callId name inp None) output]>
                 (heap c ++ [mkInvocation callId name inp None])
               = heap c ++ [mkInvocation callId name inp (Some output)]).
  { rewrite insert_app_r_alt by lia. rewrite Nat.sub_diag. reflexivity. }
  rewrite Hh. split; [reflexivity |].
  unfold setInvocations. rewrite list_lookup_fmap, Hm. simpl.
  rewrite Hid, String.eqb_refl. eexists. split; [reflexivity |]. simpl.
  split; [reflexivity |].
  unfold shownInvocations. simpl. rewrite map_app. simpl. rewrite last_snoc.
  rewrite lookup_app_r by lia. rewrite Nat.sub_diag. reflexivity.
Qed.

(** *** Reachable configurations *)

Lemma step_roles c ev :
  (∀ m, In m (messages c) → role m ≠ ToolRole) →
  ∀ m, In m (messages (step c ev)) → role m ≠ ToolRole.
Proof.
  intros Hc m Hin. apply list_elem_of_In, list_elem_of_lookup in Hin as [pos Hpos].
  destruct (messages c !! pos) as [m0 |] eqn:H0.
  - destruct (step_message c ev pos m0 H0) as (m' & Hm' & _ & Hr & _).
    assert (m' = m) as -> by congruence. rewrite Hr.
    apply Hc. apply list_elem_of_In, list_elem_of_lookup. eauto.
  - apply lookup_ge_None in H0.
    destruct ev as [tu ta | text | k p | k | k te]; simpl in Hpos.
    + unfold handleSubmit in Hpos.
      destruct (negb (truthy (trim (input c))) || isLoading c);
        [apply lookup_lt_Some in Hpos; lia |].
      simpl in Hpos. rewrite lookup_app_r in Hpos by lia.
      destruct (pos - length (messages c)) as [| [| n]]; simpl in Hpos;
        [injection Hpos as <-; discriminate | injection Hpos as <-; discriminate
        | discriminate].
    + apply lookup_lt_Some in Hpos. lia.
    + destruct (active c !! k) as [t |]; [| apply lookup_lt_Some in Hpos; lia].
      assert (Hlen : length (onPart p (messages c) (heap c) t).1.1 = length (messages c)).
      { destruct p as [text | cid name inp | cid out | err |]; simpl; auto.
        - destruct (truthy text); simpl; [apply length_map | reflexivity].
        - destruct (currentToolCall t) as [r |]; [| reflexivity].
          destruct (heap c !! r) as [inv |]; [| reflexivity].
          destruct (String.eqb (toolCallId inv) cid); simpl; [apply length_map | reflexivity]. }
      destruct (onPart p (messages c) (heap c) t) as [[ms h] t']. simpl in *.
      apply lookup_lt_Some in Hpos. lia.
    + destruct (active c !! k); apply lookup_lt_Some in Hpos; simpl in Hpos; lia.
    + destruct (active c !! k); [| apply lookup_lt_Some in Hpos; lia].
      simpl in Hpos. rewrite lookup_app_r in Hpos by lia.
      destruct (pos - length (messages c)) as [| n]; simpl in Hpos;
        [injection Hpos as <-; discriminate | discriminate].
Qed.

Lemma run_roles evs :
  ∀ c, (∀ m, In m (messages c) → role m ≠ ToolRole) →
       ∀ m, In m (messages (run c evs)) → role m ≠ ToolRole.
Proof.
  induction evs as [| ev r IH]; intros c Hc; [exact Hc |].
  cbn [run foldl]. apply IH. now apply step_roles.
Qed.

(** X23. The component never stores a message of role [tool]: in every
    configuration it reaches, the request of a submission carries each
    message on display with its own role and content, followed by the new
    user message with the trimmed input. *)
Theorem request_keeps_roles w t0 evs tu :
  (∀ m, In m (messages (run (initial w t0) evs)) → role m ≠ ToolRole)
  ∧ requestMessages (run (initial w t0) evs) tu
    = map (λ m, (role m, content m)) (messages (run (initial w t0) evs))
      ++ [(User, trim (input (run (initial w t0) evs)))].
Proof.
  assert (H : ∀ m, In m (messages (run (initial w t0) evs)) → role m ≠ ToolRole).
  { apply run_roles. intros m [<- | []]. discriminate. }
  split; [exact H |].
  unfold requestMessages. rewrite map_app. f_equal.
  apply map_ext_in. intros m Hm. apply H in Hm.
  destruct (role m); try reflexivity. congruence.
Qed.

(** X24. In every configuration the component reaches, it is loading
    exactly while a turn is in flight. *)
Theorem loading_iff_turn_in_flight w t0 evs :
  isLoading (run (initial w t0) evs) = true ↔ active (run (initial w t0) evs) ≠ [].
Proof.
  pose proof (run_oneTurn evs _ (initial_oneTurn w t0)) as [[Hl Hlen] | [Hl Ha]].
  - split; [| auto]. intros _ H. rewrite H in Hlen. discriminate.
  - rewrite Hl, Ha. split; [discriminate | congruence].
Qed.

End ChatFacts.

Module ChatWitnesses.
Import JS Chat ChatRequest ChatFacts.

Lemma submit_ignored_iff_witness :
  step (step (initial "Hello" 0) (SetInput "   ")) (Submit 100 101)
  = step (initial "Hello" 0) (SetInput "   ")
  ↔ allSpace (input (step (initial "Hello" 0) (SetInput "   "))) = true
    ∨ isLoading (step (initial "Hello" 0) (SetInput "   ")) = true.
Proof.
  apply (submit_ignored_iff (step (initial "Hello" 0) (SetInput "   ")) 100%Z 101%Z).
  reflexivity.
Defined.

Lemma completed_turn_witness :
  settled (run (step (step (initial "Hello" 0) (SetInput " list the items "))
                     (Submit 100 101))
               (map (Stream 0) [TextDelta "Here "; TextDelta "are"] ++ [StreamEnd 0]))
  ∧ input (run (step (step (initial "Hello" 0) (SetInput " list the items "))
                     (Submit 100 101))
               (map (Stream 0) [TextDelta "Here "; TextDelta "are"] ++ [StreamEnd 0])) = ""
  ∧ ∃ invs,
      messages (run (step (step (initial "Hello" 0) (SetInput " list the items "))
                          (Submit 100 101))
                    (map (Stream 0) [TextDelta "Here "; TextDelta "are"] ++ [StreamEnd 0]))
      = messages (step (initial "Hello" 0) (SetInput " list the items "))
        ++ [mkMessage (pretty 100%Z) User
              (trim (input (step (initial "Hello" 0) (SetInput " list the items "))))
              None 100;
            mkMessage (pretty (101 + 1)%Z) Assistant
              (streamedText [TextDelta "Here "; TextDelta "are"]) invs 101].
Proof.
  apply (completed_turn (step (initial "Hello" 0) (SetInput " list the items "))
           100%Z 101%Z [TextDelta "Here "; TextDelta "are"]).
  - split; reflexivity.
  - reflexivity.
  - reflexivity.
  - lia.
  - intros m [<- | []]. vm_compute. discriminate.
Defined.

Lemma messages_append_only_witness :
  ∃ m', messages (run (initial "Hello" 0)
                    [SetInput "hello"; Submit 100 101; Stream 0 (TextDelta "Hi");
                     StreamFault 0 250]) !! 0 = Some m'
        ∧ id m' = id (welcome "Hello" 0) ∧ role m' = role (welcome "Hello" 0)
        ∧ timestamp m' = timestamp (welcome "Hello" 0).
Proof.
  apply (messages_append_only
           [SetInput "hello"; Submit 100 101; Stream 0 (TextDelta "Hi"); StreamFault 0 250]
           (initial "Hello" 0) 0 (welcome "Hello" 0)).
  reflexivity.
Defined.

Lemma invocations_append_only_witness :
  ∃ inv', heap (run (mkConfig [assistantMessage 101] "" true
                       [mkInvocation "t1" "searchElements" "{}" (Some "{success:true}")]
                       [mkTurn (pretty 102%Z) "" [0] (Some 0)])
                  [Stream 0 (ToolCallPart "t2" "modifyElement" "{}");
                   Stream 0 (ToolResultPart "t1" "{}"); StreamEnd 0]) !! 0 = Some inv'
          ∧ toolCallId inv' = "t1" ∧ toolName inv' = "searchElements" ∧ args inv' = "{}"
          ∧ (is_Some (Some "{success:true}") → is_Some (result inv')).
Proof.
  apply (invocations_append_only
           [Stream 0 (ToolCallPart "t2" "modifyElement" "{}");
            Stream 0 (ToolResultPart "t1" "{}"); StreamEnd 0]
           (mkConfig [assistantMessage 101] "" true
              [mkInvocation "t1" "searchElements" "{}" (Some "{success:true}")]
              [mkTurn (pretty 102%Z) "" [0] (Some 0)])
           0 (mkInvocation "t1" "searchElements" "{}" (Some "{success:true}"))).
  reflexivity.
Defined.

Lemma call_then_result_shown_witness :
  heap (run (step (step (initial "Hello" 0) (SetInput "find the items")) (Submit 100 101))
            [Stream 0 (ToolCallPart "t1" "searchElements" "{}");
             Stream 0 (ToolResultPart "t1" "{success:true}")])
  = heap (step (step (initial "Hello" 0) (SetInput "find the items")) (Submit 100 101))
    ++ [mkInvocation "t1" "searchElements" "{}" (Some "{success:true}")]
  ∧ ∃ m', messages (run (step (step (initial "Hello" 0) (SetInput "find the items"))
                              (Submit 100 101))
                        [Stream 0 (ToolCallPart "t1" "searchElements" "{}");
                         Stream 0 (ToolResultPart "t1" "{success:true}")]) !! 2 = Some m'
          ∧ toolInvocations m'
            = Some (invocations (mkTurn (pretty 102%Z) "" [] None)
                    ++ [length (heap (step (step (initial "Hello" 0)
                                               (SetInput "find the items"))
                                         (Submit 100 101)))])
          ∧ last (shownInvocations
                    (run (step (step (initial "Hello" 0) (SetInput "find the items"))
                               (Submit 100 101))
                         [Stream 0 (ToolCallPart "t1" "searchElements" "{}");
                          Stream 0 (ToolResultPart "t1" "{success:true}")]) m')
            = Some (Some (mkInvocation "t1" "searchElements" "{}" (Some "{success:true}"))).
Proof.
  apply (call_then_result_shown
           (step (step (initial "Hello" 0) (SetInput "find the items")) (Submit 100 101))
           (mkTurn (pretty 102%Z) "" [] None) 2 (assistantMessage 101)
           "t1" "searchElements" "{}" "{success:true}"); reflexivity.
Defined.

End ChatWitnesses.

(** * Further properties: the page summary and the initialisation API *)

Module ContextFacts.
Import JS Dom Tools Browser Pages Context DomFacts Predicates.

(** *** The class map *)

Lemma getCount_mapSet_eq k v m : getCount k (mapSet k v m) = v.
Proof.
  induction m as [| p r IH]; simpl.
  - unfold getCount. simpl. now rewrite String.eqb_refl.
  - destruct (String.eqb p.1 k) eqn:Hp.
    + unfold getCount. simpl. now rewrite Hp.
    + unfold getCount in *. simpl. now rewrite Hp.
Qed.

Lemma getCount_mapSet_ne k k' v m : k ≠ k' → getCount k (mapSet k' v m) = getCount k m.
Proof.
  intros Hne. induction m as [| p r IH]; simpl.
  - unfold getCount. simpl. apply String.eqb_neq in Hne. rewrite String.eqb_sym in Hne.
    now rewrite Hne.
  - destruct (String.eqb p.1 k') eqn:Hp.
    + apply String.eqb_eq in Hp. unfold getCount. simpl.
      assert (H : String.eqb p.1 k = false) by (apply String.eqb_neq; congruence).
      now rewrite H.
    + unfold getCount in *. simpl. destruct (String.eqb p.1 k); [reflexivity | exact IH].
Qed.

Lemma mapSet_keys k v m :
  map fst (mapSet k v m)
  = if bool_decide (k ∈ map fst m) then map fst m else map fst m ++ [k].
Proof.
  induction m as [| p r IH]; simpl; [reflexivity |].
  destruct (String.eqb p.1 k) eqn:Hp.
  - apply String.eqb_eq in Hp. simpl. rewrite bool_decide_eq_true_2; [reflexivity |].
    rewrite Hp. apply elem_of_cons. now left.
  - apply String.eqb_neq in Hp. simpl. rewrite IH.
    destruct (bool_decide (k ∈ map fst r)) eqn:Hk.
    + apply bool_decide_eq_true_1 in Hk. rewrite bool_decide_eq_true_2; [reflexivity |].
      apply elem_of_cons. now right.
    + apply bool_decide_eq_false_1 in Hk. rewrite bool_decide_eq_false_2; [reflexivity |].
      intros H. apply elem_of_cons in H as [H | H]; [congruence | contradiction].
Qed.

Lemma mapSet_positive k v m :
  1 ≤ v → (∀ p, In p m → 1 ≤ p.2) → ∀ p, In p (mapSet k v m) → 1 ≤ p.2.
Proof.
  intros Hv. induction m as [| q r IH]; simpl; intros Hm p.
  - intros [<- | []]. exact Hv.
  - destruct (String.eqb q.1 k).
    + intros [<- | H]; [exact Hv | apply Hm; now right].
    + intros [<- | H]; [apply Hm; now left |]. apply IH; [| exact H].
      intros x Hx. apply Hm. now right.
Qed.

Lemma mapSet_wellFormed k v m : 1 ≤ v → wellFormed m → wellFormed (mapSet k v m).
Proof.
  intros Hv [Hn Hp]. split; [| now apply mapSet_positive].
  rewrite mapSet_keys. destruct (bool_decide (k ∈ map fst m)) eqn:Hk; [exact Hn |].
  apply bool_decide_eq_false_1 in Hk. apply NoDup_app. split; [exact Hn |].
  split; [| apply NoDup_singleton].
  intros x Hx Hx'. apply list_elem_of_singleton in Hx' as ->. contradiction.
Qed.

Lemma countClass_wellFormed m c : wellFormed m → wellFormed (countClass m c).
Proof.
  intros H. unfold countClass. destruct (counted c); [| exact H].
  apply mapSet_wellFormed; [lia | exact H].
Qed.

Lemma countClasses_wellFormed doc : wellFormed (countClasses doc).
Proof.
  unfold countClasses.
  assert (H0 : wellFormed []) by (split; [constructor | intros p []]).
  revert H0. generalize (@nil (string * nat)).
  induction (withAttribute "class" doc) as [| el r IH]; intros m Hm; [exact Hm |].
  cbn [foldl]. apply IH. clear IH. revert m Hm.
  induction (classList (self el)) as [| c cl IH]; intros m Hm; [exact Hm |].
  cbn [foldl]. apply IH. now apply countClass_wellFormed.
Qed.

Lemma getCount_of_entry k n m : NoDup (map fst m) → In (k, n) m → getCount k m = n.
Proof.
  induction m as [| p r IH]; intros Hn Hin; [destruct Hin |].
  simpl in Hn. apply NoDup_cons in Hn as [Hp Hn]. unfold getCount. simpl.
  destruct Hin as [-> | Hin].
  - simpl. now rewrite String.eqb_refl.
  - destruct (String.eqb p.1 k) eqn:He.
    + apply String.eqb_eq in He. exfalso. apply Hp. rewrite He.
      apply list_elem_of_In. apply (in_map fst) in Hin. exact Hin.
    + now apply IH.
Qed.

Lemma entry_of_getCount k n m : getCount k m = n → 1 ≤ n → In (k, n) m.
Proof.
  unfold getCount. intros H Hn.
  destruct (List.find (λ p, String.eqb p.1 k) m) as [p |] eqn:Hf; [| lia].
  apply find_some in Hf as [Hin He]. apply String.eqb_eq in He.
  destruct p as [k' n']. simpl in *. now subst.
Qed.

Lemma countClass_count k m c :
  getCount k (countClass m c)
  = getCount k m + (if counted k && bool_decide (c = k) then 1 else 0).
Proof.
  unfold countClass.
  destruct (decide (c = k)) as [-> | Hne].
  - rewrite bool_decide_eq_true_2 by reflexivity. rewrite andb_true_r.
    destruct (counted k); [apply getCount_mapSet_eq | lia].
  - rewrite bool_decide_eq_false_2 by exact Hne. rewrite andb_false_r, Nat.add_0_r.
    destruct (counted c); [| reflexivity]. apply getCount_mapSet_ne. congruence.
Qed.

Lemma countList_count k (cl : list string) :
  NoDup cl →
  ∀ m, getCount k (foldl countClass m cl)
       = getCount k m + (if counted k && bool_decide (k ∈ cl) then 1 else 0).
Proof.
  induction cl as [| c r IH]; intros Hn m.
  - cbn [foldl]. rewrite (bool_decide_eq_false_2 (k ∈ [])) by apply not_elem_of_nil.
    rewrite andb_false_r. lia.
  - apply NoDup_cons in Hn as [Hc Hn]. cbn [foldl]. rewrite IH by exact Hn.
    rewrite countClass_count.
    destruct (counted k); simpl; [| lia].
    destruct (decide (c = k)) as [-> | Hne].
    + rewrite bool_decide_eq_true_2 by reflexivity.
      rewrite (bool_decide_eq_false_2 (k ∈ r)) by exact Hc.
      rewrite bool_decide_eq_true_2 by (apply elem_of_cons; now left). lia.
    + rewrite (bool_decide_eq_false_2 (c = k)) by exact Hne.
      destruct (decide (k ∈ r)) as [Hr | Hr].
      * rewrite !bool_decide_eq_true_2; [lia | apply elem_of_cons; now right | exact Hr].
      * rewrite !bool_decide_eq_false_2; [lia | | exact Hr].
        intros H. apply elem_of_cons in H as [H | H]; [congruence | contradiction].
Qed.

Lemma countElements_count k (els : list Element) :
  ∀ m, getCount k (foldl (λ m el, foldl countClass m (classList (self el))) m els)
       = getCount k m
         + (if counted k
            then length (List.filter (λ el, bool_decide (k ∈ classList (self el))) els)
            else 0).
Proof.
  induction els as [| el r IH]; intros m.
  - simpl. destruct (counted k); lia.
  - cbn [foldl]. rewrite IH.
    rewrite countList_count by apply ModifyFacts.classList_valid.
    simpl. destruct (counted k); simpl; [| lia].
    destruct (bool_decide (k ∈ classList (self el))); simpl; lia.
Qed.

Lemma classList_no_attribute e : hasAttribute e "class" = false → classList e = [].
Proof.
  unfold hasAttribute, classList. intros H. apply bool_decide_eq_false_1 in H.
  destruct (attrs e !! "class") as [v |]; [exfalso; apply H; eauto | reflexivity].
Qed.

Lemma carriers_withAttribute k doc :
  List.filter (λ el, bool_decide (k ∈ classList (self el))) (withAttribute "class" doc)
  = List.filter (λ el, bool_decide (k ∈ classList (self el))) (allElements doc).
Proof.
  unfold withAttribute. induction (allElements doc) as [| el r IH]; [reflexivity |].
  simpl. destruct (hasAttribute (self el) "class") eqn:Ha; simpl; rewrite IH; [reflexivity |].
  rewrite (classList_no_attribute _ Ha).
  rewrite bool_decide_eq_false_2 by apply not_elem_of_nil. reflexivity.
Qed.

Lemma getCount_countClasses k doc :
  getCount k (countClasses doc)
  = if counted k
    then length (List.filter (λ el, bool_decide (k ∈ classList (self el))) (allElements doc))
    else 0.
Proof.
  unfold countClasses. rewrite countElements_count, carriers_withAttribute. reflexivity.
Qed.

(** X25. The class map of the summary: a class name has an entry exactly
    when it does not start with [chat-widget] and some element of the page
    carries it, and its count is the number of elements that carry it,
    those of the widget included. No name has two entries. *)
Theorem class_counts doc :
  NoDup (map fst (countClasses doc))
  ∧ ∀ k n,
      In (k, n) (countClasses doc)
      ↔ startsWith k "chat-widget" = false ∧ 0 < n
        ∧ n = length (List.filter (λ el, bool_decide (k ∈ classList (self el)))
                        (allElements doc)).
Proof.
  destruct (countClasses_wellFormed doc) as [Hn Hp].
  split; [exact Hn |]. intros k n. split.
  - intros Hin. pose proof (Hp _ Hin) as Hpos. simpl in Hpos.
    apply getCount_of_entry in Hin; [| exact Hn].
    rewrite getCount_countClasses in Hin. unfold counted in Hin.
    destruct (truthy k); simpl in Hin; [| lia].
    destruct (startsWith k "chat-widget"); simpl in Hin; [lia |].
    repeat split; [lia | congruence].
  - intros (Hs & Hpos & ->). apply entry_of_getCount; [| lia].
    rewrite getCount_countClasses. unfold counted. rewrite Hs.
    destruct (truthy k) eqn:Ht; [reflexivity |]. exfalso.
    apply truthy_false in Ht as ->.
    destruct (List.filter (λ el, bool_decide ("" ∈ classList (self el))) (allElements doc))
      as [| el r] eqn:Hf; [simpl in Hpos; lia |].
    assert (Hel : In el (el :: r)) by now left.
    rewrite <- Hf in Hel. apply filter_In in Hel as [_ Hel].
    apply bool_decide_eq_true_1 in Hel.
    destruct (ModifyFacts.classList_valid (self el)) as [Hv _].
    rewrite Forall_forall in Hv. apply Hv in Hel. destruct Hel as [Hne _]. now apply Hne.
Qed.

(** *** The most frequent classes *)

Lemma insertByCount_perm x l : insertByCount x l ≡ₚ x :: l.
Proof.
  induction l as [| y r IH]; simpl; [reflexivity |].
  destruct (x.2 <? y.2); [| reflexivity]. rewrite IH. apply Permutation_swap.
Qed.

Lemma sortByCount_perm l : sortByCount l ≡ₚ l.
Proof.
  induction l as [| x r IH]; simpl; [reflexivity |].
  rewrite insertByCount_perm. now rewrite IH.
Qed.

Lemma insertByCount_sorted x l :
  StronglySorted (λ a b, b.2 ≤ a.2) l →
  StronglySorted (λ a b, b.2 ≤ a.2) (insertByCount x l).
Proof.
  induction l as [| y r IH]; simpl; intros Hs.
  - repeat constructor.
  - apply StronglySorted_inv in Hs as [Hr Hy].
    destruct (x.2 <? y.2) eqn:Hxy.
    + apply Nat.ltb_lt in Hxy. constructor; [now apply IH |].
      rewrite Forall_forall in *. intros z Hz.
      rewrite insertByCount_perm in Hz. apply elem_of_cons in Hz as [-> | Hz]; [lia | auto].
    + apply Nat.ltb_ge in Hxy. constructor; [now constructor |].
      constructor; [exact Hxy |].
      rewrite Forall_forall in *. intros z Hz. specialize (Hy z Hz). simpl in *. lia.
Qed.

Lemma sortByCount_sorted l : StronglySorted (λ a b, b.2 ≤ a.2) (sortByCount l).
Proof.
  induction l as [| x r IH]; simpl; [constructor | now apply insertByCount_sorted].
Qed.

Lemma insertByCount_stable n x l :
  List.filter (λ p, p.2 =? n) (insertByCount x l) = List.filter (λ p, p.2 =? n) (x :: l).
Proof.
  induction l as [| y r IH]; [reflexivity |].
  cbn [insertByCount]. destruct (x.2 <? y.2) eqn:Hxy; [| reflexivity].
  apply Nat.ltb_lt in Hxy. cbn [List.filter] in *. rewrite IH.
  destruct (x.2 =? n) eqn:Hx, (y.2 =? n) eqn:Hy; try reflexivity.
  apply Nat.eqb_eq in Hx, Hy. lia.
Qed.

Lemma sortByCount_stable n l :
  List.filter (λ p, p.2 =? n) (sortByCount l) = List.filter (λ p, p.2 =? n) l.
Proof.
  induction l as [| x r IH]; [reflexivity |].
  cbn [sortByCount foldr]. fold (sortByCount r).
  rewrite insertByCount_stable. cbn [List.filter]. now rewrite IH.
Qed.

Lemma slice0_take {A} (l : list A) : slice0 10 l = take 10 l.
Proof.
  unfold slice0. simpl.
  destruct (Z.min_spec 10 (Z.of_nat (length l))) as [[Hlt ->] | [Hle ->]]; [reflexivity |].
  rewrite Nat2Z.id. rewrite take_ge by lia. rewrite take_ge by lia. reflexivity.
Qed.

(** X26. The classes the summary names are the ten most frequent of the
    class map, or all of them when there are fewer: they are listed by
    falling count, no class left out has a higher count than one listed,
    and classes with the same count come in the order in which the page
    first shows them. *)
Theorem top_classes doc :
  length (topEntries doc) = Nat.min 10 (length (countClasses doc))
  ∧ (∀ p, In p (topEntries doc) → In p (countClasses doc))
  ∧ StronglySorted (λ a b, b.2 ≤ a.2) (topEntries doc)
  ∧ (∀ p q, In p (topEntries doc) → In q (countClasses doc) → ¬ In q (topEntries doc) →
            q.2 ≤ p.2)
  ∧ ∀ n, List.filter (λ p, p.2 =? n) (topEntries doc)
         `prefix_of` List.filter (λ p, p.2 =? n) (countClasses doc).
Proof.
  unfold topEntries. rewrite slice0_take.
  pose proof (sortByCount_perm (countClasses doc)) as Hperm.
  pose proof (sortByCount_sorted (countClasses doc)) as Hsort.
  rewrite <- (take_drop 10 (sortByCount (countClasses doc))) in Hsort.
  split; [| split; [| split; [| split]]].
  - rewrite length_take. rewrite Hperm. reflexivity.
  - intros p Hp. apply list_elem_of_In. rewrite <- Hperm.
    apply list_elem_of_In in Hp. now apply (subseteq_take 10).
  - eapply StronglySorted_app_1_l; eauto.
  - intros p q Hp Hq Hnq.
    apply list_elem_of_In in Hq. rewrite <- Hperm in Hq.
    rewrite <- (take_drop 10 (sortByCount (countClasses doc))) in Hq.
    apply elem_of_app in Hq as [Hq | Hq]; [apply list_elem_of_In in Hq; contradiction |].
    apply (StronglySorted_app_1_elem_of _ _ _ p q Hsort); [now apply list_elem_of_In | exact Hq].
  - intros n. rewrite <- (sortByCount_stable n (countClasses doc)).
    rewrite <- (take_drop 10 (sortByCount (countClasses doc))) at 2.
    rewrite List.filter_app. apply prefix_app_r. reflexivity.
Qed.

(** *** The content shown for an element *)

Section Content.
Variable controlValue : elem → string.

(** X27. The content the summary shows for an element is cut to sixty
    characters when it comes from the direct text of the element or from
    an element that is neither an [INPUT] nor a [BUTTON]; for such a
    control without direct text the value of the control is shown in
    full. An element that is not an HTML element shows no content. *)
Theorem content_cut_to_sixty el :
  (truthy (directText el) = true
   ∨ (tagName (self el) ≠ "INPUT" ∧ tagName (self el) ≠ "BUTTON") →
   String.length (contentOf controlValue el) ≤ 60)
  ∧ (isHTMLElement (self el) = true → truthy (directText el) = false →
     tagName (self el) = "INPUT" ∨ tagName (self el) = "BUTTON" →
     truthy (controlValue (self el)) = true →
     contentOf controlValue el = controlValue (self el))
  ∧ (isHTMLElement (self el) = false → contentOf controlValue el = "").
Proof.
  unfold contentOf. split; [| split].
  - intros H. destruct (isHTMLElement (self el)); [| simpl; lia].
    destruct (truthy (directText el)) eqn:Hd; [apply SearchFacts.substring0_length |].
    destruct H as [H | [Hi Hb]]; [discriminate |].
    apply String.eqb_neq in Hi, Hb. rewrite Hi, Hb. simpl.
    destruct (truthy (substring0 60 (trim (elTextContent el))));
      [apply SearchFacts.substring0_length | simpl; lia].
  - intros -> -> Ht ->.
    destruct Ht as [-> | ->]; simpl; reflexivity.
  - intros ->. reflexivity.
Qed.

End Content.

(** The summary of the page with a form, with the value attribute as the
    value of a control. *)
Example context_of_form_page :
  contextLines (λ e, default "" (attrs e !! "value")) formPage
  = ["- <form id=" +:+ dquote +:+ "signup" +:+ dquote +:+ ">: " +:+ dquote +:+ "Join"
     +:+ dquote;
     newline +:+ "Common classes:";
     "- .nav (2 elements)"; "- .field (2 elements)";
     "- .link (1 elements)"; "- .primary (1 elements)"].
Proof. vm_compute. reflexivity. Qed.

(** The summary of the page with the widget: the container is passed over
    for its id, the classes of the widget that do not start with
    [chat-widget] are counted, the list item of the widget is not. *)
Example context_of_page_with_widget :
  contextLines (λ e, default "" (attrs e !! "value")) pageWithWidget
  = [newline +:+ "Common classes:";
     "- .bottom-right (1 elements)"; "- .light (1 elements)"; "- .chat-toggle (1 elements)";
     newline +:+ "List items found: 3 items"].
Proof. vm_compute. reflexivity. Qed.

End ContextFacts.

Module SdkFacts.
Import JS Dom Browser Pages Sdk DomFacts FactoryFacts.

Lemma documentBody_In doc b :
  documentBody doc = Some b → ∃ el, In el (allElements doc) ∧ self el = b.
Proof.
  unfold documentBody, documentElement.
  destruct (head (omap _ doc)) as [root |] eqn:Hr; [| discriminate].
  destruct (String.eqb _ "html"); [| discriminate].
  intros Hh. apply HighlightFacts.head_filter_In in Hh as [Hc _].
  apply list_elem_of_In, list_elem_of_omap in Hc as (c & Hc & Hce).
  destruct c as [t | e k]; [discriminate |]. injection Hce as ->.
  assert (Hroot : In root (omap (λ n, match n with
                                       | ElemNode e cs => Some (mkElement e cs [])
                                       | TextNode _ => None
                                       end) doc)).
  { destruct (omap _ doc) as [| r0 l]; [discriminate |]. injection Hr as ->. now left. }
  apply list_elem_of_In, list_elem_of_omap in Hroot as (n & Hn & Hne).
  destruct n as [t | e0 cs0]; [discriminate |]. injection Hne as <-.
  exists (mkElement b k [(e0, cs0)]). split; [| reflexivity].
  apply (allElements_child doc (mkElement e0 cs0 []) b k).
  - unfold allElements. apply in_flat_map. exists (ElemNode e0 cs0).
    split; [now apply list_elem_of_In | now left].
  - now apply list_elem_of_In.
Qed.

Lemma inDocument_true i doc el :
  In el (allElements doc) → nid (self el) = i → inDocument i doc = true.
Proof.
  intros Hin Hid. unfold inDocument. apply existsb_exists.
  exists el. split; [exact Hin | now apply Nat.eqb_eq].
Qed.

Lemma flat_map_ext_In {A B} (f g : A → list B) (l : list A) :
  (∀ x, In x l → f x = g x) → flat_map f l = flat_map g l.
Proof.
  induction l as [| a l IH]; intros H; simpl; [reflexivity |].
  rewrite (H a) by now left. rewrite IH; [reflexivity |]. intros x Hx. apply H. now right.
Qed.

Lemma flat_map_flat_map {A B C} (f : B → list C) (g : A → list B) (l : list A) :
  flat_map f (flat_map g l) = flat_map (λ x, flat_map f (g x)) l.
Proof.
  induction l as [| a l IH]; simpl; [reflexivity |]. now rewrite flat_map_app, IH.
Qed.

Lemma flat_map_singletons {A} (f : A → list A) (l : list A) :
  (∀ x, In x l → f x = [x]) → flat_map f l = l.
Proof.
  induction l as [| a r IH]; intros H; [reflexivity |].
  simpl. rewrite H by now left. simpl. f_equal. apply IH. intros x Hx. apply H. now right.
Qed.

(** An update of an object that is not in the tree changes nothing. *)
Lemma updateNode_absent i f n :
  ∀ anc, (∀ el, In el (elementsOf anc n) → nid (self el) ≠ i) → updateNode i f n = [n].
Proof.
  induction n as [s | e cs IH] using node_ind'; intros anc Habs; [reflexivity |].
  simpl. rewrite decide_False by (apply (Habs (mkElement e cs anc)); now left).
  f_equal. f_equal. apply flat_map_singletons. intros c Hc.
  rewrite Forall_forall in IH.
  apply (IH c (proj2 (list_elem_of_In _ _) Hc) ((e, cs) :: anc)).
  intros el Hel. apply Habs. simpl. right. apply in_flat_map. eauto.
Qed.

Lemma updateElement_absent i f doc :
  (∀ el, In el (allElements doc) → nid (self el) ≠ i) → updateElement i f doc = doc.
Proof.
  intros Habs. unfold updateElement. apply flat_map_singletons. intros n Hn.
  apply (updateNode_absent i f n []). intros el Hel. apply Habs.
  unfold allElements. apply in_flat_map. eauto.
Qed.

Section Removal.
Variable i : nat.

(** Removing an object after an update of its child nodes removes what the
    update left of it. *)
Lemma remove_after_update h f n :
  (∀ e cs, f e cs = [ElemNode e (h cs)]) →
  flat_map (updateNode i removeNode) (updateNode i f n) = updateNode i removeNode n.
Proof.
  intros Hf. induction n as [s | e cs IH] using node_ind'; [reflexivity |].
  simpl. destruct (decide (nid e = i)) as [Hi | Hi].
  - rewrite Hf. simpl. rewrite decide_True by exact Hi. reflexivity.
  - simpl. rewrite decide_False by exact Hi. rewrite app_nil_r. do 2 f_equal.
    rewrite flat_map_flat_map.
    apply flat_map_ext_In. intros c Hc.
    rewrite Forall_forall in IH. apply IH. now apply list_elem_of_In.
Qed.

Lemma updateElement_remove_after h f doc :
  (∀ e cs, f e cs = [ElemNode e (h cs)]) →
  updateElement i removeNode (updateElement i f doc) = updateElement i removeNode doc.
Proof.
  intros Hf. unfold updateElement. rewrite flat_map_flat_map.
  apply flat_map_ext_In. intros n _. now apply (remove_after_update h).
Qed.

(** Removing a new object that was appended to an element gives the tree
    before it was appended. *)
Lemma remove_after_append b e0 k n :
  nid e0 = i →
  ∀ anc, (∀ el, In el (elementsOf anc n) → nid (self el) ≠ i) →
  flat_map (updateNode i removeNode) (updateNode b (appendChild (ElemNode e0 k)) n) = [n].
Proof.
  intros He0. induction n as [s | e cs IH] using node_ind'; intros anc Habs; [reflexivity |].
  assert (Hne : nid e ≠ i) by (apply (Habs (mkElement e cs anc)); now left).
  assert (Hcs : ∀ c, In c cs → ∀ el, In el (elementsOf ((e, cs) :: anc) c) → nid (self el) ≠ i).
  { intros c Hc el Hel. apply Habs. simpl. right. apply in_flat_map. eauto. }
  simpl. destruct (decide (nid e = b)) as [Hb | Hb].
  - unfold appendChild. simpl. rewrite decide_False by exact Hne. rewrite app_nil_r.
    do 2 f_equal. rewrite flat_map_app. simpl. rewrite decide_True by exact He0.
    simpl. rewrite app_nil_r. apply flat_map_singletons. intros c Hc.
    apply (updateNode_absent i removeNode c ((e, cs) :: anc)). now apply Hcs.
  - simpl. rewrite decide_False by exact Hne. rewrite app_nil_r. do 2 f_equal.
    rewrite flat_map_flat_map.
    apply flat_map_singletons. intros c Hc.
    rewrite Forall_forall in IH.
    apply (IH c (proj2 (list_elem_of_In _ _) Hc) ((e, cs) :: anc)). now apply Hcs.
Qed.

Lemma updateElement_remove_appended b e0 k doc :
  nid e0 = i → (∀ el, In el (allElements doc) → nid (self el) ≠ i) →
  updateElement i removeNode (updateElement b (appendChild (ElemNode e0 k)) doc) = doc.
Proof.
  intros He0 Habs. unfold updateElement. rewrite flat_map_flat_map.
  apply flat_map_singletons. intros n Hn.
  apply (remove_after_append b e0 k n He0 []). intros el Hel. apply Habs.
  unfold allElements. apply in_flat_map. eauto.
Qed.

End Removal.

Section Lifecycle.
Variables drawn cleared : list node → list node.

Local Abbreviation init := (init drawn).
Local Abbreviation destroy := (destroy cleared).

Lemma render_stays i doc el :
  In el (allElements doc) → nid (self el) = i →
  ∃ el', In el' (allElements (updateElement i (render drawn) doc)) ∧ nid (self el') = i.
Proof.
  intros Hin Hid.
  destruct (updateElement_child_hits i drawn (render drawn) ltac:(reflexivity) doc el Hin Hid)
    as (el' & cs0 & H1 & H2 & _). eauto.
Qed.

Lemma unmount_stays i doc el :
  In el (allElements doc) → nid (self el) = i →
  ∃ el', In el' (allElements (updateElement i (unmount cleared) doc)) ∧ nid (self el') = i.
Proof.
  intros Hin Hid.
  destruct (updateElement_child_hits i cleared (unmount cleared) ltac:(reflexivity)
              doc el Hin Hid)
    as (el' & cs0 & H1 & H2 & _). eauto.
Qed.

(** X28. The round trip of mounting: on a page with a body and no element
    of the container id, [init] raises nothing and puts a new container in
    the page, and [destroy] then gives back the page as it was before
    [init], exactly, and clears both fields. *)
Theorem init_destroy_round_trip containerId doc s b detachedParent :
  documentBody doc = Some b → getElementById (containerIdOf containerId) doc = None →
  (init containerId doc s).2 = None
  ∧ (init containerId doc s).1.2 = mkSdk (Some (freshId doc)) (Some (freshId doc))
  ∧ (∃ el, In el (allElements (init containerId doc s).1.1)
           ∧ nid (self el) = freshId doc)
  ∧ destroy detachedParent (init containerId doc s).1.1 (init containerId doc s).1.2
    = (doc, mkSdk None None).
Proof.
  intros Hb Hg. unfold Sdk.init. rewrite Hg, Hb. cbn [fst snd].
  set (i := freshId doc).
  set (new := newContainer i (containerIdOf containerId)).
  set (doc1 := updateElement (nid b) (appendChild new) doc).
  assert (H1 : ∃ el, In el (allElements doc1) ∧ nid (self el) = i).
  { destruct (documentBody_In _ _ Hb) as (bel & Hbel & Hbs).
    destruct (updateElement_child_hits (nid b) (λ cs, cs ++ [new]) (appendChild new)
                ltac:(reflexivity) doc bel Hbel ltac:(now rewrite Hbs))
      as (bel' & cs0 & Hin' & _ & Hk).
    eexists. split.
    - apply (allElements_child doc1 bel' (mkElem i HTMLElem "DIV"
                                            {[ "id" := containerIdOf containerId ]} ∅) []);
        [exact Hin' |]. rewrite Hk. apply in_or_app. right. now left.
    - reflexivity. }
  destruct H1 as (el1 & Hel1 & Hid1).
  destruct (render_stays i doc1 el1 Hel1 Hid1) as (el2 & Hel2 & Hid2).
  destruct (unmount_stays i _ el2 Hel2 Hid2) as (el3 & Hel3 & Hid3).
  split; [reflexivity |]. split; [reflexivity |]. split; [eauto |].
  unfold Sdk.destroy. cbn [root container].
  rewrite (inDocument_true i _ el3 Hel3 Hid3).
  rewrite (updateElement_remove_after i cleared) by reflexivity.
  rewrite (updateElement_remove_after i drawn) by reflexivity.
  unfold doc1, new, newContainer.
  rewrite updateElement_remove_appended; [reflexivity | reflexivity |].
  intros el Hel. now apply freshId_fresh.
Qed.

(** X29. When the page already has an element of the container id, [init]
    adopts it, and [destroy] then removes that element of the host page
    with all it held: the page after [init] and [destroy] is the page
    before [init] without that element. *)
Theorem destroy_removes_adopted_container containerId doc s el detachedParent :
  getElementById (containerIdOf containerId) doc = Some el →
  (init containerId doc s).2 = None
  ∧ destroy detachedParent (init containerId doc s).1.1 (init containerId doc s).1.2
    = (updateElement (nid (self el)) removeNode doc, mkSdk None None)
  ∧ ∀ el', In el' (allElements
                     (destroy detachedParent (init containerId doc s).1.1
                        (init containerId doc s).1.2).1) →
           nid (self el') ≠ nid (self el).
Proof.
  intros Hg.
  assert (Hin : In el (allElements doc)).
  { unfold getElementById in Hg. destruct (truthy _); [| discriminate].
    now apply HighlightFacts.head_filter_In in Hg as [Hg _]. }
  assert (Hd : destroy detachedParent (init containerId doc s).1.1
                 (init containerId doc s).1.2
               = (updateElement (nid (self el)) removeNode doc, mkSdk None None)).
  { unfold Sdk.init. rewrite Hg. cbn [fst snd].
    destruct (render_stays _ doc el Hin eq_refl) as (el2 & Hel2 & Hid2).
    destruct (unmount_stays _ _ el2 Hel2 Hid2) as (el3 & Hel3 & Hid3).
    unfold Sdk.destroy. cbn [root container].
    rewrite (inDocument_true _ _ el3 Hel3 Hid3).
    rewrite (updateElement_remove_after _ cleared) by reflexivity.
    rewrite (updateElement_remove_after _ drawn) by reflexivity. reflexivity. }
  split; [unfold Sdk.init; rewrite Hg; reflexivity |]. split; [exact Hd |].
  rewrite Hd. cbn [fst]. intros el' Hel'.
  now apply ModifyFacts.updateElement_remove in Hel' as [Hne _].
Qed.

Lemma inDocument_false i doc :
  inDocument i doc = false → ∀ el, In el (allElements doc) → nid (self el) ≠ i.
Proof.
  unfold inDocument. intros H el Hel Hid.
  assert (Ht : existsb (λ el, nid (self el) =? i) (allElements doc) = true).
  { apply existsb_exists. exists el. split; [exact Hel | now apply Nat.eqb_eq]. }
  congruence.
Qed.

(** X30. [destroy] is idempotent: a second call changes neither the page
    nor the fields, whatever they were before the first. *)
Theorem destroy_idempotent detachedParent doc s :
  destroy detachedParent (destroy detachedParent doc s).1 (destroy detachedParent doc s).2
  = destroy detachedParent doc s.
Proof.
  unfold Sdk.destroy.
  set (doc1 := match root s with
               | Some r => updateElement r (unmount cleared) doc
               | None => doc
               end).
  destruct (container s) as [i |]; [| reflexivity].
  destruct (inDocument i doc1) eqn:Hi; [reflexivity |].
  destruct detachedParent; [reflexivity |].
  cbn [fst snd root container]. rewrite Hi. reflexivity.
Qed.

End Lifecycle.

Lemma init_destroy_round_trip_witness :
  (init (λ _, [TextNode "widget"]) None groceries (mkSdk None None)).2 = None
  ∧ (init (λ _, [TextNode "widget"]) None groceries (mkSdk None None)).1.2
    = mkSdk (Some (freshId groceries)) (Some (freshId groceries))
  ∧ (∃ el, In el (allElements
                    (init (λ _, [TextNode "widget"]) None groceries (mkSdk None None)).1.1)
           ∧ nid (self el) = freshId groceries)
  ∧ destroy (λ _, []) false
      (init (λ _, [TextNode "widget"]) None groceries (mkSdk None None)).1.1
      (init (λ _, [TextNode "widget"]) None groceries (mkSdk None None)).1.2
    = (groceries, mkSdk None None).
Proof.
  apply (init_destroy_round_trip (λ _, [TextNode "widget"]) (λ _, []) None groceries
           (mkSdk None None) (mkElem 2 HTMLElem "BODY" ∅ ∅) false); reflexivity.
Defined.

Lemma destroy_removes_adopted_container_witness :
  (init (λ _, [TextNode "widget"]) (Some "root") rootPage (mkSdk None None)).2 = None
  ∧ destroy (λ _, []) false
      (init (λ _, [TextNode "widget"]) (Some "root") rootPage (mkSdk None None)).1.1
      (init (λ _, [TextNode "widget"]) (Some "root") rootPage (mkSdk None None)).1.2
    = (updateElement (nid (self (elementAt rootPage 3))) removeNode rootPage,
       mkSdk None None)
  ∧ ∀ el', In el' (allElements
                     (destroy (λ _, []) false
                        (init (λ _, [TextNode "widget"]) (Some "root") rootPage
                           (mkSdk None None)).1.1
                        (init (λ _, [TextNode "widget"]) (Some "root") rootPage
                           (mkSdk None None)).1.2).1) →
           nid (self el') ≠ nid (self (elementAt rootPage 3)).
Proof.
  apply (destroy_removes_adopted_container (λ _, [TextNode "widget"]) (λ _, [])
           (Some "root") rootPage (mkSdk None None) (elementAt rootPage 3) false).
  reflexivity.
Defined.

(** Mounting on the grocery page and on a page that has the container. *)
Example init_on_groceries :
  (init (λ _, [TextNode "widget"]) None groceries (mkSdk None None)).1.1
  = [html 0 "HTML" []
       [html 1 "HEAD" [] [];
        html 2 "BODY" []
          [html 3 "UL" []
             [html 4 "LI" [] [TextNode "Apples"];
              html 5 "LI" [] [TextNode "Bread"]];
           html 6 "DIV" [("id", "chat-widget-root")] [TextNode "widget"]]]].
Proof. reflexivity. Qed.

End SdkFacts.
